(** * Streamis: fan-out of pub/sub channels to HTTP listeners

    A shallow embedding of [streamis.py]: the [Subscription] relay
    (listener set, [broadcast] loop) and the [SubscriptionManager]
    registry ([subscribe], [unsubscribe]), over an explicit store of
    Python objects, together with the properties of the registry and
    of the relay loop. *)

From stdpp Require Import gmap strings list fin_maps fin_sets.

Local Open Scope string_scope.
Local Open Scope list_scope.
Local Open Scope nat_scope.
Local Open Scope stdpp_scope.

(** ** Values and object identities *)

(** Python objects are referred to by identity.  A listener is the
    identity of a handler object, an [addr] the identity of a
    [Subscription] object, a [handle] the identity of the channel
    object returned by the message source. *)
Abbreviation listener := nat (only parsing).
Abbreviation addr := nat (only parsing).
Abbreviation handle := nat (only parsing).
Abbreviation message := string (only parsing).

Inductive exn :=
| SourceUnavailable   (* the source cannot open a subscription *)
| SourceClosed        (* the source dropped while a relay waited *)
| AttributeError      (* attribute access on None or on a missing attribute *)
| KeyError.           (* set.remove of an absent element *)

Inductive result (A : Type) :=
| Ok (x : A)
| Raise (e : exn).
Arguments Ok {A} x.
Arguments Raise {A} e.

Inductive level := DEBUG | WARNING.

(** ** asyncio.Queue *)

Module Queue.

Record t := { maxsize : nat; items : list message }.

(** [Queue()]: [maxsize] defaults to 0, which means unbounded. *)
Definition new : t := {| maxsize := 0; items := [] |}.

Definition full (q : t) : bool :=
  if maxsize q =? 0 then false else maxsize q <=? length (items q).

(** [put_nowait]: [None] stands for the [QueueFull] exception. *)
Definition put_nowait (q : t) (m : message) : option t :=
  if full q then None
  else Some {| maxsize := maxsize q; items := items q ++ [m] |}.

End Queue.

(** ** The message source *)

Module Source.

(** Modelled from the spec: the Message Source contract ([open],
    [next], [close]); the aioredis client the code calls is not part
    of the repository.  A feed is an open upstream subscription: the
    channel it listens on and the messages it has not yielded yet. *)
Record t := { up : bool; feeds : gmap handle (string * list message) }.

Inductive pulled :=
| Blocked
| Failed (e : exn)
| Got (m : message) (src : t).

(** Modelled from the spec: [open(channel)] returns the handle of a new
    subscription, or fails with [SourceUnavailable] when the backend
    cannot be reached. *)
Definition open (c : string) (src : t) : result handle * t :=
  if up src then
    let h := fresh (dom (feeds src)) in
    (Ok h, {| up := up src; feeds := <[h := (c, [])]> (feeds src) |})
  else (Raise SourceUnavailable, src).

(** Modelled from the spec: [next(handle)] yields the next message,
    blocks while there is none, and fails with [SourceClosed] once the
    subscription or the backend is gone. *)
Definition next (h : handle) (src : t) : pulled :=
  match feeds src !! h with
  | None => Failed SourceClosed
  | Some (c, []) => if up src then Blocked else Failed SourceClosed
  | Some (c, m :: buf) =>
      Got m {| up := up src; feeds := <[h := (c, buf)]> (feeds src) |}
  end.

(** Modelled from the spec: [close(handle)], idempotent.  The code never
    calls it. *)
Definition close (h : handle) (src : t) : t :=
  {| up := up src; feeds := delete h (feeds src) |}.

Definition feed_publish (c : string) (m : message)
    (f : string * list message) : string * list message :=
  if decide (f.1 = c) then (f.1, f.2 ++ [m]) else f.

(** Modelled from the spec: a message published on a channel reaches
    every subscription open on that channel. *)
Definition publish (c : string) (m : message) (src : t) : t :=
  {| up := up src; feeds := feed_publish c m <$> feeds src |}.

(** The open upstream subscriptions on channel [c]. *)
Definition active (c : string) (src : t) : gset handle :=
  dom (filter (λ kv, (kv.2).1 = c) (feeds src)).

End Source.

(** ** The object store *)

(** A [Subscription] object: [name], [listeners], and the [channel]
    attribute, which exists only once [Subscription.subscribe] has
    returned. *)
Record Subscription := {
  name : string;
  listeners : gset listener;
  channel : option handle
}.

(** The [broadcast] coroutine of a subscription, as the event loop sees
    it: scheduled by [call_soon], suspended at [await self.channel.get()],
    returned, or ended by an exception. *)
Inductive task :=
| Scheduled
| Waiting
| Finished
| Crashed (e : exn).

(** A [SubscriptionManager.subscribe] call suspended at
    [await subscription.subscribe()]: its listener, its channel name and
    the subscription object it has created. *)
Record suspended := Suspended {
  s_listener : listener;
  s_channel : string;
  s_sub : addr
}.

Record State := {
  redis : bool;                       (* manager.redis is not None *)
  subscriptions : gmap string addr;   (* manager.subscriptions *)
  objects : gmap addr Subscription;   (* the Subscription objects *)
  tasks : gmap addr task;             (* broadcast tasks, by subscription *)
  queues : gmap listener Queue.t;     (* listener.queue *)
  awaiting : list suspended;          (* subscribe calls at their await *)
  source : Source.t;
  log : list (level * string)
}.

Definition set_redis (b : bool) (σ : State) : State :=
  {| redis := b; subscriptions := subscriptions σ; objects := objects σ;
     tasks := tasks σ; queues := queues σ; awaiting := awaiting σ;
     source := source σ; log := log σ |}.

Definition set_subscriptions (r : gmap string addr) (σ : State) : State :=
  {| redis := redis σ; subscriptions := r; objects := objects σ;
     tasks := tasks σ; queues := queues σ; awaiting := awaiting σ;
     source := source σ; log := log σ |}.

Definition set_objects (o : gmap addr Subscription) (σ : State) : State :=
  {| redis := redis σ; subscriptions := subscriptions σ; objects := o;
     tasks := tasks σ; queues := queues σ; awaiting := awaiting σ;
     source := source σ; log := log σ |}.

Definition set_tasks (t : gmap addr task) (σ : State) : State :=
  {| redis := redis σ; subscriptions := subscriptions σ; objects := objects σ;
     tasks := t; queues := queues σ; awaiting := awaiting σ;
     source := source σ; log := log σ |}.

Definition set_queues (q : gmap listener Queue.t) (σ : State) : State :=
  {| redis := redis σ; subscriptions := subscriptions σ; objects := objects σ;
     tasks := tasks σ; queues := q; awaiting := awaiting σ;
     source := source σ; log := log σ |}.

Definition set_awaiting (w : list suspended) (σ : State) : State :=
  {| redis := redis σ; subscriptions := subscriptions σ; objects := objects σ;
     tasks := tasks σ; queues := queues σ; awaiting := w;
     source := source σ; log := log σ |}.

Definition set_source (s : Source.t) (σ : State) : State :=
  {| redis := redis σ; subscriptions := subscriptions σ; objects := objects σ;
     tasks := tasks σ; queues := queues σ; awaiting := awaiting σ;
     source := s; log := log σ |}.

Definition logger (lv : level) (text : string) (σ : State) : State :=
  {| redis := redis σ; subscriptions := subscriptions σ; objects := objects σ;
     tasks := tasks σ; queues := queues σ; awaiting := awaiting σ;
     source := source σ; log := log σ ++ [(lv, text)] |}.

(** [SubscriptionManager.__init__], before [connect]. *)
Definition init (src : Source.t) : State :=
  {| redis := false; subscriptions := ∅; objects := ∅; tasks := ∅;
     queues := ∅; awaiting := []; source := src; log := [] |}.

(** ** State and exception monad *)

Definition M (A : Type) : Type := State → result A * State.

Definition ret {A} (x : A) : M A := λ σ, (Ok x, σ).
Definition raise {A} (e : exn) : M A := λ σ, (Raise e, σ).
Definition bind {A B} (m : M A) (k : A → M B) : M B :=
  λ σ, match m σ with
       | (Ok x, σ') => k x σ'
       | (Raise e, σ') => (Raise e, σ')
       end.
Definition gets {A} (f : State → A) : M A := λ σ, (Ok (f σ), σ).
Definition modify (f : State → State) : M unit := λ σ, (Ok tt, f σ).

Notation "'do' x <- m ; k" := (bind m (λ x, k))
  (at level 10, x name, m at level 100, k at level 200,
   format "'[v' 'do'  x  <-  m ; '/' k ']'").
Notation "'do_' m ; k" := (bind m (λ _, k))
  (at level 10, m at level 100, k at level 200,
   format "'[v' 'do_'  m ; '/' k ']'").

(** Attribute access through a reference to a [Subscription]. *)
Definition deref (a : addr) : M Subscription :=
  λ σ, match objects σ !! a with
       | Some s => (Ok s, σ)
       | None => (Raise AttributeError, σ)
       end.

Definition store (a : addr) (s : Subscription) : M unit :=
  modify (λ σ, set_objects (<[a := s]> (objects σ)) σ).

(** ** class Connection *)

(** [Connection.redis()] as [SubscriptionManager.connect] calls it:
    [create_redis] reaches the source or fails. *)
Definition connect : M unit :=
  do src <- gets source;
  if Source.up src then modify (set_redis true)
  else raise SourceUnavailable.

(** ** class Subscription *)

Definition Subscription_init (c : string) : M addr :=
  do objs <- gets objects;
  let a := fresh (dom objs) in
  do_ store a {| name := c; listeners := ∅; channel := None |};
  ret a.

(** [Subscription.subscribe] up to its [await]: the attribute access
    [self._redis.subscribe] fails on a manager that never connected. *)
Definition Subscription_subscribe_call (a : addr) : M unit :=
  do_ deref a;
  do r <- gets redis;
  if r then ret tt else raise AttributeError.

(** [Subscription.subscribe] from its [await] on: the source answers,
    and [self.channel = res[0]]. *)
Definition Subscription_subscribe_return (a : addr) : M unit :=
  do s <- deref a;
  do src <- gets source;
  match Source.open (name s) src with
  | (Ok h, src') =>
      do_ modify (set_source src');
      store a {| name := name s; listeners := listeners s; channel := Some h |}
  | (Raise e, _) => raise e
  end.

Definition add_listener (a : addr) (l : listener) : M unit :=
  do s <- deref a;
  store a {| name := name s; listeners := {[l]} ∪ listeners s;
             channel := channel s |}.

(** [listener.queue.put_nowait(msg)] inside [try]: the queue afterwards,
    or [None] when anything is raised (no queue, or a full one). *)
Definition offer (m : message) (σ : State) (l : listener) : option Queue.t :=
  queues σ !! l ≫= λ q, Queue.put_nowait q m.

(** The [for listener in self.listeners] loop of [broadcast], over the
    listeners in iteration order; the first component is [closed]. *)
Fixpoint sweep (m : message) (ls : list listener) (closed : list listener)
    (σ : State) : list listener * State :=
  match ls with
  | [] => (closed, σ)
  | l :: ls' =>
      match offer m σ l with
      | Some q' => sweep m ls' closed (set_queues (<[l := q']> (queues σ)) σ)
      | None =>
          sweep m ls' (closed ++ [l])
            (logger WARNING "Message delivery failed. Client disconnection?" σ)
      end
  end.

(** [[self.listeners.remove(listener) for listener in closed]]. *)
Fixpoint remove_all (closed : list listener) (ls : gset listener)
    : result (gset listener) :=
  match closed with
  | [] => Ok ls
  | l :: closed' =>
      if decide (l ∈ ls) then remove_all closed' (ls ∖ {[l]})
      else Raise KeyError
  end.

(** The loop test [len(self.listeners) > 0]. *)
Definition loop_test (ls : gset listener) : task :=
  if 0 <? size ls then Waiting else Finished.

Definition set_task (a : addr) (t : task) (σ : State) : State :=
  set_tasks (<[a := t]> (tasks σ)) σ.

(** The body of the [while] loop of [broadcast], from the message the
    [await] returned to the next loop test. *)
Definition broadcast_body (a : addr) (s : Subscription) (m : message)
    (σ : State) : State :=
  let σ1 := logger DEBUG ("Got message: " +:+ m) σ in
  let '(closed, σ2) := sweep m (elements (listeners s)) [] σ1 in
  match remove_all closed (listeners s) with
  | Ok ls' =>
      set_task a (loop_test ls')
        (set_objects
           (<[a := {| name := name s; listeners := ls'; channel := channel s |}]>
              (objects σ2)) σ2)
  | Raise e => set_task a (Crashed e) σ2
  end.

(** One turn of the event loop for the [broadcast] task of [a]: a
    scheduled task runs to its first loop test; a waiting task whose
    feed has a message runs one iteration. *)
Definition broadcast_step (a : addr) (σ : State) : State :=
  match tasks σ !! a, objects σ !! a with
  | Some Scheduled, Some s => set_task a (loop_test (listeners s)) σ
  | Some Waiting, Some s =>
      match channel s with
      | None => set_task a (Crashed AttributeError) σ
      | Some h =>
          match Source.next h (source σ) with
          | Source.Blocked => σ
          | Source.Failed e => set_task a (Crashed e) σ
          | Source.Got m src' => broadcast_body a s m (set_source src' σ)
          end
      end
  | _, _ => σ
  end.

(** ** class SubscriptionManager *)

(** [self.loop.call_soon(lambda: asyncio.Task(subscription.broadcast()))]. *)
Definition call_soon_broadcast (a : addr) : M unit :=
  modify (set_task a Scheduled).

(** [subscribe] up to its [await], if it reaches one: [None] when the
    call has run to its end. *)
Definition subscribe_begin (l : listener) (c : string) : M (option suspended) :=
  do reg <- gets subscriptions;
  match reg !! c with
  | Some a =>
      do_ add_listener a l;
      ret None
  | None =>
      do a <- Subscription_init c;
      do_ Subscription_subscribe_call a;
      ret (Some (Suspended l c a))
  end.

(** [subscribe] from its [await] to its end. *)
Definition subscribe_resume (k : suspended) : M unit :=
  do_ Subscription_subscribe_return (s_sub k);
  do_ modify (λ σ, set_subscriptions
                     (<[s_channel k := s_sub k]> (subscriptions σ)) σ);
  do_ call_soon_broadcast (s_sub k);
  add_listener (s_sub k) (s_listener k).

(** A [subscribe] call that nothing else interleaves with. *)
Definition subscribe (l : listener) (c : string) : M unit :=
  do k <- subscribe_begin l c;
  match k with
  | None => ret tt
  | Some k => subscribe_resume k
  end.

Definition unsubscribe (c : string) : M unit :=
  do reg <- gets subscriptions;
  match reg !! c with
  | None =>
      modify (logger WARNING ("Not subscribed to channel '" +:+ c +:+ "'"))
  | Some _ =>
      (* [pop]; [del sub] only unbinds the local name *)
      modify (set_subscriptions (delete c reg))
  end.

(** ** class SSEHandler *)

(** [SSEHandler.initialize]: [self.queue = Queue()]. *)
Definition SSEHandler_initialize (l : listener) : M unit :=
  modify (λ σ, set_queues (<[l := Queue.new]> (queues σ)) σ).

(** ** The event loop *)

(** What can happen next: calls from the transport, turns of relay
    tasks, and the environment (messages published, the source going
    down or coming back). *)
Inductive event :=
| Connect
| Accept (l : listener)
| Subscribe (l : listener) (c : string)
| SubscribeBegin (l : listener) (c : string)
| SubscribeResume (i : nat)
| Unsubscribe (c : string)
| Relay (a : addr)
| Publish (c : string) (m : message)
| SourceSet (b : bool).

Definition step (ev : event) : M unit :=
  match ev with
  | Connect => connect
  | Accept l => SSEHandler_initialize l
  | Subscribe l c => subscribe l c
  | SubscribeBegin l c =>
      do k <- subscribe_begin l c;
      match k with
      | None => ret tt
      | Some k => modify (λ σ, set_awaiting (awaiting σ ++ [k]) σ)
      end
  | SubscribeResume i =>
      do w <- gets awaiting;
      match w !! i with
      | None => ret tt
      | Some k =>
          do_ modify (set_awaiting (delete i w));
          subscribe_resume k
      end
  | Unsubscribe c => unsubscribe c
  | Relay a => modify (broadcast_step a)
  | Publish c m => modify (λ σ, set_source (Source.publish c m (source σ)) σ)
  | SourceSet b =>
      modify (λ σ, set_source
                     {| Source.up := b;
                        Source.feeds := Source.feeds (source σ) |} σ)
  end.

(** Run a schedule; an exception ends the call that raised it, not the
    process. *)
Fixpoint run (evs : list event) (σ : State) : State :=
  match evs with
  | [] => σ
  | ev :: evs' => run evs' (step ev σ).2
  end.

(** ** Observations *)

(** The listener set of the relay registered for [c]. *)
Definition relay_listeners (c : string) (σ : State) : option (gset listener) :=
  subscriptions σ !! c ≫= λ a, listeners <$> objects σ !! a.

(** What listener [l] has been handed so far. *)
Definition received (l : listener) (σ : State) : list message :=
  from_option Queue.items [] (queues σ !! l).

Definition source_up : Source.t := {| Source.up := true; Source.feeds := ∅ |}.
Definition source_down : Source.t := {| Source.up := false; Source.feeds := ∅ |}.

(** ** Properties and invariants *)

(** Object [a] exists and is a subscription on channel [c]. *)
Definition named (σ : State) (c : string) (a : addr) : Prop :=
  ∃ s, objects σ !! a = Some s ∧ name s = c.

(** Every registry entry is stored under the name of its subscription. *)
Definition key_consistent (σ : State) : Prop :=
  ∀ c a, subscriptions σ !! c = Some a → named σ c a.

(** Every suspended [subscribe] call holds a subscription on its channel. *)
Definition awaiting_named (σ : State) : Prop :=
  ∀ k, k ∈ awaiting σ → named σ (s_channel k) (s_sub k).

(** No state change ever renames an object or frees it. *)
Definition names_kept (σ σ' : State) : Prop :=
  ∀ c a, named σ c a → named σ' c a.

(** The listener's queue turns the message down. *)
Definition rejects (m : message) (σ : State) (l : listener) : Prop :=
  offer m σ l = None.

#[local] Instance rejects_dec m σ l : Decision (rejects m σ l).
Proof. unfold rejects. destruct (offer m σ l); [right|left]; done. Defined.

(** The queue of [l] once [m] has been offered to it. *)
Definition offered (m : message) (σ : State) (l : listener) : option Queue.t :=
  match offer m σ l with
  | Some q' => Some q'
  | None => queues σ !! l
  end.

(** The listeners a relay keeps after message [m]: those whose queue
    took it. *)
Definition kept (m : message) (σ : State) (ls : gset listener) : gset listener :=
  ls ∖ list_to_set (filter (rejects m σ) (elements ls)).



(** Relay [a] on channel [c] with feed [h] and listeners [L], its task
    in state [t]; [buf] is what the feed still holds, and every listener
    has an unbounded queue that, followed by [buf], reads [pub]. *)
Definition flowing (c : string) (a : addr) (h : handle) (L : gset listener)
    (t : task) (buf pub : list message) (σ : State) : Prop :=
  objects σ !! a = Some {| name := c; listeners := L; channel := Some h |}
  ∧ tasks σ !! a = Some t
  ∧ Source.up (source σ) = true
  ∧ Source.feeds (source σ) !! h = Some (c, buf)
  ∧ ∀ l, l ∈ L → ∃ q, queues σ !! l = Some q ∧ Queue.maxsize q = 0
                      ∧ Queue.items q ++ buf = pub.

(** The [broadcast] task of [a] has returned or died. *)
Definition ended (a : addr) (σ : State) : Prop :=
  tasks σ !! a = Some Finished ∨ ∃ e, tasks σ !! a = Some (Crashed e).

(** Every open feed is the channel of the relay that the registry holds
    for the feed's channel name. *)
Definition held (σ : State) : Prop :=
  ∀ h c buf, Source.feeds (source σ) !! h = Some (c, buf) →
  ∃ a s, subscriptions σ !! c = Some a ∧ objects σ !! a = Some s
         ∧ channel s = Some h.

(** Calls that run to their end without interleaving, and no
    [unsubscribe]. *)
Definition sequential (ev : event) : Prop :=
  match ev with
  | Unsubscribe _ | SubscribeBegin _ _ | SubscribeResume _ => False
  | _ => True
  end.

(** ** Example states and schedules *)

(** A manager with one listener on channel "x": the relay is object 0. *)
Definition one_listener : State :=
  run [Connect; Accept 1; Subscribe 1 "x"] (init source_up).

(** A connected manager whose source went down afterwards. *)
Definition source_lost : State :=
  run [Connect; Accept 1; SourceSet false] (init source_up).

(** Two calls on channel "y" race on a registry that already holds "x". *)
Definition racing : list event :=
  [SubscribeBegin 2 "y"; SubscribeBegin 3 "y"; Unsubscribe "x";
   SubscribeResume 1; SubscribeResume 0; Relay 1; Publish "y" "m"; Relay 2].

(** Three listeners on channel "x", the relay waiting, message "a"
    published; the queue of listener 3 is bounded and full. *)
Definition crowded : State :=
  let σ := run [Connect; Accept 1; Accept 2; Subscribe 1 "x"; Subscribe 2 "x";
                Subscribe 3 "x"; Relay 0; Publish "x" "a"] (init source_up) in
  set_queues (<[3 := {| Queue.maxsize := 1; Queue.items := ["old"] |}]> (queues σ)) σ.


(** The relay of [one_listener], started. *)
Definition one_waiting : State := run [Relay 0] one_listener.

(** The source drops while the relay of [one_listener] waits, and comes
    back afterwards. *)
Definition source_dropped : State :=
  run [Relay 0; SourceSet false; Relay 0; SourceSet true] one_listener.

(** The only listener of the relay has no usable queue and is evicted at
    the first message. *)
Definition all_evicted : State :=
  run [Connect; Subscribe 7 "x"; Relay 0; Publish "x" "a"; Relay 0]
    (init source_up).

Definition two_channels : list event :=
  [Connect; Accept 1; Accept 2; Subscribe 1 "x"; Relay 0; Subscribe 2 "x";
   Publish "x" "a"; Subscribe 2 "y"; Relay 0; Relay 1].

(** ** The states the program can reach *)
















(** ** tornado.options *)

(** The options the module defines, with their defaults. *)
Record Options := {
  redis_host : string;
  redis_port : N;
  port : N;
  debug : bool
}.

Definition options : Options :=
  {| redis_host := "localhost"; redis_port := 6379%N; port := 8989%N;
     debug := false |}.

(** ** class Connection *)

Module Connection.

(** A redis client: its identity and the address it was created for. *)
Record client := { cid : nat; peer : string * N }.

(** The class attribute [_redis], and how many clients have been created
    (the identity of the next one). *)
Record t := { _redis : option client; created : nat }.

Definition new : t := {| _redis := None; created := 0 |}.

(** The cached client, if any, is one that has been created. *)
Definition wf (k : t) : Prop :=
  ∀ r, _redis k = Some r → cid r < created k.

(** Modelled from the spec: [aioredis.create_redis(settings)] reaches the
    backend at [settings] or fails; the aioredis client is not part of
    the repository. *)
Definition create_redis (settings : string * N) (src : Source.t) (k : t)
    : result client :=
  if Source.up src then Ok {| cid := created k; peer := settings |}
  else Raise SourceUnavailable.

(** [Connection.redis(force_reconnect)]. *)
Definition redis (force_reconnect : bool) (opts : Options) (src : Source.t)
    (k : t) : result client * t :=
  match _redis k, force_reconnect with
  | Some r, false => (Ok r, k)
  | _, _ =>
      match create_redis (redis_host opts, redis_port opts) src k with
      | Ok r => (Ok r, {| _redis := Some r; created := S (created k) |})
      | Raise e => (Raise e, k)
      end
  end.

End Connection.

(** [SubscriptionManager.connect] with the class [Connection] it goes
    through: [self.redis = await Connection.redis()]. *)
Definition SubscriptionManager_connect (opts : Options) (k : Connection.t)
    (σ : State) : result unit * (Connection.t * State) :=
  match Connection.redis false opts (source σ) k with
  | (Ok _, k') => (Ok tt, (k', set_redis true σ))
  | (Raise e, k') => (Raise e, (k', σ))
  end.

(** ** class SSEHandler, the consumer side *)

(** [queue.get()] when the queue has an item; [None] when the caller has
    to wait. *)
Definition Queue_get (q : Queue.t) : option (message * Queue.t) :=
  match Queue.items q with
  | [] => None
  | m :: rest =>
      Some (m, {| Queue.maxsize := Queue.maxsize q; Queue.items := rest |})
  end.

Definition LF : string := String (Ascii.ascii_of_nat 10) EmptyString.

(** ["data: %s\n\n" % message]; a message stands for the text that [%s]
    gives it. *)
Definition sse_frame (m : message) : string := "data: " +:+ m +:+ LF +:+ LF.

(** ** tornado.web, as the handler meets it *)

(** An exception that leaves [get] before anything has been flushed is
    answered by the framework: the response the handler had prepared is
    cleared and an error response is sent in its place.  The framework is
    not part of the repository; the headers and the body of its error
    response are parameters of the server. *)
Record Framework := {
  error_headers : exn → list (string * string);
  error_body : exn → string
}.

(** For the examples: a framework that answers every exception with
    status 500 and the same HTML page. *)
Definition internal_server_error : string :=
  "<html><title>500: Internal Server Error</title></html>".

Definition plain_errors : Framework :=
  {| error_headers := λ _, [("content-type", "text/html; charset=UTF-8")];
     error_body := λ _, internal_server_error |}.

(** Where a handler is in its life: constructed and initialised; inside
    [manager.subscribe], suspended at its [await], with the call it is
    suspended in; inside the loop of [get]; returned from [get]; or [get]
    ended by an exception. *)
Inductive phase :=
| Constructed
| Subscribing (k : suspended)
| Streaming
| Returned
| Raised (e : exn).

(** A handler object besides its queue: the headers set so far, what has
    been flushed to the client, and whether the client has closed the
    stream. *)
Record Handler := {
  headers : list (string * string);
  stage : phase;
  sent : list string;
  stream_closed : bool
}.

(** The process: the framework it runs under, the manager with its object
    store, and the handlers. *)
Record Server := {
  framework : Framework;
  core : State;
  handlers : gmap listener Handler
}.

Definition set_core (σ : State) (sv : Server) : Server :=
  {| framework := framework sv; core := σ; handlers := handlers sv |}.

Definition set_handler (l : listener) (hd : Handler) (sv : Server) : Server :=
  {| framework := framework sv; core := core sv;
     handlers := <[l := hd]> (handlers sv) |}.

Definition set_stage (p : phase) (hd : Handler) : Handler :=
  {| headers := headers hd; stage := p; sent := sent hd;
     stream_closed := stream_closed hd |}.

(** Exception [e] leaves [get], which has flushed nothing yet: the
    framework's error response replaces the handler's, and reaches the
    client unless the client has gone. *)
Definition get_raises (fw : Framework) (e : exn) (hd : Handler) : Handler :=
  {| headers := error_headers fw e; stage := Raised e;
     sent := if stream_closed hd then sent hd
             else sent hd ++ [error_body fw e];
     stream_closed := stream_closed hd |}.

(** A request arrives: a new handler object is constructed and
    [initialize] runs.  Identities of live objects are not reused. *)
Definition SSEHandler_new (l : listener) (sv : Server) : Server :=
  match handlers sv !! l with
  | Some _ => sv
  | None =>
      set_handler l
        {| headers := [("content-type", "text/event-stream");
                       ("cache-control", "no-cache")];
           stage := Constructed; sent := []; stream_closed := false |}
        (set_core (SSEHandler_initialize l (core sv)).2 sv)
  end.

(** [SSEHandler.get] from its start: [await self.manager.subscribe(self,
    channel)] runs [subscribe] up to the [await] inside it, where [get]
    is suspended; a [subscribe] that reaches no [await] returns at once
    and [get] goes on to its loop. *)
Definition SSEHandler_get (l : listener) (c : string) (sv : Server) : Server :=
  match handlers sv !! l with
  | Some hd =>
      match stage hd with
      | Constructed =>
          match subscribe_begin l c (core sv) with
          | (Ok None, σ') =>
              set_handler l (set_stage Streaming hd) (set_core σ' sv)
          | (Ok (Some k), σ') =>
              set_handler l (set_stage (Subscribing k) hd) (set_core σ' sv)
          | (Raise e, σ') =>
              set_handler l (get_raises (framework sv) e hd) (set_core σ' sv)
          end
      | _ => sv
      end
  | None => sv
  end.

(** [SSEHandler.get] when the [await] inside [subscribe] returns: the
    rest of [subscribe] runs, and [get] goes on to its loop. *)
Definition SSEHandler_get_resume (l : listener) (sv : Server) : Server :=
  match handlers sv !! l with
  | Some hd =>
      match stage hd with
      | Subscribing k =>
          match subscribe_resume k (core sv) with
          | (Ok _, σ') =>
              set_handler l (set_stage Streaming hd) (set_core σ' sv)
          | (Raise e, σ') =>
              set_handler l (get_raises (framework sv) e hd) (set_core σ' sv)
          end
      | _ => sv
      end
  | None => sv
  end.

(** One iteration of the [while True] loop of [get]: take a message from
    the queue, write and flush it; [StreamClosedError] breaks the loop. *)
Definition SSEHandler_turn (l : listener) (sv : Server) : Server :=
  match handlers sv !! l, queues (core sv) !! l with
  | Some hd, Some q =>
      match stage hd, Queue_get q with
      | Streaming, Some (m, q') =>
          let sv' := set_core (set_queues (<[l := q']> (queues (core sv)))
                                 (core sv)) sv in
          if stream_closed hd then
            set_handler l
              {| headers := headers hd; stage := Returned; sent := sent hd;
                 stream_closed := true |} sv'
          else
            set_handler l
              {| headers := headers hd; stage := Streaming;
                 sent := sent hd ++ [sse_frame m];
                 stream_closed := false |} sv'
      | _, _ => sv
      end
  | _, _ => sv
  end.

(** The client closes the connection. *)
Definition hang_up (l : listener) (sv : Server) : Server :=
  match handlers sv !! l with
  | Some hd =>
      set_handler l
        {| headers := headers hd; stage := stage hd; sent := sent hd;
           stream_closed := true |} sv
  | None => sv
  end.

(** What the program itself does and what happens to it: [main] connects
    the manager, requests are handled, a handler's [get] starts and is
    resumed at the [await] inside [subscribe], handler and relay
    coroutines take turns, and the backend publishes, drops and comes
    back.  Nothing in the program calls [unsubscribe]. *)
Inductive action :=
| Startup
| Request (l : listener)
| Get (l : listener) (c : string)
| Resume (l : listener)
| Pump (l : listener)
| HangUp (l : listener)
| Turn (a : addr)
| Message (c : string) (m : message)
| Backend (b : bool).

Definition act (x : action) (sv : Server) : Server :=
  match x with
  | Startup => set_core (step Connect (core sv)).2 sv
  | Request l => SSEHandler_new l sv
  | Get l c => SSEHandler_get l c sv
  | Resume l => SSEHandler_get_resume l sv
  | Pump l => SSEHandler_turn l sv
  | HangUp l => hang_up l sv
  | Turn a => set_core (step (Relay a) (core sv)).2 sv
  | Message c m => set_core (step (Publish c m) (core sv)).2 sv
  | Backend b => set_core (step (SourceSet b) (core sv)).2 sv
  end.

Fixpoint serve (xs : list action) (sv : Server) : Server :=
  match xs with
  | [] => sv
  | x :: xs' => serve xs' (act x sv)
  end.

(** The process as [main] finds it. *)
Definition boot (fw : Framework) (src : Source.t) : Server :=
  {| framework := fw; core := init src; handlers := ∅ |}.

(** What has been flushed to the client of [l]. *)
Definition sent_to (l : listener) (sv : Server) : list string :=
  from_option sent [] (handlers sv !! l).

(** A relay whose object exists, that no suspended call is about to
    start, and whose task is in state [t]. *)
Definition settled (a : addr) (t : task) (σ : State) : Prop :=
  is_Some (objects σ !! a)
  ∧ (∀ k, k ∈ awaiting σ → s_sub k ≠ a)
  ∧ tasks σ !! a = Some t.

(** The transport constructs a handler for each client and calls its
    [get], and the [await] inside [subscribe], if [get] reaches it,
    returns before the next client arrives. *)
Definition connections (c : string) (ls : list listener) : list action :=
  ls ≫= λ l, [Request l; Get l c; Resume l].

(** The messages a schedule of the server publishes on channel [c]. *)
Definition aired (c : string) (xs : list action) : list message :=
  omap (λ x, match x with
             | Message c' m => if decide (c' = c) then Some m else None
             | _ => None
             end) xs.

(** A schedule of publications, turns of relay [a] and turns of
    handlers. *)
Definition steady (a : addr) (x : action) : Prop :=
  match x with
  | Turn b => b = a
  | Message _ _ | Pump _ => True
  | _ => False
  end.

(** Relay [a] on channel [c] with feed [h], listeners [L] and task state
    [t]; every listener is a handler inside its loop with an open stream
    and an unbounded queue, and what it has sent, followed by the frames
    of its queue and of the feed's backlog [buf], is the frames of
    [pub]. *)
Definition streaming (c : string) (a : addr) (h : handle) (L : gset listener)
    (t : task) (buf pub : list message) (sv : Server) : Prop :=
  objects (core sv) !! a = Some {| name := c; listeners := L; channel := Some h |}
  ∧ tasks (core sv) !! a = Some t
  ∧ Source.up (source (core sv)) = true
  ∧ Source.feeds (source (core sv)) !! h = Some (c, buf)
  ∧ ∀ l, l ∈ L →
      ∃ q hd, queues (core sv) !! l = Some q ∧ Queue.maxsize q = 0
        ∧ handlers sv !! l = Some hd ∧ stage hd = Streaming
        ∧ stream_closed hd = false
        ∧ sent hd ++ (sse_frame <$> (Queue.items q ++ buf)) = sse_frame <$> pub.

(** The handler of [l] is suspended inside [subscribe], in call [k]. *)
Definition suspended_in (sv : Server) (l : listener) (k : suspended) : Prop :=
  ∃ hd, handlers sv !! l = Some hd ∧ stage hd = Subscribing k.

(** The state of the server as the program can reach it: every queue is
    the unbounded one [initialize] makes, every registered listener is a
    handler that has its queue, and a handler suspended inside
    [subscribe] is the listener of its own call. *)
Definition reachable_shape (sv : Server) : Prop :=
  (∀ l q, queues (core sv) !! l = Some q → Queue.maxsize q = 0)
  ∧ (∀ l, is_Some (handlers sv !! l) → is_Some (queues (core sv) !! l))
  ∧ (∀ a s l, objects (core sv) !! a = Some s → l ∈ listeners s →
       is_Some (handlers sv !! l))
  ∧ (∀ l k, suspended_in sv l k → s_listener k = l).

(** The suspended calls of a server the program can reach: every
    registered subscription exists, queues belong to handlers, and each
    suspended call holds a subscription of its own that exists and is not
    registered. *)
Definition calls_apart (sv : Server) : Prop :=
  (∀ c a, subscriptions (core sv) !! c = Some a →
     is_Some (objects (core sv) !! a))
  ∧ (∀ l, is_Some (queues (core sv) !! l) → is_Some (handlers sv !! l))
  ∧ (∀ l k, suspended_in sv l k →
       is_Some (objects (core sv) !! s_sub k)
       ∧ ∀ c, subscriptions (core sv) !! c ≠ Some (s_sub k))
  ∧ (∀ l1 l2 k1 k2, suspended_in sv l1 k1 → suspended_in sv l2 k2 →
       s_sub k1 = s_sub k2 → l1 = l2).

(** No handler is suspended inside a [subscribe] for channel [c]. *)
Definition no_call_on (c : string) (sv : Server) : Prop :=
  ∀ l k, suspended_in sv l k → s_channel k ≠ c.

(** Listener [l] is in no relay but possibly [a], and has been handed and
    has sent nothing. *)
Definition silent (a : addr) (l : listener) (sv : Server) : Prop :=
  (∀ a' s', objects (core sv) !! a' = Some s' → l ∈ listeners s' → a' = a)
  ∧ received l (core sv) = []
  ∧ sent_to l sv = [].

(** A server with one client streaming channel "x". *)
Definition one_client : Server :=
  serve [Startup; Request 1; Get 1 "x"; Resume 1; Turn 0]
    (boot plain_errors source_up).

(** A server that has connected to the backend. *)
Definition booted : Server := serve [Startup] (boot plain_errors source_up).

(** Traffic on two channels, with turns of relay 0 and of two handlers. *)
Definition traffic : list action :=
  [Message "x" "a"; Turn 0; Pump 1; Message "y" "z"; Message "x" "b";
   Turn 0; Pump 2].

(** The handler of [l] is out of [get]: it returned or raised. *)
Definition finished (hd : Handler) : Prop :=
  stage hd = Returned ∨ ∃ e, stage hd = Raised e.

(** A client asks for channel "x" while the backend is down. *)
Definition refused : Server :=
  serve [Startup; Backend false; Request 1] (boot plain_errors source_up).

(** The relay [a] that the registry holds for channel [c] has ended, and
    listener [l] is silent. *)
Definition dead_for (a : addr) (c : string) (l : listener) (sv : Server) : Prop :=
  subscriptions (core sv) !! c = Some a
  ∧ is_Some (objects (core sv) !! a)
  ∧ ended a (core sv)
  ∧ silent a l sv.


(** A client waits inside [subscribe] for channel "y" while another
    streams channel "x". *)
Definition one_pending : Server :=
  serve [Request 3; Get 3 "y"] one_client.

(** The relay of channel "x" died when the backend dropped, while a
    client waits inside [subscribe] for channel "y". *)
Definition orphaned_pending : list action :=
  [Startup; Request 1; Get 1 "x"; Resume 1; Turn 0; Request 3; Get 3 "y";
   Turn 0; Backend false; Turn 0; Backend true].

(** ** Proof support *)

Ltac unfold_M :=
  unfold subscribe, subscribe_resume, subscribe_begin, unsubscribe, connect,
    SSEHandler_initialize, call_soon_broadcast, add_listener,
    Subscription_subscribe_return, Subscription_subscribe_call,
    Subscription_init, store, deref, modify, gets, bind, raise, ret in *.

Lemma fresh_object_None (σ : State) : objects σ !! fresh (dom (objects σ)) = None.
Proof. apply not_elem_of_dom, is_fresh. Qed.

Lemma fresh_object_ne (σ : State) (a : addr) (s : Subscription) :
  objects σ !! a = Some s → fresh (dom (objects σ)) ≠ a.
Proof. intros H <-. rewrite fresh_object_None in H. discriminate. Qed.

(** ** unsubscribe *)

(** C8. [unsubscribe] for a channel with no entry in the registry
    returns normally: it raises nothing, appends one warning naming the
    channel to the log, and leaves the registry and everything else as
    it was. *)
Theorem unsubscribe_unknown_channel (c : string) (σ : State) :
  subscriptions σ !! c = None →
  (unsubscribe c σ).1 = Ok tt
  ∧ subscriptions (unsubscribe c σ).2 = subscriptions σ
  ∧ (unsubscribe c σ).2
    = logger WARNING ("Not subscribed to channel '" +:+ c +:+ "'") σ.
Proof.
  intros Hc. unfold_M. rewrite Hc. done.
Qed.

Lemma unsubscribe_unknown_channel_witness :
  (unsubscribe "news" (init source_up)).1 = Ok tt
  ∧ subscriptions (unsubscribe "news" (init source_up)).2
    = subscriptions (init source_up)
  ∧ (unsubscribe "news" (init source_up)).2
    = logger WARNING "Not subscribed to channel 'news'" (init source_up).
Proof.
  apply (unsubscribe_unknown_channel "news" (init source_up)). reflexivity.
Defined.

(** C9. [unsubscribe] for a registered channel changes the registry at
    that key only: the key is deleted, every other entry stays, and the
    object store is untouched, so the popped [Subscription] keeps its
    listener set; nor are tasks, queues or the source touched. *)
Theorem unsubscribe_frame (c : string) (a : addr) (σ : State) :
  subscriptions σ !! c = Some a →
  let σ' := (unsubscribe c σ).2 in
  subscriptions σ' !! c = None
  ∧ (∀ c', c' ≠ c → subscriptions σ' !! c' = subscriptions σ !! c')
  ∧ objects σ' !! a = objects σ !! a
  ∧ σ' = set_subscriptions (delete c (subscriptions σ)) σ.
Proof.
  intros Hc. unfold_M. rewrite Hc. simpl.
  split; [apply lookup_delete_eq|].
  split; [intros c' Hne; by apply lookup_delete_ne|done].
Qed.

Lemma unsubscribe_frame_witness :
  let σ' := (unsubscribe "x" one_listener).2 in
  subscriptions σ' !! "x" = None
  ∧ (∀ c', c' ≠ "x" → subscriptions σ' !! c' = subscriptions one_listener !! c')
  ∧ objects σ' !! 0 = objects one_listener !! 0
  ∧ σ' = set_subscriptions (delete "x" (subscriptions one_listener)) one_listener.
Proof.
  apply (unsubscribe_frame "x" 0 one_listener). vm_compute. reflexivity.
Defined.

(** ** subscribe *)

(** C4. When the channel has no relay and the source cannot open the
    upstream subscription, [subscribe] raises to its caller; the
    registry and the tasks are as before, every object that existed is
    unchanged, and no object has the listener in its set unless it had
    it before. *)
Theorem subscribe_open_failure (l : listener) (c : string) (σ : State) :
  subscriptions σ !! c = None →
  Source.up (source σ) = false →
  let r := (subscribe l c σ).1 in
  let σ' := (subscribe l c σ).2 in
  (∃ e, r = Raise e ∧ (redis σ = true → e = SourceUnavailable))
  ∧ subscriptions σ' = subscriptions σ
  ∧ tasks σ' = tasks σ
  ∧ source σ' = source σ
  ∧ (∀ a s, objects σ !! a = Some s → objects σ' !! a = Some s)
  ∧ (∀ a s, objects σ' !! a = Some s → l ∈ listeners s →
       objects σ !! a = Some s).
Proof.
  intros Hc Hup. unfold_M. rewrite Hc. simpl.
  rewrite lookup_insert_eq. simpl.
  assert (Hframe : ∀ a s, objects σ !! a = Some s →
    <[fresh (dom (objects σ)) :=
        {| name := c; listeners := ∅; channel := None |}]> (objects σ) !! a
    = Some s).
  { intros a s Ha. rewrite lookup_insert_ne; [done|].
    by eapply fresh_object_ne. }
  assert (Hnew : ∀ a s,
    <[fresh (dom (objects σ)) :=
        {| name := c; listeners := ∅; channel := None |}]> (objects σ) !! a
    = Some s → l ∈ listeners s → objects σ !! a = Some s).
  { intros a s Ha Hl. rewrite lookup_insert in Ha. case_decide; [|done].
    simplify_eq. simpl in Hl. set_solver. }
  destruct (redis σ) eqn:Hr; simpl.
  - rewrite lookup_insert_eq. simpl. unfold Source.open. rewrite Hup. simpl.
    split; [by exists SourceUnavailable|]. done.
  - split; [exists AttributeError; split; [done|intros; discriminate]|]. done.
Qed.

Lemma subscribe_open_failure_witness :
  let r := (subscribe 1 "x" source_lost).1 in
  let σ' := (subscribe 1 "x" source_lost).2 in
  (∃ e, r = Raise e ∧ (redis source_lost = true → e = SourceUnavailable))
  ∧ subscriptions σ' = subscriptions source_lost
  ∧ tasks σ' = tasks source_lost
  ∧ source σ' = source source_lost
  ∧ (∀ a s, objects source_lost !! a = Some s → objects σ' !! a = Some s)
  ∧ (∀ a s, objects σ' !! a = Some s → 1 ∈ listeners s →
       objects source_lost !! a = Some s).
Proof.
  apply (subscribe_open_failure 1 "x" source_lost); reflexivity.
Defined.

(** ** Key consistency of the registry *)

Lemma names_kept_refl σ : names_kept σ σ.
Proof. by intros c a. Qed.

Lemma names_kept_trans σ1 σ2 σ3 :
  names_kept σ1 σ2 → names_kept σ2 σ3 → names_kept σ1 σ3.
Proof. intros H12 H23 c a H. by apply H23, H12. Qed.

Lemma names_kept_same_objects σ σ' :
  objects σ' = objects σ → names_kept σ σ'.
Proof. intros E c a (s & Ha & Hn). exists s. by rewrite E. Qed.

Lemma names_kept_store σ a s :
  (∀ s0, objects σ !! a = Some s0 → name s0 = name s) →
  names_kept σ (set_objects (<[a := s]> (objects σ)) σ).
Proof.
  intros Hsame c b (s0 & Hb & Hn). unfold named. simpl.
  destruct (decide (a = b)) as [->|Hne].
  - exists s. rewrite lookup_insert_eq. split; [done|].
    rewrite <- Hn. symmetry. by apply Hsame.
  - exists s0. by rewrite lookup_insert_ne.
Qed.

Lemma names_kept_alloc σ s :
  names_kept σ (set_objects (<[fresh (dom (objects σ)) := s]> (objects σ)) σ).
Proof.
  apply names_kept_store. intros s0 H. by rewrite fresh_object_None in H.
Qed.

Create HintDb names.
#[local] Hint Resolve names_kept_refl names_kept_same_objects
  names_kept_store names_kept_alloc : names.

Lemma add_listener_names a l σ : names_kept σ (add_listener a l σ).2.
Proof.
  unfold_M. destruct (objects σ !! a) as [s|] eqn:Ha; simpl; auto with names.
  apply names_kept_store. intros s0 Hs0. by simplify_eq.
Qed.

Lemma sweep_objects m ls closed σ :
  objects (sweep m ls closed σ).2 = objects σ
  ∧ subscriptions (sweep m ls closed σ).2 = subscriptions σ
  ∧ awaiting (sweep m ls closed σ).2 = awaiting σ
  ∧ tasks (sweep m ls closed σ).2 = tasks σ
  ∧ source (sweep m ls closed σ).2 = source σ.
Proof.
  revert closed σ. induction ls as [|l ls IH]; intros closed σ; simpl; [done|].
  destruct (offer m σ l) as [q'|];
    match goal with
    | |- context [sweep m ls ?c ?s] =>
        destruct (IH c s) as (-> & -> & -> & -> & ->)
    end; done.
Qed.

Lemma broadcast_body_names a s m σ :
  objects σ !! a = Some s → names_kept σ (broadcast_body a s m σ).
Proof.
  intros Ha. unfold broadcast_body.
  pose proof (sweep_objects m (elements (listeners s)) []
                (logger DEBUG ("Got message: " +:+ m) σ)) as (Ho & _).
  destruct (sweep _ _ _ _) as [closed σ2]. simpl in Ho.
  destruct (remove_all closed (listeners s)) as [ls'|e].
  - intros c b (s0 & Hb & Hn). unfold named. simpl. rewrite Ho.
    destruct (decide (a = b)) as [->|Hne].
    + rewrite lookup_insert_eq. eexists; split; [done|]. simpl. by simplify_eq.
    + rewrite lookup_insert_ne by done. by exists s0.
  - apply names_kept_same_objects. simpl. by rewrite Ho.
Qed.

Lemma broadcast_step_names a σ : names_kept σ (broadcast_step a σ).
Proof.
  unfold broadcast_step.
  destruct (tasks σ !! a) as [[| | |e]|]; auto with names;
    destruct (objects σ !! a) as [s|] eqn:Ha; auto with names.
  destruct (channel s) as [h|]; auto with names.
  destruct (Source.next h (source σ)) as [|e|m src']; auto with names.
  eapply names_kept_trans; [|apply broadcast_body_names; simpl; done].
  auto with names.
Qed.

Lemma broadcast_step_registry a σ :
  subscriptions (broadcast_step a σ) = subscriptions σ
  ∧ awaiting (broadcast_step a σ) = awaiting σ.
Proof.
  unfold broadcast_step.
  destruct (tasks σ !! a) as [[| | |e]|]; try done;
    destruct (objects σ !! a) as [s|] eqn:Ha; try done.
  destruct (channel s) as [h|]; try done.
  destruct (Source.next h (source σ)) as [|e|m src']; try done.
  unfold broadcast_body.
  pose proof (sweep_objects m (elements (listeners s)) []
    (logger DEBUG ("Got message: " +:+ m) (set_source src' σ)))
    as (_ & Hr & Hw & _).
  destruct (sweep _ _ _ _) as [closed σ2]. simpl in *.
  by destruct (remove_all closed (listeners s)).
Qed.

Lemma key_consistent_kept σ σ' :
  names_kept σ σ' → subscriptions σ' = subscriptions σ →
  key_consistent σ → key_consistent σ'.
Proof. intros Hn Hr Hk c a Hc. rewrite Hr in Hc. by apply Hn, Hk. Qed.

Lemma awaiting_named_kept σ σ' :
  names_kept σ σ' → awaiting σ' ⊆ awaiting σ →
  awaiting_named σ → awaiting_named σ'.
Proof. intros Hn Hw Hk k Hin. by apply Hn, Hk, Hw. Qed.

Lemma subscribe_begin_effect l c σ :
  let r := (subscribe_begin l c σ).1 in
  let σ' := (subscribe_begin l c σ).2 in
  names_kept σ σ'
  ∧ subscriptions σ' = subscriptions σ
  ∧ awaiting σ' = awaiting σ
  ∧ (∀ k, r = Ok (Some k) → named σ' (s_channel k) (s_sub k)).
Proof.
  unfold subscribe_begin, bind, gets, ret. simpl.
  destruct (subscriptions σ !! c) as [a|] eqn:Hc.
  - pose proof (add_listener_names a l σ) as Hn.
    assert (Hfr : subscriptions (add_listener a l σ).2 = subscriptions σ
                  ∧ awaiting (add_listener a l σ).2 = awaiting σ).
    { unfold_M. by destruct (objects σ !! a). }
    destruct (add_listener a l σ) as [[[]|e] σ']; simpl in *;
      (split; [done|]); (split; [tauto|]); (split; [tauto|]); intros k ?;
      discriminate.
  - unfold_M. simpl. rewrite lookup_insert_eq. simpl.
    destruct (redis σ); simpl;
      (split; [apply names_kept_alloc|]); (split; [done|]); (split; [done|]);
      [|intros; discriminate].
    intros k [= <-]. simpl. eexists. simpl. rewrite lookup_insert_eq. done.
Qed.

Lemma subscribe_resume_effect k σ :
  named σ (s_channel k) (s_sub k) →
  let σ' := (subscribe_resume k σ).2 in
  names_kept σ σ'
  ∧ awaiting σ' = awaiting σ
  ∧ (subscriptions σ' = subscriptions σ
     ∨ subscriptions σ' = <[s_channel k := s_sub k]> (subscriptions σ)).
Proof.
  intros (s & Ha & Hn). unfold_M. rewrite Ha. simpl.
  destruct (Source.open (name s) (source σ)) as [[h|e] src'] eqn:Hopen; simpl.
  - rewrite lookup_insert_eq. simpl. split; [|split; [done|by right]].
    intros c' b (s0 & Hb & Hn0). unfold named. simpl.
    rewrite insert_insert_eq. destruct (decide (s_sub k = b)) as [<-|Hne].
    + rewrite lookup_insert_eq. eexists; split; [done|]. simpl. by simplify_eq.
    + rewrite lookup_insert_ne by done. eauto.
  - split; [apply names_kept_refl|]. split; [done|by left].
Qed.

Lemma key_consistent_insert σ σ' c a :
  names_kept σ σ' → named σ c a →
  subscriptions σ' = <[c := a]> (subscriptions σ) →
  key_consistent σ → key_consistent σ'.
Proof.
  intros Hn Ha Hr Hk c' a' Hc'. rewrite Hr, lookup_insert in Hc'.
  case_decide; simplify_eq; [by apply Hn|by apply Hn, Hk].
Qed.

Lemma subscribe_resume_inv k σ :
  named σ (s_channel k) (s_sub k) →
  key_consistent σ → awaiting_named σ →
  key_consistent (subscribe_resume k σ).2
  ∧ awaiting_named (subscribe_resume k σ).2.
Proof.
  intros Hk Hkc Haw.
  destruct (subscribe_resume_effect k σ Hk) as (Hn & Hw & Hr). split.
  - destruct Hr as [Hr|Hr];
      [by eapply key_consistent_kept|by eapply key_consistent_insert].
  - eapply awaiting_named_kept; [done| |done]. by rewrite Hw.
Qed.

Lemma step_invariant (ev : event) (σ : State) :
  key_consistent σ → awaiting_named σ →
  key_consistent (step ev σ).2 ∧ awaiting_named (step ev σ).2.
Proof.
  intros Hkc Haw. destruct ev as [|l|l c|l c|i|c|a|c m|b]; simpl.
  - unfold_M. by destruct (Source.up (source σ)).
  - done.
  - unfold subscribe, bind.
    destruct (subscribe_begin_effect l c σ) as (Hn & Hr & Hw & Hk).
    destruct (subscribe_begin l c σ) as [[[k|]|e] σ1]; simpl in *.
    + apply subscribe_resume_inv; [by apply Hk| |].
      * by eapply key_consistent_kept.
      * eapply awaiting_named_kept; [done| |done]. by rewrite Hw.
    + split; [by eapply key_consistent_kept|].
      eapply awaiting_named_kept; [done| |done]. by rewrite Hw.
    + split; [by eapply key_consistent_kept|].
      eapply awaiting_named_kept; [done| |done]. by rewrite Hw.
  - unfold bind.
    destruct (subscribe_begin_effect l c σ) as (Hn & Hr & Hw & Hk).
    destruct (subscribe_begin l c σ) as [[[k|]|e] σ1]; simpl in *.
    + split; [by eapply key_consistent_kept|].
      intros k' Hin. simpl in Hin. rewrite Hw in Hin.
      apply elem_of_app in Hin as [Hin|Hin%list_elem_of_singleton].
      * by apply Hn, Haw.
      * subst k'. by apply Hk.
    + split; [by eapply key_consistent_kept|].
      eapply awaiting_named_kept; [done| |done]. by rewrite Hw.
    + split; [by eapply key_consistent_kept|].
      eapply awaiting_named_kept; [done| |done]. by rewrite Hw.
  - unfold bind, gets, modify. simpl.
    destruct (awaiting σ !! i) as [k|] eqn:Hi; simpl; [|done].
    apply subscribe_resume_inv.
    + apply Haw. by eapply list_elem_of_lookup_2.
    + done.
    + intros k' Hin. simpl in Hin. apply Haw.
      by eapply list_elem_of_delete_inv.
  - unfold_M. destruct (subscriptions σ !! c) as [a|] eqn:Hc; simpl; [|done].
    split; [|done]. intros c' a' Hc'. simpl in Hc'.
    apply lookup_delete_Some in Hc' as [_ Hc']. by apply Hkc.
  - unfold modify. simpl.
    destruct (broadcast_step_registry a σ) as (Hr & Hw).
    pose proof (broadcast_step_names a σ) as Hn.
    split; [by eapply key_consistent_kept|].
    eapply awaiting_named_kept; [done| |done]. by rewrite Hw.
  - done.
  - done.
Qed.

Lemma init_invariant (src : Source.t) :
  key_consistent (init src) ∧ awaiting_named (init src).
Proof.
  split.
  - intros c a H. simpl in H. by rewrite lookup_empty in H.
  - intros k H. simpl in H. by apply elem_of_nil in H.
Qed.

(** C10. Every operation keeps the registry key-consistent: whenever
    channel [c] maps to a subscription object, that object's [name] is
    [c], after any schedule of calls, relay turns and source events.
    The property is kept together with its counterpart for the
    [subscribe] calls suspended at their [await], which is what makes it
    hold again when such a call resumes and stores its subscription. *)
Theorem key_consistency_preserved (evs : list event) (σ : State) :
  key_consistent σ → awaiting_named σ →
  key_consistent (run evs σ) ∧ awaiting_named (run evs σ).
Proof.
  revert σ. induction evs as [|ev evs IH]; intros σ Hkc Haw; simpl; [done|].
  destruct (step_invariant ev σ Hkc Haw) as (Hkc' & Haw'). by apply IH.
Qed.

Lemma key_consistency_preserved_witness :
  key_consistent (run racing one_listener)
  ∧ awaiting_named (run racing one_listener).
Proof.
  apply (key_consistency_preserved racing one_listener).
  - intros c a H.
    replace (subscriptions one_listener) with ({["x" := 0]} : gmap string nat)
      in H by (vm_compute; reflexivity).
    apply lookup_singleton_Some in H as [<- <-].
    eexists. split; [vm_compute; reflexivity|reflexivity].
  - intros k H. vm_compute in H. by apply elem_of_nil in H.
Defined.

(** ** The relay loop *)

Lemma filter_ext_in {A} (P Q : A → Prop) `{∀ x, Decision (P x)}
    `{∀ x, Decision (Q x)} (l : list A) :
  (∀ x, x ∈ l → P x ↔ Q x) → filter P l = filter Q l.
Proof.
  induction l as [|x l IH]; intros Hext; [done|].
  rewrite !filter_cons.
  rewrite IH by (intros y Hy; apply Hext; by right).
  destruct (decide (P x)) as [HP|HP], (decide (Q x)) as [HQ|HQ]; try done;
    exfalso; apply (Hext x (list_elem_of_here _ _)) in HP || apply HP;
    try done; by apply (Hext x (list_elem_of_here _ _)).
Qed.

Lemma offer_other m σ l q l' :
  l ≠ l' → offer m (set_queues (<[l := q]> (queues σ)) σ) l' = offer m σ l'.
Proof. intros Hne. unfold offer. simpl. by rewrite lookup_insert_ne. Qed.

Lemma offer_logger m σ lv text l :
  offer m (logger lv text σ) l = offer m σ l.
Proof. done. Qed.

(** The sweep visits every listener once, judges each by the queue it
    had before the sweep, and collects exactly those that fail. *)
Lemma sweep_spec m ls :
  NoDup ls → ∀ closed σ,
  (sweep m ls closed σ).1 = closed ++ filter (rejects m σ) ls
  ∧ ∀ l, queues (sweep m ls closed σ).2 !! l
         = if decide (l ∈ ls) then offered m σ l else queues σ !! l.
Proof.
  intros Hnd. induction Hnd as [|l ls Hl Hnd IH]; intros closed σ; simpl.
  { split; [by rewrite app_nil_r|done]. }
  destruct (offer m σ l) as [q'|] eqn:Hoff.
  - destruct (IH closed (set_queues (<[l := q']> (queues σ)) σ)) as (-> & Hq).
    split.
    + rewrite filter_cons_False by (unfold rejects; congruence).
      f_equal. apply filter_ext_in. intros x Hx. unfold rejects.
      rewrite offer_other; [done|]. by intros ->.
    + intros l'. rewrite Hq. simpl.
      destruct (decide (l' = l)) as [->|Hne].
      * rewrite decide_False by done. rewrite decide_True by left.
        unfold offered. rewrite Hoff. by rewrite lookup_insert_eq.
      * destruct (decide (l' ∈ ls)) as [Hin|Hnin].
        -- rewrite decide_True by (by right). unfold offered.
           rewrite offer_other by done. simpl. by rewrite lookup_insert_ne.
        -- rewrite decide_False by (rewrite elem_of_cons; tauto).
           by rewrite lookup_insert_ne.
  - destruct (IH (closed ++ [l])
                (logger WARNING "Message delivery failed. Client disconnection?" σ))
      as (-> & Hq).
    split.
    + rewrite filter_cons_True by done. by rewrite <- app_assoc.
    + intros l'. rewrite Hq. simpl.
      destruct (decide (l' = l)) as [->|Hne].
      * rewrite decide_False by done. rewrite decide_True by left.
        unfold offered. by rewrite Hoff.
      * destruct (decide (l' ∈ ls)) as [Hin|Hnin].
        -- by rewrite decide_True by (by right).
        -- by rewrite decide_False by (rewrite elem_of_cons; tauto).
Qed.

(** Removing distinct members of the set never raises [KeyError]. *)
Lemma remove_all_spec closed :
  NoDup closed → ∀ ls, (∀ l, l ∈ closed → l ∈ ls) →
  remove_all closed ls = Ok (ls ∖ list_to_set closed).
Proof.
  intros Hnd. induction Hnd as [|l closed Hl Hnd IH]; intros ls Hsub; simpl.
  { f_equal. set_solver. }
  rewrite decide_True by (apply Hsub; left).
  rewrite IH.
  - f_equal. set_solver.
  - intros l' Hl'. apply elem_of_difference. split; [apply Hsub; by right|].
    set_solver.
Qed.

Lemma elem_of_kept m σ ls l :
  l ∈ kept m σ ls ↔ l ∈ ls ∧ is_Some (offer m σ l).
Proof.
  unfold kept. rewrite elem_of_difference, elem_of_list_to_set,
    list_elem_of_filter, elem_of_elements. unfold rejects.
  destruct (offer m σ l) as [q|].
  - split; [intros [? _]; split; [done|by eexists]|].
    intros [? _]. split; [done|]. by intros [? _].
  - split; [intros [? Hn]; exfalso; by apply Hn|].
    intros [_ []]. discriminate.
Qed.

(** One iteration of the loop, in closed form. *)
Lemma broadcast_body_spec a s m σ :
  let σ' := broadcast_body a s m σ in
  objects σ' !! a
    = Some {| name := name s; listeners := kept m σ (listeners s);
              channel := channel s |}
  ∧ tasks σ' !! a = Some (loop_test (kept m σ (listeners s)))
  ∧ (∀ l, queues σ' !! l
          = if decide (l ∈ listeners s) then offered m σ l else queues σ !! l)
  ∧ (∀ b, b ≠ a → objects σ' !! b = objects σ !! b ∧ tasks σ' !! b = tasks σ !! b)
  ∧ subscriptions σ' = subscriptions σ
  ∧ source σ' = source σ.
Proof.
  unfold broadcast_body.
  set (σ1 := logger DEBUG ("Got message: " +:+ m) σ).
  pose proof (sweep_spec m (elements (listeners s)) (NoDup_elements _) [] σ1)
    as (Hcl & Hq).
  pose proof (sweep_objects m (elements (listeners s)) [] σ1)
    as (Ho & Hr & _ & Ht & Hs).
  destruct (sweep m (elements (listeners s)) [] σ1) as [closed σ2].
  simpl in *. subst closed.
  rewrite remove_all_spec.
  - simpl. rewrite !lookup_insert_eq. split; [done|]. split; [done|].
    split; [|split; [|done]].
    + intros l. rewrite Hq.
      destruct (decide (l ∈ elements (listeners s))) as [Hin|Hnin];
        [rewrite decide_True by (by apply elem_of_elements)
        |rewrite decide_False by (by rewrite <- elem_of_elements)]; done.
    + intros b Hne. rewrite !lookup_insert_ne by done. by rewrite Ho, Ht.
  - by apply NoDup_filter, NoDup_elements.
  - intros l [_ Hin]%list_elem_of_filter. by apply elem_of_elements.
Qed.

Lemma offer_accepts m σ l q :
  queues σ !! l = Some q →
  Queue.maxsize q = 0 ∨ length (Queue.items q) < Queue.maxsize q →
  offer m σ l
  = Some {| Queue.maxsize := Queue.maxsize q;
            Queue.items := Queue.items q ++ [m] |}.
Proof.
  intros Hq Hroom. unfold offer. rewrite Hq. simpl.
  unfold Queue.put_nowait, Queue.full.
  destruct (Queue.maxsize q =? 0) eqn:E0; [done|].
  apply Nat.eqb_neq in E0.
  destruct (Queue.maxsize q <=? length (Queue.items q)) eqn:E1; [|done].
  apply Nat.leb_le in E1. lia.
Qed.

Lemma offer_full m σ l q :
  queues σ !! l = Some q →
  0 < Queue.maxsize q → Queue.maxsize q ≤ length (Queue.items q) →
  offer m σ l = None.
Proof.
  intros Hq Hpos Hfull. unfold offer. rewrite Hq. simpl.
  unfold Queue.put_nowait, Queue.full.
  destruct (Queue.maxsize q =? 0) eqn:E0; [apply Nat.eqb_eq in E0; lia|].
  destruct (Queue.maxsize q <=? length (Queue.items q)) eqn:E1; [done|].
  apply Nat.leb_gt in E1. lia.
Qed.

Lemma offer_missing m σ l : queues σ !! l = None → offer m σ l = None.
Proof. intros Hq. unfold offer. by rewrite Hq. Qed.

Lemma loop_test_decide (L : gset listener) :
  loop_test L = if decide (L = ∅) then Finished else Waiting.
Proof.
  unfold loop_test. case_decide as HL.
  - subst L. by rewrite size_empty.
  - assert (size L ≠ 0) by (by apply size_non_empty_iff; intros ?%leibniz_equiv).
    destruct (0 <? size L) eqn:E; [done|]. apply Nat.ltb_ge in E. lia.
Qed.

(** C5. A relay turn that pulls message [m] tries every listener of the
    relay.  A listener whose queue has room (it is unbounded, or holds
    fewer items than its bound) has [m] appended to its queue and stays
    in the set; a listener whose queue is full, or that has no queue, is
    left as it was and is out of the set afterwards, which does not keep
    the others from getting [m]; listeners that are not in the set are
    not touched.  The set is changed only after the sweep: the sweep
    itself leaves every object as it was and returns, each once, exactly
    the listeners that are then removed.  No failure leaves the loop: the
    task ends the turn finished if the set is now empty and waiting
    otherwise, never with an exception. *)
Theorem broadcast_delivery (a : addr) (s : Subscription) (h : handle)
    (m : message) (src' : Source.t) (σ : State) :
  tasks σ !! a = Some Waiting →
  objects σ !! a = Some s →
  channel s = Some h →
  Source.next h (source σ) = Source.Got m src' →
  let σ' := broadcast_step a σ in
  let swept := sweep m (elements (listeners s)) []
                 (logger DEBUG ("Got message: " +:+ m) (set_source src' σ)) in
  ∃ s', objects σ' !! a = Some s'
    ∧ name s' = name s ∧ channel s' = channel s
    ∧ (∀ l q, l ∈ listeners s → queues σ !! l = Some q →
         Queue.maxsize q = 0 ∨ length (Queue.items q) < Queue.maxsize q →
         queues σ' !! l
         = Some {| Queue.maxsize := Queue.maxsize q;
                   Queue.items := Queue.items q ++ [m] |}
         ∧ l ∈ listeners s')
    ∧ (∀ l q, l ∈ listeners s → queues σ !! l = Some q →
         0 < Queue.maxsize q → Queue.maxsize q ≤ length (Queue.items q) →
         queues σ' !! l = Some q ∧ l ∉ listeners s')
    ∧ (∀ l, l ∈ listeners s → queues σ !! l = None →
         queues σ' !! l = None ∧ l ∉ listeners s')
    ∧ (∀ l, l ∉ listeners s → queues σ' !! l = queues σ !! l)
    ∧ listeners s' ⊆ listeners s
    ∧ objects swept.2 = objects σ
    ∧ NoDup swept.1
    ∧ (∀ l, l ∈ swept.1 ↔ l ∈ listeners s ∧ l ∉ listeners s')
    ∧ tasks σ' !! a
      = Some (if decide (listeners s' = ∅) then Finished else Waiting).
Proof.
  intros Ht Ho Hch Hnext σ' swept.
  assert (Hσ' : σ' = broadcast_body a s m (set_source src' σ)).
  { subst σ'. unfold broadcast_step. by rewrite Ht, Ho, Hch, Hnext. }
  pose proof (broadcast_body_spec a s m (set_source src' σ))
    as (Hobj & Htask & Hq & _).
  rewrite <- Hσ' in Hobj, Htask, Hq.
  set (σ1 := set_source src' σ) in *.
  exists {| name := name s; listeners := kept m σ1 (listeners s);
            channel := channel s |}.
  split; [done|]. split; [done|]. split; [done|]. simpl.
  split; [|split; [|split; [|split; [|split; [|split; [|split; [|split]]]]]]].
  - intros l q Hl Hql Hroom. rewrite Hq, decide_True by done.
    pose proof (offer_accepts m σ1 l q Hql Hroom) as Hoff.
    unfold offered. rewrite Hoff. split; [done|].
    apply elem_of_kept. split; [done|]. rewrite Hoff. by eexists.
  - intros l q Hl Hql Hpos Hfull. rewrite Hq, decide_True by done.
    pose proof (offer_full m σ1 l q Hql Hpos Hfull) as Hoff.
    unfold offered. rewrite Hoff. split; [done|].
    rewrite elem_of_kept, Hoff. intros [_ [? ?]]. discriminate.
  - intros l Hl Hql. rewrite Hq, decide_True by done.
    pose proof (offer_missing m σ1 l Hql) as Hoff.
    unfold offered. rewrite Hoff. split; [done|].
    rewrite elem_of_kept, Hoff. intros [_ [? ?]]. discriminate.
  - intros l Hl. by rewrite Hq, decide_False.
  - intros l [Hl _]%elem_of_kept. done.
  - subst swept. by destruct (sweep_objects m (elements (listeners s)) []
      (logger DEBUG ("Got message: " +:+ m) σ1)) as (-> & _).
  - subst swept. destruct (sweep_spec m (elements (listeners s))
      (NoDup_elements _) [] (logger DEBUG ("Got message: " +:+ m) σ1))
      as (-> & _).
    simpl. apply NoDup_filter, NoDup_elements.
  - intros l. subst swept. destruct (sweep_spec m (elements (listeners s))
      (NoDup_elements _) [] (logger DEBUG ("Got message: " +:+ m) σ1))
      as (-> & _).
    simpl. rewrite list_elem_of_filter, elem_of_elements, elem_of_kept.
    unfold rejects.
    change (offer m (logger DEBUG ("Got message: " +:+ m) σ1) l)
      with (offer m σ1 l).
    destruct (offer m σ1 l) as [q'|]; split.
    + intros [? _]. discriminate.
    + intros [Hl Hn]. exfalso. apply Hn. split; [done|by eexists].
    + intros [_ Hl]. split; [done|]. intros [_ [? ?]]. discriminate.
    + intros [Hl _]. done.
  - by rewrite Htask, loop_test_decide.
Qed.

Lemma broadcast_delivery_witness :
  let s := {| name := "x"; listeners := {[1; 2; 3]}; channel := Some 0 |} in
  let σ' := broadcast_step 0 crowded in
  let swept := sweep "a" (elements (listeners s)) []
                 (logger DEBUG ("Got message: " +:+ "a")
                    (set_source {| Source.up := true;
                                   Source.feeds := {[0 := ("x", [])]} |} crowded)) in
  tasks crowded !! 0 = Some Waiting
  ∧ Source.next 0 (source crowded)
    = Source.Got "a" {| Source.up := true; Source.feeds := {[0 := ("x", [])]} |}
  ∧ ∃ s', objects σ' !! 0 = Some s'
    ∧ name s' = name s ∧ channel s' = channel s
    ∧ (∀ l q, l ∈ listeners s → queues crowded !! l = Some q →
         Queue.maxsize q = 0 ∨ length (Queue.items q) < Queue.maxsize q →
         queues σ' !! l
         = Some {| Queue.maxsize := Queue.maxsize q;
                   Queue.items := Queue.items q ++ ["a"] |}
         ∧ l ∈ listeners s')
    ∧ (∀ l q, l ∈ listeners s → queues crowded !! l = Some q →
         0 < Queue.maxsize q → Queue.maxsize q ≤ length (Queue.items q) →
         queues σ' !! l = Some q ∧ l ∉ listeners s')
    ∧ (∀ l, l ∈ listeners s → queues crowded !! l = None →
         queues σ' !! l = None ∧ l ∉ listeners s')
    ∧ (∀ l, l ∉ listeners s → queues σ' !! l = queues crowded !! l)
    ∧ listeners s' ⊆ listeners s
    ∧ objects swept.2 = objects crowded
    ∧ NoDup swept.1
    ∧ (∀ l, l ∈ swept.1 ↔ l ∈ listeners s ∧ l ∉ listeners s')
    ∧ tasks σ' !! 0
      = Some (if decide (listeners s' = ∅) then Finished else Waiting).
Proof.
  split; [vm_compute; reflexivity|]. split; [vm_compute; reflexivity|].
  apply (broadcast_delivery 0
           {| name := "x"; listeners := {[1; 2; 3]}; channel := Some 0 |} 0 "a"
           {| Source.up := true; Source.feeds := {[0 := ("x", [])]} |} crowded);
    vm_compute; reflexivity.
Defined.

(** ** subscribe, case by case *)

Lemma subscribe_existing l c a s σ :
  subscriptions σ !! c = Some a → objects σ !! a = Some s →
  subscribe l c σ
  = (Ok tt,
     set_objects
       (<[a := {| name := name s; listeners := {[l]} ∪ listeners s;
                  channel := channel s |}]> (objects σ)) σ).
Proof. intros Hc Ha. unfold_M. rewrite Hc. simpl. by rewrite Ha. Qed.

Lemma subscribe_fresh l c σ :
  subscriptions σ !! c = None → redis σ = true →
  Source.up (source σ) = true →
  let a := fresh (dom (objects σ)) in
  let h := fresh (dom (Source.feeds (source σ))) in
  subscribe l c σ
  = (Ok tt,
     {| redis := redis σ;
        subscriptions := <[c := a]> (subscriptions σ);
        objects := <[a := {| name := c; listeners := {[l]};
                             channel := Some h |}]> (objects σ);
        tasks := <[a := Scheduled]> (tasks σ);
        queues := queues σ;
        awaiting := awaiting σ;
        source := {| Source.up := true;
                     Source.feeds := <[h := (c, [])]> (Source.feeds (source σ)) |};
        log := log σ |}).
Proof.
  intros Hc Hr Hup a h. unfold_M. rewrite Hc. simpl.
  rewrite lookup_insert_eq. simpl. rewrite Hr. simpl.
  rewrite lookup_insert_eq. simpl. unfold Source.open. rewrite Hup. simpl.
  rewrite lookup_insert_eq. simpl. unfold set_task, set_tasks. simpl.
  rewrite !insert_insert_eq. rewrite Hr.
  by rewrite (right_id_L ∅ (∪)).
Qed.

Lemma subscribe_cannot_open l c σ :
  subscriptions σ !! c = None →
  redis σ = false ∨ Source.up (source σ) = false →
  ∃ e, (subscribe l c σ).1 = Raise e.
Proof.
  intros Hc Hbad. unfold_M. rewrite Hc. simpl.
  rewrite lookup_insert_eq. simpl.
  destruct (redis σ); simpl; [|by eexists].
  destruct Hbad as [?|Hup]; [done|].
  rewrite lookup_insert_eq. simpl. unfold Source.open. rewrite Hup. simpl.
  by eexists.
Qed.

(** A call that returns leaves the listener registered in the relay the
    registry holds for the channel. *)
Lemma subscribe_registered l c σ :
  (subscribe l c σ).1 = Ok tt →
  ∃ a s, subscriptions (subscribe l c σ).2 !! c = Some a
         ∧ objects (subscribe l c σ).2 !! a = Some s
         ∧ l ∈ listeners s.
Proof.
  intros Hok.
  destruct (subscriptions σ !! c) as [a|] eqn:Hc.
  - destruct (objects σ !! a) as [s|] eqn:Ha.
    + rewrite (subscribe_existing l c a s σ Hc Ha). simpl.
      exists a. eexists. rewrite lookup_insert_eq. split; [done|].
      split; [done|]. simpl. set_solver.
    + exfalso. revert Hok. unfold_M. rewrite Hc. simpl. by rewrite Ha.
  - destruct (redis σ) eqn:Hr, (Source.up (source σ)) eqn:Hup;
      try (destruct (subscribe_cannot_open l c σ Hc) as [e He];
           [auto; fail|congruence]).
    rewrite (subscribe_fresh l c σ Hc Hr Hup). simpl.
    eexists. eexists. rewrite !lookup_insert_eq. split; [done|].
    split; [done|]. simpl. set_solver.
Qed.

Lemma set_objects_id σ : set_objects (objects σ) σ = σ.
Proof. by destruct σ. Qed.

(** In one relay turn a queue takes at most the one message pulled. *)
Lemma broadcast_step_received a l σ :
  received l (broadcast_step a σ) = received l σ
  ∨ ∃ s h m src', objects σ !! a = Some s ∧ channel s = Some h
      ∧ Source.next h (source σ) = Source.Got m src' ∧ l ∈ listeners s
      ∧ received l (broadcast_step a σ) = received l σ ++ [m].
Proof.
  unfold broadcast_step.
  destruct (tasks σ !! a) as [[| | |e]|]; auto;
    destruct (objects σ !! a) as [s|] eqn:Ha; auto.
  destruct (channel s) as [h|] eqn:Hch; auto.
  destruct (Source.next h (source σ)) as [|e|m src'] eqn:Hnext; auto.
  pose proof (broadcast_body_spec a s m (set_source src' σ))
    as (_ & _ & Hq & _).
  unfold received. rewrite Hq.
  destruct (decide (l ∈ listeners s)) as [Hin|]; [|by left].
  unfold offered, offer. simpl.
  destruct (queues σ !! l) as [q|] eqn:Hl; simpl; [|by left].
  unfold Queue.put_nowait. destruct (Queue.full q); simpl; [by left|].
  right. by exists s, h, m, src'.
Qed.

(** C7. A second [subscribe] by the same listener on the same channel
    changes nothing: it returns and leaves the whole state, hence the
    relay's listener set, exactly as the first call left it; the listener
    is in that set once, so a relay turn puts the message it pulled in
    the listener's queue at most once. *)
Theorem subscribe_twice (l : listener) (c : string) (σ : State) :
  (subscribe l c σ).1 = Ok tt →
  let σ1 := (subscribe l c σ).2 in
  let σ2 := (subscribe l c σ1).2 in
  subscribe l c σ1 = (Ok tt, σ1)
  ∧ relay_listeners c σ2 = relay_listeners c σ1
  ∧ (∃ ls, relay_listeners c σ2 = Some ls ∧ l ∈ ls)
  ∧ ∀ a, received l (broadcast_step a σ2) = received l σ2
         ∨ ∃ m, received l (broadcast_step a σ2) = received l σ2 ++ [m].
Proof.
  intros Hok σ1 σ2.
  destruct (subscribe_registered l c σ Hok) as (a & s & Hc & Ha & Hl).
  fold σ1 in Hc, Ha.
  assert (Hidem : subscribe l c σ1 = (Ok tt, σ1)).
  { rewrite (subscribe_existing l c a s σ1 Hc Ha). f_equal.
    replace ({[l]} ∪ listeners s) with (listeners s) by set_solver.
    replace {| name := name s; listeners := listeners s; channel := channel s |}
      with s by (by destruct s).
    rewrite insert_id by done. apply set_objects_id. }
  assert (Hσ2 : σ2 = σ1) by (subst σ2; by rewrite Hidem).
  split; [done|]. split; [by rewrite Hσ2|]. split.
  - exists (listeners s). rewrite Hσ2. unfold relay_listeners.
    rewrite Hc. simpl. rewrite Ha. done.
  - intros b. destruct (broadcast_step_received b l σ2)
      as [?|(_ & _ & m & _ & _ & _ & _ & _ & ?)]; [by left|right; by exists m].
Qed.

Lemma subscribe_twice_witness :
  (subscribe 1 "x" one_listener).1 = Ok tt
  ∧ let σ1 := (subscribe 1 "x" one_listener).2 in
    let σ2 := (subscribe 1 "x" σ1).2 in
    subscribe 1 "x" σ1 = (Ok tt, σ1)
    ∧ relay_listeners "x" σ2 = relay_listeners "x" σ1
    ∧ (∃ ls, relay_listeners "x" σ2 = Some ls ∧ 1 ∈ ls)
    ∧ ∀ a, received 1 (broadcast_step a σ2) = received 1 σ2
           ∨ ∃ m, received 1 (broadcast_step a σ2) = received 1 σ2 ++ [m].
Proof.
  split; [vm_compute; reflexivity|].
  apply (subscribe_twice 1 "x" one_listener). vm_compute. reflexivity.
Defined.

(** ** Fan-out to the listeners of one channel *)

Lemma flowing_join c a h L l σ :
  subscriptions σ !! c = Some a →
  flowing c a h L Scheduled [] [] σ →
  subscriptions (run [Accept l; Subscribe l c] σ) !! c = Some a
  ∧ flowing c a h ({[l]} ∪ L) Scheduled [] [] (run [Accept l; Subscribe l c] σ).
Proof.
  intros Hc (Ho & Ht & Hup & Hf & Hq). simpl. unfold SSEHandler_initialize, modify.
  simpl.
  rewrite (subscribe_existing l c a
             {| name := c; listeners := L; channel := Some h |}) by done.
  simpl. split; [done|]. unfold flowing. simpl. rewrite lookup_insert_eq.
  split; [done|]. split; [done|]. split; [done|].
  split; [done|]. intros l' Hl'.
  destruct (decide (l' = l)) as [->|Hne].
  - rewrite lookup_insert_eq. by exists Queue.new.
  - rewrite lookup_insert_ne by done. apply Hq. set_solver.
Qed.

Lemma flowing_first c l σ :
  subscriptions σ !! c = None → redis σ = true →
  Source.up (source σ) = true →
  let a := fresh (dom (objects σ)) in
  let h := fresh (dom (Source.feeds (source σ))) in
  subscriptions (run [Accept l; Subscribe l c] σ) !! c = Some a
  ∧ flowing c a h {[l]} Scheduled [] [] (run [Accept l; Subscribe l c] σ).
Proof.
  intros Hc Hr Hup a h. simpl. unfold SSEHandler_initialize, modify. simpl.
  rewrite subscribe_fresh by done. unfold flowing. simpl.
  rewrite !lookup_insert_eq.
  split; [done|]. split; [done|]. split; [done|]. split; [done|].
  split; [done|].
  intros l' Hl'. apply elem_of_singleton in Hl' as ->. exists Queue.new.
  by rewrite lookup_insert_eq.
Qed.

Lemma run_app evs1 evs2 σ : run (evs1 ++ evs2) σ = run evs2 (run evs1 σ).
Proof. revert σ. induction evs1 as [|ev evs1 IH]; intros σ; simpl; auto. Qed.

Lemma loop_test_inhabited (L : gset listener) l :
  l ∈ L → loop_test L = Waiting.
Proof.
  intros Hl. unfold loop_test.
  assert (size L ≠ 0) by (apply size_non_empty_iff; set_solver).
  destruct (0 <? size L) eqn:E; [done|]. apply Nat.ltb_ge in E. lia.
Qed.


(** ** Relays that the registry no longer holds, or that have ended *)

(** After [unsubscribe], a [subscribe] that can reach the source builds
    a new relay: a new object, scheduled, with the caller as its only
    listener and a new feed; the old object is as it was. *)
Lemma resubscribe_fresh c a s l σ :
  subscriptions σ !! c = Some a → objects σ !! a = Some s →
  redis σ = true → Source.up (source σ) = true →
  let σ1 := (unsubscribe c σ).2 in
  let σ2 := (subscribe l c σ1).2 in
  let a' := fresh (dom (objects σ)) in
  let h' := fresh (dom (Source.feeds (source σ))) in
  (subscribe l c σ1).1 = Ok tt
  ∧ a' ≠ a
  ∧ subscriptions σ2 !! c = Some a'
  ∧ objects σ2 !! a'
    = Some {| name := c; listeners := {[l]}; channel := Some h' |}
  ∧ tasks σ2 !! a' = Some Scheduled
  ∧ Source.feeds (source σ) !! h' = None
  ∧ Source.feeds (source σ2) !! h' = Some (c, [])
  ∧ objects σ2 !! a = Some s
  ∧ tasks σ2 !! a = tasks σ !! a.
Proof.
  intros Hc Ha Hr Hup σ1 σ2 a' h'.
  assert (Hσ1 : σ1 = set_subscriptions (delete c (subscriptions σ)) σ).
  { subst σ1. unfold_M. by rewrite Hc. }
  assert (Hne : a' ≠ a) by (by eapply fresh_object_ne).
  pose proof (subscribe_fresh l c σ1) as Hfresh.
  rewrite Hσ1 in Hfresh. simpl in Hfresh.
  specialize (Hfresh (lookup_delete_eq _ _) Hr Hup).
  subst σ2. rewrite Hσ1, Hfresh. simpl. rewrite !lookup_insert_eq.
  rewrite !lookup_insert_ne by done.
  split; [done|]. split; [done|]. split; [done|]. split; [done|].
  split; [done|]. split; [|done]. apply not_elem_of_dom, is_fresh.
Qed.

(** C1 (as the code has it).  [unsubscribe] takes a channel and no
    listener.  For a channel with a relay it removes the registry entry
    whether or not the relay still has listeners, and touches nothing
    else: the relay object keeps its listener set, its task and its feed.
    A later [subscribe] that reaches the source does not reuse the
    removed relay: it creates a new object with the caller as only
    listener, schedules its loop and opens a feed for it. *)
Theorem unsubscribe_drops_entry (c : string) (a : addr) (s : Subscription)
    (l : listener) (σ : State) :
  subscriptions σ !! c = Some a →
  objects σ !! a = Some s →
  redis σ = true →
  Source.up (source σ) = true →
  let σ1 := (unsubscribe c σ).2 in
  let σ2 := (subscribe l c σ1).2 in
  (unsubscribe c σ).1 = Ok tt
  ∧ subscriptions σ1 !! c = None
  ∧ objects σ1 = objects σ
  ∧ tasks σ1 = tasks σ
  ∧ source σ1 = source σ
  ∧ (subscribe l c σ1).1 = Ok tt
  ∧ ∃ a' h', a' ≠ a
      ∧ subscriptions σ2 !! c = Some a'
      ∧ objects σ2 !! a'
        = Some {| name := c; listeners := {[l]}; channel := Some h' |}
      ∧ tasks σ2 !! a' = Some Scheduled
      ∧ Source.feeds (source σ1) !! h' = None
      ∧ Source.feeds (source σ2) !! h' = Some (c, [])
      ∧ objects σ2 !! a = Some s.
Proof.
  intros Hc Ha Hr Hup σ1 σ2.
  destruct (resubscribe_fresh c a s l σ Hc Ha Hr Hup)
    as (Hok & Hne & Hc2 & Ha2 & Ht2 & Hf1 & Hf2 & Hold & _).
  assert (Hσ1 : (unsubscribe c σ)
                = (Ok tt, set_subscriptions (delete c (subscriptions σ)) σ)).
  { unfold_M. by rewrite Hc. }
  subst σ1 σ2. rewrite Hσ1 in *. simpl in *.
  split; [done|]. split; [apply lookup_delete_eq|]. split; [done|].
  split; [done|]. split; [done|]. split; [done|].
  eexists _, _. by repeat split.
Qed.

Lemma unsubscribe_drops_entry_witness :
  let s := {| name := "x"; listeners := {[1]}; channel := Some 0 |} in
  let σ1 := (unsubscribe "x" one_waiting).2 in
  let σ2 := (subscribe 2 "x" σ1).2 in
  objects one_waiting !! 0 = Some s
  ∧ (unsubscribe "x" one_waiting).1 = Ok tt
  ∧ subscriptions σ1 !! "x" = None
  ∧ objects σ1 = objects one_waiting
  ∧ tasks σ1 = tasks one_waiting
  ∧ source σ1 = source one_waiting
  ∧ (subscribe 2 "x" σ1).1 = Ok tt
  ∧ ∃ a' h', a' ≠ 0
      ∧ subscriptions σ2 !! "x" = Some a'
      ∧ objects σ2 !! a'
        = Some {| name := "x"; listeners := {[2]}; channel := Some h' |}
      ∧ tasks σ2 !! a' = Some Scheduled
      ∧ Source.feeds (source σ1) !! h' = None
      ∧ Source.feeds (source σ2) !! h' = Some ("x", [])
      ∧ objects σ2 !! 0 = Some s.
Proof.
  split; [vm_compute; reflexivity|].
  apply (unsubscribe_drops_entry "x" 0
           {| name := "x"; listeners := {[1]}; channel := Some 0 |} 2 one_waiting);
    vm_compute; reflexivity.
Defined.

(** C1, as stated, fails: after [unsubscribe] the listener is still in
    the relay's set, the relay loop still waits, its feed is still open,
    and the next message still reaches the listener, although the
    registry entry is gone while the set is not empty. *)
Lemma unsubscribe_keeps_listener :
  let σ' := (unsubscribe "x" one_waiting).2 in
  (listeners <$> objects one_waiting !! 0) = Some {[1]}
  ∧ (listeners <$> objects σ' !! 0) = Some {[1]}
  ∧ subscriptions σ' !! "x" = None
  ∧ tasks σ' !! 0 = Some Waiting
  ∧ Source.active "x" (source σ') = {[0]}
  ∧ received 1 (run [Publish "x" "late"; Relay 0] σ') = ["late"].
Proof. vm_compute. by repeat split. Qed.

(** C3 (as the code has it).  No relay turn changes the registry, so the
    entry of a relay whose loop has ended stays where it is and the ended
    task never runs again.  A later [subscribe] for the channel finds the
    entry and adds the listener to the ended relay: no object is created,
    no task is scheduled, no feed is opened.  Only once [unsubscribe] has
    removed the entry does [subscribe] create and schedule a new relay. *)
Theorem ended_relay_stays_registered (c : string) (a : addr)
    (s : Subscription) (l : listener) (σ : State) :
  subscriptions σ !! c = Some a →
  objects σ !! a = Some s →
  ended a σ →
  redis σ = true →
  Source.up (source σ) = true →
  let σ' := (subscribe l c σ).2 in
  let σ2 := (subscribe l c (unsubscribe c σ).2).2 in
  (∀ b, subscriptions (broadcast_step b σ) = subscriptions σ)
  ∧ broadcast_step a σ = σ
  ∧ (subscribe l c σ).1 = Ok tt
  ∧ subscriptions σ' !! c = Some a
  ∧ (listeners <$> objects σ' !! a) = Some ({[l]} ∪ listeners s)
  ∧ dom (objects σ') = dom (objects σ)
  ∧ tasks σ' = tasks σ
  ∧ source σ' = source σ
  ∧ ended a σ'
  ∧ ∃ a', a' ≠ a
      ∧ subscriptions σ2 !! c = Some a'
      ∧ (listeners <$> objects σ2 !! a') = Some {[l]}
      ∧ tasks σ2 !! a' = Some Scheduled.
Proof.
  intros Hc Ha Hend Hr Hup σ' σ2.
  split; [intros b; apply broadcast_step_registry|].
  split.
  { unfold broadcast_step.
    by destruct Hend as [-> | [e ->]]. }
  subst σ'. rewrite (subscribe_existing l c a s σ Hc Ha). simpl.
  split; [done|]. split; [done|]. rewrite lookup_insert_eq.
  split; [done|]. split.
  { rewrite dom_insert_L. apply (elem_of_dom_2 (objects σ)) in Ha. set_solver. }
  split; [done|]. split; [done|]. split; [done|].
  destruct (resubscribe_fresh c a s l σ Hc Ha Hr Hup)
    as (_ & Hne & Hc2 & Ha2 & Ht2 & _).
  eexists. split; [done|]. split; [done|]. split; [|done].
  subst σ2. by rewrite Ha2.
Qed.

Lemma ended_relay_stays_registered_witness :
  let s := {| name := "x"; listeners := {[1]}; channel := Some 0 |} in
  let σ' := (subscribe 2 "x" source_dropped).2 in
  let σ2 := (subscribe 2 "x" (unsubscribe "x" source_dropped).2).2 in
  ended 0 source_dropped
  ∧ (∀ b, subscriptions (broadcast_step b source_dropped)
          = subscriptions source_dropped)
  ∧ broadcast_step 0 source_dropped = source_dropped
  ∧ (subscribe 2 "x" source_dropped).1 = Ok tt
  ∧ subscriptions σ' !! "x" = Some 0
  ∧ (listeners <$> objects σ' !! 0) = Some ({[2]} ∪ listeners s)
  ∧ dom (objects σ') = dom (objects source_dropped)
  ∧ tasks σ' = tasks source_dropped
  ∧ source σ' = source source_dropped
  ∧ ended 0 σ'
  ∧ ∃ a', a' ≠ 0
      ∧ subscriptions σ2 !! "x" = Some a'
      ∧ (listeners <$> objects σ2 !! a') = Some {[2]}
      ∧ tasks σ2 !! a' = Some Scheduled.
Proof.
  assert (Hend : ended 0 source_dropped).
  { right. exists SourceClosed. vm_compute. reflexivity. }
  split; [exact Hend|].
  apply (ended_relay_stays_registered "x" 0
           {| name := "x"; listeners := {[1]}; channel := Some 0 |} 2
           source_dropped); [vm_compute; reflexivity..|exact Hend| |];
    vm_compute; reflexivity.
Defined.

(** C3, as stated, fails on both ways a relay loop ends: the registry
    keeps the entry of the ended relay, the next [subscribe] puts the
    listener into it and starts nothing, and a message published
    afterwards never reaches that listener. *)
Lemma dead_relay_blocks_channel :
  (let σ' := run [Accept 2; Subscribe 2 "x"] source_dropped in
   tasks source_dropped !! 0 = Some (Crashed SourceClosed)
   ∧ subscriptions source_dropped !! "x" = Some 0
   ∧ subscriptions σ' !! "x" = Some 0
   ∧ (listeners <$> objects σ' !! 0) = Some {[1; 2]}
   ∧ tasks σ' = tasks source_dropped
   ∧ received 2 (run [Publish "x" "m"; Relay 0; Relay 0] σ') = [])
  ∧ (let σ' := run [Accept 2; Subscribe 2 "x"] all_evicted in
     tasks all_evicted !! 0 = Some Finished
     ∧ (listeners <$> objects all_evicted !! 0) = Some ∅
     ∧ subscriptions all_evicted !! "x" = Some 0
     ∧ subscriptions σ' !! "x" = Some 0
     ∧ (listeners <$> objects σ' !! 0) = Some {[2]}
     ∧ tasks σ' = tasks all_evicted
     ∧ received 2 (run [Publish "x" "m"; Relay 0; Relay 0] σ') = []).
Proof. vm_compute. by repeat split. Qed.

(** ** One upstream subscription per channel *)

Lemma elem_of_active h c src :
  h ∈ Source.active c src ↔ ∃ buf, Source.feeds src !! h = Some (c, buf).
Proof.
  unfold Source.active. rewrite elem_of_dom. split.
  - intros [[c' buf] [Hf Hn]%map_lookup_filter_Some]. simpl in Hn. subst c'.
    by exists buf.
  - intros [buf Hf]. exists (c, buf). by apply map_lookup_filter_Some.
Qed.

Lemma size_at_most_one (X : gset handle) :
  (∀ x y, x ∈ X → y ∈ X → x = y) → size X ≤ 1.
Proof.
  intros Hone. destruct (set_choose_or_empty X) as [[x Hx]|HX].
  - assert (X = {[x]}) as ->; [|by rewrite size_singleton].
    apply set_eq. intros y. rewrite elem_of_singleton. split; [|by intros ->].
    intros Hy. by apply Hone.
  - apply size_empty_iff in HX. lia.
Qed.

Lemma held_at_most_one c σ : held σ → size (Source.active c (source σ)) ≤ 1.
Proof.
  intros Hheld. apply size_at_most_one. intros h1 h2.
  intros [buf1 H1]%elem_of_active [buf2 H2]%elem_of_active.
  destruct (Hheld _ _ _ H1) as (a1 & s1 & Hc1 & Ho1 & Hch1).
  destruct (Hheld _ _ _ H2) as (a2 & s2 & Hc2 & Ho2 & Hch2).
  congruence.
Qed.

(** A relay turn keeps every object's [channel] and every feed's name. *)
Lemma broadcast_step_channels b σ :
  (∀ a s, objects σ !! a = Some s →
     ∃ s', objects (broadcast_step b σ) !! a = Some s' ∧ channel s' = channel s)
  ∧ (∀ h c buf, Source.feeds (source (broadcast_step b σ)) !! h = Some (c, buf) →
     ∃ buf0, Source.feeds (source σ) !! h = Some (c, buf0)).
Proof.
  unfold broadcast_step.
  destruct (tasks σ !! b) as [[| | |e]|]; eauto;
    destruct (objects σ !! b) as [sb|] eqn:Hb; eauto.
  destruct (channel sb) as [hb|]; eauto.
  destruct (Source.next hb (source σ)) as [|e|m src'] eqn:Hnext; eauto.
  pose proof (broadcast_body_spec b sb m (set_source src' σ))
    as (Hobj & _ & _ & Hoth & _ & Hsrc).
  simpl in *. split.
  - intros a s Ha. destruct (decide (a = b)) as [->|Hne].
    + rewrite Hobj. eexists. split; [done|]. simpl. congruence.
    + destruct (Hoth a Hne) as [-> _]. eauto.
  - intros h c buf. rewrite Hsrc. unfold Source.next in Hnext.
    destruct (Source.feeds (source σ) !! hb) as [[cb [|m' bufb]]|] eqn:Hf;
      try done; [by destruct (Source.up (source σ))|].
    injection Hnext as <- <-. simpl.
    rewrite lookup_insert. case_decide; [|eauto].
    subst h. intros [= <- <-]. eauto.
Qed.

Lemma subscribe_failed_state l c σ :
  subscriptions σ !! c = None →
  redis σ = false ∨ Source.up (source σ) = false →
  (subscribe l c σ).2
  = set_objects (<[fresh (dom (objects σ)) :=
                    {| name := c; listeners := ∅; channel := None |}]>
                   (objects σ)) σ.
Proof.
  intros Hc Hbad. unfold_M. rewrite Hc. simpl.
  rewrite lookup_insert_eq. simpl.
  destruct (redis σ); simpl; [|done].
  destruct Hbad as [?|Hup]; [done|].
  rewrite lookup_insert_eq. simpl. unfold Source.open. by rewrite Hup.
Qed.

Lemma subscribe_held l c σ : held σ → held (subscribe l c σ).2.
Proof.
  intros Hheld. destruct (subscriptions σ !! c) as [a|] eqn:Hc.
  - destruct (objects σ !! a) as [s|] eqn:Ha.
    + rewrite (subscribe_existing l c a s σ Hc Ha). simpl.
      intros h c0 buf Hf. simpl in *.
      destruct (Hheld _ _ _ Hf) as (a0 & s0 & Hc0 & Ho0 & Hch0).
      destruct (decide (a0 = a)) as [->|Hne].
      * exists a. eexists. rewrite lookup_insert_eq. split; [done|].
        split; [done|]. simpl. congruence.
      * exists a0, s0. by rewrite lookup_insert_ne.
    + replace (subscribe l c σ).2 with σ; [done|].
      unfold_M. rewrite Hc. simpl. by rewrite Ha.
  - assert (Hother : ∀ h c0 buf, Source.feeds (source σ) !! h = Some (c0, buf) →
      ∀ s', ∃ a0 s0, c0 ≠ c ∧ subscriptions σ !! c0 = Some a0
        ∧ <[fresh (dom (objects σ)) := s']> (objects σ) !! a0 = Some s0
        ∧ channel s0 = Some h).
    { intros h c0 buf Hf s'.
      destruct (Hheld _ _ _ Hf) as (a0 & s0 & Hc0 & Ho0 & Hch0).
      exists a0, s0. split; [congruence|]. split; [done|]. split; [|done].
      rewrite lookup_insert_ne; [done|]. by eapply fresh_object_ne. }
    destruct (redis σ) eqn:Hr, (Source.up (source σ)) eqn:Hup;
      try (rewrite subscribe_failed_state by auto; intros h c0 buf Hf;
           destruct (Hother _ _ _ Hf {| name := c; listeners := ∅; channel := None |})
             as (a0 & s0 & _ & ? & ? & ?); by exists a0, s0).
    rewrite (subscribe_fresh l c σ Hc Hr Hup). simpl.
    intros h c0 buf Hf. simpl in *. rewrite lookup_insert in Hf.
    case_decide as Hh.
    + injection Hf as <- <-. subst h. eexists _, _.
      rewrite !lookup_insert_eq. done.
    + destruct (Hother _ _ _ Hf
        {| name := c; listeners := {[l]};
           channel := Some (fresh (dom (Source.feeds (source σ)))) |})
        as (a0 & s0 & Hne & ? & ? & ?).
      exists a0, s0. by rewrite lookup_insert_ne.
Qed.

Lemma step_held ev σ : sequential ev → held σ → held (step ev σ).2.
Proof.
  intros Hev Hheld. destruct ev as [|l|l c|l c|i|c|b|c m|b]; simpl in Hev;
    try done; simpl.
  - unfold_M. by destruct (Source.up (source σ)).
  - by apply subscribe_held.
  - unfold modify. simpl. intros h c buf Hf.
    destruct (broadcast_step_channels b σ) as (Hobj & Hfeeds).
    destruct (broadcast_step_registry b σ) as (Hreg & _).
    destruct (Hfeeds _ _ _ Hf) as (buf0 & Hf0).
    destruct (Hheld _ _ _ Hf0) as (a0 & s0 & Hc0 & Ho0 & Hch0).
    destruct (Hobj _ _ Ho0) as (s' & Ho' & Hch').
    exists a0, s'. rewrite Hreg. split; [done|]. split; [done|]. congruence.
  - unfold modify. simpl. intros h c0 buf Hf. simpl in Hf.
    rewrite lookup_fmap in Hf.
    destruct (Source.feeds (source σ) !! h) as [[c1 buf1]|] eqn:Hf1; [|done].
    simpl in Hf. unfold Source.feed_publish in Hf. simpl in Hf.
    apply (Hheld h c0 buf1). case_decide; simplify_eq; done.
Qed.

Lemma run_sequential evs : ∀ σ,
  Forall sequential evs →
  held σ → key_consistent σ → awaiting_named σ →
  held (run evs σ) ∧ key_consistent (run evs σ).
Proof.
  induction evs as [|ev evs IH]; intros σ Hevs Hheld Hkc Haw; [done|].
  apply Forall_cons in Hevs as [Hev Hevs]. simpl.
  destruct (step_invariant ev σ Hkc Haw) as (Hkc' & Haw').
  apply IH; [done|by apply step_held|done|done].
Qed.

(** C2 (as the code has it).  Over any schedule of complete [subscribe]
    calls, relay turns and source events from a new manager, every
    channel has at most one open upstream subscription.  In such a state
    a [subscribe] for a channel that has a relay leaves the source as it
    is and puts the listener into that relay; only a [subscribe] that
    finds no relay opens a feed, exactly one, on its channel.  (Nothing
    ever closes a feed, so the bound does not extend over
    [unsubscribe].) *)
Theorem one_upstream_per_channel (evs : list event) (src : Source.t)
    (l : listener) (c : string) :
  Source.feeds src = ∅ →
  Forall sequential evs →
  let σ := run evs (init src) in
  let σ' := (subscribe l c σ).2 in
  size (Source.active c (source σ)) ≤ 1
  ∧ size (Source.active c (source σ')) ≤ 1
  ∧ (∀ a, subscriptions σ !! c = Some a →
       source σ' = source σ
       ∧ subscriptions σ' !! c = Some a
       ∧ ∃ ls, relay_listeners c σ' = Some ls ∧ l ∈ ls)
  ∧ (subscriptions σ !! c = None → (subscribe l c σ).1 = Ok tt →
       Source.active c (source σ) = ∅
       ∧ Source.active c (source σ')
         = {[fresh (dom (Source.feeds (source σ)))]}).
Proof.
  intros Hsrc Hevs σ σ'.
  destruct (init_invariant src) as (Hkc0 & Haw0).
  assert (Hheld0 : held (init src)).
  { intros h c0 buf Hf. simpl in Hf. by rewrite Hsrc, lookup_empty in Hf. }
  destruct (run_sequential evs (init src) Hevs Hheld0 Hkc0 Haw0)
    as (Hheld & Hkc).
  fold σ in Hheld, Hkc.
  assert (Hheld' : held σ') by (by apply subscribe_held).
  split; [by apply held_at_most_one|]. split; [by apply held_at_most_one|].
  split.
  - intros a Hc. destruct (Hkc c a Hc) as (s & Ha & Hn).
    subst σ'. rewrite (subscribe_existing l c a s σ Hc Ha). simpl.
    split; [done|]. split; [done|].
    exists ({[l]} ∪ listeners s). unfold relay_listeners. simpl.
    rewrite Hc. simpl. rewrite lookup_insert_eq. split; [done|set_solver].
  - intros Hc Hok.
    assert (Hnone : Source.active c (source σ) = ∅).
    { apply set_eq. intros h. rewrite elem_of_active. split; [|set_solver].
      intros [buf Hf]. destruct (Hheld _ _ _ Hf) as (a & s & Hc' & _).
      congruence. }
    split; [done|].
    destruct (redis σ) eqn:Hr, (Source.up (source σ)) eqn:Hup;
      try (destruct (subscribe_cannot_open l c σ Hc) as [e He];
           [auto; fail|congruence]).
    subst σ'. rewrite (subscribe_fresh l c σ Hc Hr Hup). simpl.
    apply set_eq. intros h. rewrite elem_of_active, elem_of_singleton. simpl.
    split.
    + intros [buf Hf]. rewrite lookup_insert in Hf. case_decide; [done|].
      exfalso. assert (h ∈ Source.active c (source σ)) as Hin
        by (apply elem_of_active; eauto).
      rewrite Hnone in Hin. set_solver.
    + intros ->. exists []. by rewrite lookup_insert_eq.
Qed.

Lemma one_upstream_per_channel_witness :
  let σ := run two_channels (init source_up) in
  let σ' := (subscribe 3 "x" σ).2 in
  Forall sequential two_channels
  ∧ size (Source.active "x" (source σ)) ≤ 1
  ∧ size (Source.active "x" (source σ')) ≤ 1
  ∧ (∀ a, subscriptions σ !! "x" = Some a →
       source σ' = source σ
       ∧ subscriptions σ' !! "x" = Some a
       ∧ ∃ ls, relay_listeners "x" σ' = Some ls ∧ 3 ∈ ls)
  ∧ (subscriptions σ !! "x" = None → (subscribe 3 "x" σ).1 = Ok tt →
       Source.active "x" (source σ) = ∅
       ∧ Source.active "x" (source σ')
         = {[fresh (dom (Source.feeds (source σ)))]}).
Proof.
  assert (Hseq : Forall sequential two_channels) by (repeat constructor).
  split; [exact Hseq|].
  apply (one_upstream_per_channel two_channels source_up 3 "x");
    [reflexivity|exact Hseq].
Defined.

(** C2, as stated, fails over [unsubscribe]: the feed of the removed
    relay stays open and its loop stays alive, so the next [subscribe]
    leaves two upstream subscriptions on the channel, and a message
    published once reaches the listener twice. *)
Lemma second_upstream_after_unsubscribe :
  let σ := run [Connect; Accept 1; Subscribe 1 "x"; Relay 0; Unsubscribe "x";
                Subscribe 1 "x"; Relay 1] (init source_up) in
  size (Source.active "x" (source σ)) = 2
  ∧ tasks σ !! 0 = Some Waiting
  ∧ tasks σ !! 1 = Some Waiting
  ∧ received 1 (run [Publish "x" "m"; Relay 0; Relay 1] σ) = ["m"; "m"].
Proof. vm_compute. by repeat split. Qed.

(** The check and the creation in [subscribe] are separated by an
    [await]: two calls for a new channel that both reach it before either
    resumes each open a feed and each schedule a relay, and the registry
    keeps only the relay stored last. *)
Remark interleaved_subscribes_open_twice :
  let σ := run [Connect; Accept 1; Accept 2; SubscribeBegin 1 "x";
                SubscribeBegin 2 "x"; SubscribeResume 0; SubscribeResume 0]
             (init source_up) in
  size (Source.active "x" (source σ)) = 2
  ∧ subscriptions σ !! "x" = Some 1
  ∧ tasks σ !! 0 = Some Scheduled
  ∧ tasks σ !! 1 = Some Scheduled
  ∧ (listeners <$> objects σ !! 0) = Some {[1]}
  ∧ (listeners <$> objects σ !! 1) = Some {[2]}.
Proof. vm_compute. by repeat split. Qed.

(** ** Connection: the cached client *)

(** X1. Once a call of [Connection.redis] has returned a client, every
    later call without [force_reconnect] returns that same client and
    changes nothing, whatever the options or the state of the backend
    are by then: no new client is created and the call cannot fail. *)
Theorem Connection_redis_cached (force : bool) (opts opts' : Options)
    (src src' : Source.t) (k : Connection.t) (r : Connection.client) :
  (Connection.redis force opts src k).1 = Ok r →
  let k1 := (Connection.redis force opts src k).2 in
  Connection._redis k1 = Some r
  ∧ Connection.redis false opts' src' k1 = (Ok r, k1).
Proof.
  unfold Connection.redis, Connection.create_redis.
  destruct (Connection._redis k) as [r0|] eqn:Hk, force,
    (Source.up src) eqn:Hup; simpl; intros H; simplify_eq; simpl;
    by rewrite ?Hk.
Qed.

Lemma Connection_redis_cached_witness :
  let k1 := (Connection.redis false options source_up Connection.new).2 in
  let r := {| Connection.cid := 0; Connection.peer := ("localhost", 6379%N) |} in
  (Connection.redis false options source_up Connection.new).1 = Ok r
  ∧ Connection._redis k1 = Some r
  ∧ Connection.redis false
      {| redis_host := "elsewhere"; redis_port := 1%N; port := 1%N;
         debug := true |} source_down k1
    = (Ok r, k1).
Proof.
  split; [reflexivity|].
  apply (Connection_redis_cached false options _ source_up source_down
           Connection.new); reflexivity.
Defined.

(** X2. A first call, or a call with [force_reconnect], goes to the
    backend.  When the backend is down it raises and the cached client
    stays as it was; when it is up it returns a client created for the
    address in the options of that moment, caches it, and the client is a
    new one, different from the one cached before. *)
Theorem Connection_redis_reconnect (force : bool) (opts : Options)
    (src : Source.t) (k : Connection.t) :
  Connection.wf k →
  Connection._redis k = None ∨ force = true →
  let out := Connection.redis force opts src k in
  (Source.up src = false → out = (Raise SourceUnavailable, k))
  ∧ (Source.up src = true →
     ∃ r, out.1 = Ok r
       ∧ Connection._redis out.2 = Some r
       ∧ Connection.peer r = (redis_host opts, redis_port opts)
       ∧ (∀ r0, Connection._redis k = Some r0 →
            Connection.cid r ≠ Connection.cid r0)
       ∧ Connection.wf out.2).
Proof.
  intros Hwf Hgo out. subst out.
  unfold Connection.redis, Connection.create_redis. split; intros Hup.
  - rewrite Hup. destruct Hgo as [-> | ->]; [done|].
    by destruct (Connection._redis k).
  - rewrite Hup.
    set (r := {| Connection.cid := Connection.created k;
                 Connection.peer := (redis_host opts, redis_port opts) |}).
    assert (Hfresh : ∀ r0, Connection._redis k = Some r0 →
                     Connection.cid r ≠ Connection.cid r0).
    { intros r0 Hr0. apply Hwf in Hr0. simpl. lia. }
    assert (Hwf' : Connection.wf
              {| Connection._redis := Some r;
                 Connection.created := S (Connection.created k) |}).
    { intros r0 Hr0. simpl in Hr0. injection Hr0 as <-. simpl. lia. }
    destruct Hgo as [-> | ->]; [by exists r|].
    destruct (Connection._redis k); by exists r.
Qed.

Lemma Connection_redis_reconnect_witness :
  let k := (Connection.redis false options source_up Connection.new).2 in
  let out := Connection.redis true options source_up k in
  Connection.wf k
  ∧ (Source.up source_up = false → out = (Raise SourceUnavailable, k))
  ∧ (Source.up source_up = true →
     ∃ r, out.1 = Ok r
       ∧ Connection._redis out.2 = Some r
       ∧ Connection.peer r = (redis_host options, redis_port options)
       ∧ (∀ r0, Connection._redis k = Some r0 →
            Connection.cid r ≠ Connection.cid r0)
       ∧ Connection.wf out.2).
Proof.
  assert (Hwf : Connection.wf
                  (Connection.redis false options source_up Connection.new).2).
  { intros r [= <-]. simpl. lia. }
  split; [exact Hwf|].
  apply (Connection_redis_reconnect true options source_up _ Hwf).
  right. reflexivity.
Defined.

(** X3. [SubscriptionManager.connect] goes through the class-level
    cache.  On a class with no cached client it reaches the backend: it
    succeeds exactly when the backend is up and then the manager has its
    [redis]; otherwise it raises and the manager is unchanged.  On a class
    with a cached client it always succeeds, backend up or not. *)
Theorem connect_through_cache (opts : Options) (k : Connection.t) (σ : State) :
  (Connection._redis k = None →
     (SubscriptionManager_connect opts k σ).1 = (connect σ).1
     ∧ (SubscriptionManager_connect opts k σ).2.2 = (connect σ).2
     ∧ ((connect σ).1 = Ok tt ↔ Source.up (source σ) = true)
     ∧ (Source.up (source σ) = false → (connect σ).2 = σ))
  ∧ (is_Some (Connection._redis k) →
     SubscriptionManager_connect opts k σ = (Ok tt, (k, set_redis true σ))).
Proof.
  unfold SubscriptionManager_connect, Connection.redis,
    Connection.create_redis. unfold_M. split.
  - intros ->. destruct (Source.up (source σ)); simpl; repeat split; done.
  - intros [r ->]. done.
Qed.

(** ** The relay loop: what a turn leaves alone, and what it logs *)

Lemma sweep_rest m ls closed σ :
  redis (sweep m ls closed σ).2 = redis σ.
Proof.
  revert closed σ. induction ls as [|l ls IH]; intros closed σ; simpl; [done|].
  destruct (offer m σ l) as [q'|]; by rewrite IH.
Qed.

Lemma sweep_log m ls :
  NoDup ls → ∀ closed σ,
  log (sweep m ls closed σ).2
  = log σ ++ replicate (length (filter (rejects m σ) ls))
               (WARNING, "Message delivery failed. Client disconnection?").
Proof.
  intros Hnd. induction Hnd as [|l ls Hl Hnd IH]; intros closed σ; simpl.
  { by rewrite app_nil_r. }
  destruct (offer m σ l) as [q'|] eqn:Hoff.
  - rewrite IH. simpl.
    rewrite filter_cons_False by (unfold rejects; congruence).
    do 3 f_equal. apply filter_ext_in. intros x Hx. unfold rejects.
    rewrite offer_other; [done|]. by intros ->.
  - rewrite IH. simpl. rewrite filter_cons_True by done. simpl.
    by rewrite <- app_assoc.
Qed.

(** X4. A relay turn stays inside its relay.  The registry, the suspended
    calls, the manager's connection and the backend's availability are as
    before; every other [Subscription] object and every other task is as
    before; the queue of a listener that is not in this relay's set is as
    before; and every feed but the relay's own is as before.  Objects are
    neither created nor freed. *)
Theorem broadcast_step_frame (a : addr) (σ : State) :
  let σ' := broadcast_step a σ in
  subscriptions σ' = subscriptions σ
  ∧ awaiting σ' = awaiting σ
  ∧ redis σ' = redis σ
  ∧ Source.up (source σ') = Source.up (source σ)
  ∧ dom (objects σ') = dom (objects σ)
  ∧ (∀ b, b ≠ a →
       objects σ' !! b = objects σ !! b ∧ tasks σ' !! b = tasks σ !! b)
  ∧ (∀ l, (∀ s, objects σ !! a = Some s → l ∉ listeners s) →
       queues σ' !! l = queues σ !! l)
  ∧ (∀ h, (∀ s, objects σ !! a = Some s → channel s ≠ Some h) →
       Source.feeds (source σ') !! h = Source.feeds (source σ) !! h).
Proof.
  unfold broadcast_step.
  destruct (tasks σ !! a) as [t|] eqn:Ht; [|done].
  destruct (objects σ !! a) as [s|] eqn:Ha; [|by destruct t].
  assert (Hdom : ∀ s', dom (<[a := s']> (objects σ)) = dom (objects σ)).
  { intros s'. rewrite dom_insert_L. apply elem_of_dom_2 in Ha. set_solver. }
  assert (Hset : ∀ t', let σ' := set_task a t' σ in
    subscriptions σ' = subscriptions σ ∧ awaiting σ' = awaiting σ
    ∧ redis σ' = redis σ
    ∧ Source.up (source σ') = Source.up (source σ)
    ∧ dom (objects σ') = dom (objects σ)
    ∧ (∀ b, b ≠ a →
         objects σ' !! b = objects σ !! b ∧ tasks σ' !! b = tasks σ !! b)
    ∧ (∀ l, (∀ s, objects σ !! a = Some s → l ∉ listeners s) →
         queues σ' !! l = queues σ !! l)
    ∧ (∀ h, (∀ s, objects σ !! a = Some s → channel s ≠ Some h) →
         Source.feeds (source σ') !! h = Source.feeds (source σ) !! h)).
  { intros t'. simpl. repeat split; try done. by rewrite lookup_insert_ne. }
  rewrite Ha in Hset.
  destruct t as [| | |e]; [apply Hset| |done|done].
  destruct (channel s) as [h|] eqn:Hch; [|apply Hset].
  destruct (Source.next h (source σ)) as [|e|m src'] eqn:Hnext;
    [done|apply Hset|].
  pose proof (broadcast_body_spec a s m (set_source src' σ))
    as (Hobj & Htask & Hq & Hoth & Hreg & Hsrc).
  unfold broadcast_body in *.
  pose proof (sweep_objects m (elements (listeners s)) []
    (logger DEBUG ("Got message: " +:+ m) (set_source src' σ)))
    as (Ho & _ & Hw & _ & _).
  pose proof (sweep_rest m (elements (listeners s)) []
    (logger DEBUG ("Got message: " +:+ m) (set_source src' σ))) as Hrd.
  destruct (sweep m (elements (listeners s)) []
    (logger DEBUG ("Got message: " +:+ m) (set_source src' σ)))
    as [closed σ2].
  simpl in *.
  unfold Source.next in Hnext.
  destruct (Source.feeds (source σ) !! h) as [[c [|m' buf]]|] eqn:Hf;
    try done; [by destruct (Source.up (source σ))|].
  injection Hnext as <- <-.
  destruct (remove_all closed (listeners s)) as [ls'|e]; simpl in *.
  - split; [done|]. split; [done|]. split; [done|]. rewrite Hsrc. simpl.
    split; [done|]. split; [by rewrite Ho|]. split; [done|].
    split.
    + intros l Hl. rewrite Hq. rewrite decide_False; [done|]. by apply Hl.
    + intros h' Hh'. rewrite lookup_insert_ne; [done|].
      intros <-. by apply (Hh' s).
  - split; [done|]. split; [done|]. split; [done|]. rewrite Hsrc. simpl.
    split; [done|]. split; [by rewrite Ho|]. split; [done|].
    split.
    + intros l Hl. rewrite Hq. rewrite decide_False; [done|]. by apply Hl.
    + intros h' Hh'. rewrite lookup_insert_ne; [done|].
      intros <-. by apply (Hh' s).
Qed.

Lemma kept_size m σ (L : gset listener) :
  size (kept m σ L) + length (filter (rejects m σ) (elements L)) = size L.
Proof.
  unfold kept.
  assert (Hnd : NoDup (filter (rejects m σ) (elements L)))
    by apply NoDup_filter, NoDup_elements.
  assert (Hsub : list_to_set (filter (rejects m σ) (elements L)) ⊆ L).
  { intros l [_ Hl%elem_of_elements]%elem_of_list_to_set%list_elem_of_filter.
    done. }
  rewrite size_difference by done.
  rewrite size_list_to_set by done.
  apply subseteq_size in Hsub. rewrite size_list_to_set in Hsub by done. lia.
Qed.

(** X5. A relay turn that pulls a message logs it once at debug level and
    then one warning for each listener it evicts: the log grows by exactly
    one debug line and as many warnings as the listener set lost
    members. *)
Theorem broadcast_step_log (a : addr) (s : Subscription) (h : handle)
    (m : message) (src' : Source.t) (σ : State) :
  tasks σ !! a = Some Waiting →
  objects σ !! a = Some s →
  channel s = Some h →
  Source.next h (source σ) = Source.Got m src' →
  ∃ s', objects (broadcast_step a σ) !! a = Some s'
    ∧ listeners s' ⊆ listeners s
    ∧ log (broadcast_step a σ)
      = log σ ++ (DEBUG, "Got message: " +:+ m)
          :: replicate (size (listeners s) - size (listeners s'))
               (WARNING, "Message delivery failed. Client disconnection?").
Proof.
  intros Ht Ho Hch Hnext. unfold broadcast_step.
  rewrite Ht, Ho, Hch, Hnext.
  pose proof (broadcast_body_spec a s m (set_source src' σ)) as (Hobj & _).
  exists {| name := name s; listeners := kept m (set_source src' σ) (listeners s);
            channel := channel s |}.
  split; [done|]. simpl. split.
  { intros l [Hl _]%elem_of_kept. done. }
  pose proof (kept_size m (set_source src' σ) (listeners s)) as Hsize.
  replace (size (listeners s) - size (kept m (set_source src' σ) (listeners s)))
    with (length (filter (rejects m (set_source src' σ)) (elements (listeners s))))
    by lia.
  unfold broadcast_body.
  set (σ1 := logger DEBUG ("Got message: " +:+ m) (set_source src' σ)).
  pose proof (sweep_log m (elements (listeners s)) (NoDup_elements _) [] σ1)
    as Hlog.
  pose proof (sweep_spec m (elements (listeners s)) (NoDup_elements _) [] σ1)
    as (Hcl & _).
  destruct (sweep m (elements (listeners s)) [] σ1) as [closed σ2].
  simpl in *. subst closed.
  rewrite remove_all_spec.
  - simpl. rewrite Hlog. by rewrite <- app_assoc.
  - by apply NoDup_filter, NoDup_elements.
  - intros l [_ Hin]%list_elem_of_filter. by apply elem_of_elements.
Qed.

Lemma broadcast_step_log_witness :
  let s := {| name := "x"; listeners := {[1; 2; 3]}; channel := Some 0 |} in
  tasks crowded !! 0 = Some Waiting
  ∧ ∃ s', objects (broadcast_step 0 crowded) !! 0 = Some s'
    ∧ listeners s' ⊆ listeners s
    ∧ log (broadcast_step 0 crowded)
      = log crowded ++ (DEBUG, "Got message: " +:+ "a")
          :: replicate (size (listeners s) - size (listeners s'))
               (WARNING, "Message delivery failed. Client disconnection?").
Proof.
  split; [vm_compute; reflexivity|].
  apply (broadcast_step_log 0
           {| name := "x"; listeners := {[1; 2; 3]}; channel := Some 0 |} 0 "a"
           {| Source.up := true; Source.feeds := {[0 := ("x", [])]} |} crowded);
    vm_compute; reflexivity.
Defined.

(** ** What no call ever undoes *)

Lemma subscribe_begin_shape l c σ :
  let r := (subscribe_begin l c σ).1 in
  let σ' := (subscribe_begin l c σ).2 in
  tasks σ' = tasks σ ∧ source σ' = source σ ∧ queues σ' = queues σ
  ∧ awaiting σ' = awaiting σ
  ∧ names_kept σ σ'
  ∧ ∀ k, r = Ok (Some k) → k = Suspended l c (fresh (dom (objects σ))).
Proof.
  split; [|split; [|split; [|split; [|split]]]].
  1-4: unfold_M; simpl; destruct (subscriptions σ !! c) as [a|]; simpl;
    [by destruct (objects σ !! a)
    |rewrite lookup_insert_eq; simpl; by destruct (redis σ)].
  - apply subscribe_begin_effect.
  - unfold_M. simpl. destruct (subscriptions σ !! c) as [a|]; simpl.
    + destruct (objects σ !! a); simpl; intros; discriminate.
    + rewrite lookup_insert_eq. simpl. destruct (redis σ); simpl.
      * by intros k [= <-].
      * intros; discriminate.
Qed.

Lemma subscribe_resume_shape k σ :
  let σ' := (subscribe_resume k σ).2 in
  names_kept σ σ' ∧ queues σ' = queues σ ∧ awaiting σ' = awaiting σ
  ∧ (∀ b, b ≠ s_sub k → tasks σ' !! b = tasks σ !! b)
  ∧ (∀ h c buf, Source.feeds (source σ) !! h = Some (c, buf) →
       Source.feeds (source σ') !! h = Some (c, buf))
  ∧ Source.up (source σ') = Source.up (source σ).
Proof.
  unfold_M. destruct (objects σ !! s_sub k) as [s|] eqn:Ha; simpl;
    [|by split; [apply names_kept_refl|]].
  unfold Source.open.
  destruct (Source.up (source σ)) eqn:Hup; simpl;
    [|by split; [apply names_kept_refl|]].
  rewrite lookup_insert_eq. simpl.
  split; [|split; [done|split; [done|split; [|split]]]].
  - intros c' b (s0 & Hb & Hn0). unfold named. simpl.
    rewrite insert_insert_eq. destruct (decide (s_sub k = b)) as [<-|Hne].
    + rewrite lookup_insert_eq. eexists; split; [done|]. simpl. by simplify_eq.
    + rewrite lookup_insert_ne by done. eauto.
  - intros b Hne. by rewrite lookup_insert_ne.
  - intros h c buf Hf. rewrite lookup_insert_ne; [done|].
    intros <-. pose proof (is_fresh (dom (Source.feeds (source σ)))) as Hfr.
    apply Hfr. by apply elem_of_dom_2 in Hf.
  - done.
Qed.

Lemma next_feeds h src m src' :
  Source.next h src = Source.Got m src' →
  Source.up src' = Source.up src
  ∧ ∀ h' c buf, Source.feeds src !! h' = Some (c, buf) →
      ∃ buf', Source.feeds src' !! h' = Some (c, buf').
Proof.
  unfold Source.next.
  destruct (Source.feeds src !! h) as [[c0 [|m0 buf0]]|] eqn:Hf; try done;
    [by destruct (Source.up src)|].
  intros [= <- <-]. simpl. split; [done|]. intros h' c buf Hf'.
  destruct (decide (h = h')) as [<-|Hne].
  - rewrite lookup_insert_eq. simplify_eq. eauto.
  - rewrite lookup_insert_ne by done. eauto.
Qed.

Lemma broadcast_step_source a σ :
  source (broadcast_step a σ) = source σ
  ∨ ∃ h m, Source.next h (source σ) = Source.Got m (source (broadcast_step a σ)).
Proof.
  unfold broadcast_step.
  destruct (tasks σ !! a) as [[| | |e]|]; auto;
    destruct (objects σ !! a) as [s|]; auto.
  destruct (channel s) as [h|]; auto.
  destruct (Source.next h (source σ)) as [|e|m src'] eqn:Hnext; auto.
  pose proof (broadcast_body_spec a s m (set_source src' σ))
    as (_ & _ & _ & _ & _ & ->).
  right. by exists h, m.
Qed.

Lemma step_names_kept ev σ : names_kept σ (step ev σ).2.
Proof.
  destruct ev as [|l|l c|l c|i|c|a|c m|b]; simpl.
  - unfold_M. destruct (Source.up (source σ)); auto with names.
  - auto with names.
  - unfold subscribe, bind.
    destruct (subscribe_begin_shape l c σ) as (_ & _ & _ & _ & Hn & _).
    destruct (subscribe_begin l c σ) as [[[k|]|e] σ1]; simpl in *; [|done..].
    eapply names_kept_trans; [done|]. apply subscribe_resume_shape.
  - unfold bind.
    destruct (subscribe_begin_shape l c σ) as (_ & _ & _ & _ & Hn & _).
    by destruct (subscribe_begin l c σ) as [[[k|]|e] σ1].
  - unfold bind, gets, modify. simpl.
    destruct (awaiting σ !! i) as [k|]; simpl; [|auto with names].
    eapply names_kept_trans; [|apply subscribe_resume_shape]. auto with names.
  - unfold_M. destruct (subscriptions σ !! c); simpl; auto with names.
  - apply broadcast_step_names.
  - auto with names.
  - auto with names.
Qed.

Lemma step_settled ev a t σ :
  t = Finished ∨ (∃ e, t = Crashed e) →
  settled a t σ → settled a t (step ev σ).2.
Proof.
  intros Hend (Hobj & Haw & Ht).
  assert (Hobj' : is_Some (objects (step ev σ).2 !! a)).
  { destruct Hobj as [s Hs].
    destruct (step_names_kept ev σ (name s) a) as (s' & ? & _);
      [by exists s|by exists s']. }
  split; [done|]. clear Hobj'.
  assert (Hfresh : fresh (dom (objects σ)) ≠ a).
  { destruct Hobj as [s Hs]. by eapply fresh_object_ne. }
  destruct ev as [|l|l c|l c|i|c|b|c m|b]; simpl.
  - unfold_M. by destruct (Source.up (source σ)).
  - done.
  - unfold subscribe, bind.
    destruct (subscribe_begin_shape l c σ) as (Ht1 & _ & _ & Hw1 & _ & Hk).
    destruct (subscribe_begin l c σ) as [[[k|]|e] σ1]; simpl in *;
      try (rewrite Hw1, Ht1; done).
    destruct (subscribe_resume_shape k σ1) as (_ & _ & Hw2 & Ht2 & _).
    rewrite Hw2, Hw1. split; [done|].
    rewrite Ht2, Ht1; [done|]. rewrite (Hk k eq_refl). simpl. congruence.
  - unfold bind.
    destruct (subscribe_begin_shape l c σ) as (Ht1 & _ & _ & Hw1 & _ & Hk).
    destruct (subscribe_begin l c σ) as [[[k|]|e] σ1]; simpl in *;
      try (rewrite Hw1, Ht1; done).
    rewrite Ht1. split; [|done]. intros k' Hin. rewrite Hw1 in Hin.
    apply elem_of_app in Hin as [Hin|Hin%list_elem_of_singleton]; [by apply Haw|].
    subst k'. rewrite (Hk k eq_refl). simpl. congruence.
  - unfold bind, gets, modify. simpl.
    destruct (awaiting σ !! i) as [k|] eqn:Hi; simpl; [|done].
    destruct (subscribe_resume_shape k (set_awaiting (delete i (awaiting σ)) σ))
      as (_ & _ & Hw2 & Ht2 & _).
    rewrite Hw2. simpl. split.
    + intros k' Hin. apply Haw. by eapply list_elem_of_delete_inv.
    + rewrite Ht2; [done|]. intros E. apply (Haw k); [|done].
      by eapply list_elem_of_lookup_2.
  - unfold_M. by destruct (subscriptions σ !! c).
  - unfold modify. simpl.
    destruct (broadcast_step_registry b σ) as (_ & ->). split; [done|].
    destruct (decide (b = a)) as [->|Hne].
    + unfold broadcast_step. rewrite Ht.
      by destruct Hend as [-> | [e ->]].
    + pose proof (broadcast_step_names b σ) as _.
      unfold broadcast_step.
      destruct (tasks σ !! b) as [[| | |e]|]; try done;
        destruct (objects σ !! b) as [s|]; try done;
        try (simpl; by rewrite lookup_insert_ne).
      destruct (channel s) as [h|]; [|simpl; by rewrite lookup_insert_ne].
      destruct (Source.next h (source σ)) as [|e|m src']; try done;
        [simpl; by rewrite lookup_insert_ne|].
      pose proof (broadcast_body_spec b s m (set_source src' σ))
        as (_ & _ & _ & Hoth & _).
      destruct (Hoth a) as [_ ->]; done.
  - done.
  - done.
Qed.

(** X6. An ended relay never runs again.  Once the [broadcast] task of a
    subscription has returned or died, no schedule of calls, relay turns
    and backend events brings it back: its task stays exactly as it
    ended, whatever is subscribed, unsubscribed or published
    afterwards. *)
Theorem ended_is_final (evs : list event) (a : addr) (t : task) (σ : State) :
  t = Finished ∨ (∃ e, t = Crashed e) →
  is_Some (objects σ !! a) →
  (∀ k, k ∈ awaiting σ → s_sub k ≠ a) →
  tasks σ !! a = Some t →
  tasks (run evs σ) !! a = Some t.
Proof.
  intros Hend Hobj Haw Ht.
  assert (Hs : settled a t σ) by done. clear Hobj Haw Ht.
  revert σ Hs. induction evs as [|ev evs IH]; intros σ Hs; simpl.
  - by destruct Hs as (_ & _ & ?).
  - apply IH. by apply step_settled.
Qed.

Lemma ended_is_final_witness :
  tasks source_dropped !! 0 = Some (Crashed SourceClosed)
  ∧ tasks (run [Accept 2; Subscribe 2 "x"; Publish "x" "m"; Relay 0;
                Unsubscribe "x"; Subscribe 2 "x"; Relay 0; Relay 1]
             source_dropped) !! 0
    = Some (Crashed SourceClosed).
Proof.
  split; [vm_compute; reflexivity|].
  apply (ended_is_final _ 0 (Crashed SourceClosed) source_dropped).
  - right. by exists SourceClosed.
  - vm_compute. by eexists.
  - intros k Hk. vm_compute in Hk. by apply elem_of_nil in Hk.
  - vm_compute. reflexivity.
Defined.

Lemma step_feed ev σ h c buf :
  Source.feeds (source σ) !! h = Some (c, buf) →
  ∃ buf', Source.feeds (source (step ev σ).2) !! h = Some (c, buf').
Proof.
  intros Hf. destruct ev as [|l|l c0|l c0|i|c0|a|c0 m|b]; simpl.
  - unfold_M. destruct (Source.up (source σ)); eauto.
  - eauto.
  - unfold subscribe, bind.
    destruct (subscribe_begin_shape l c0 σ) as (_ & Hs1 & _).
    destruct (subscribe_begin l c0 σ) as [[[k|]|e] σ1]; simpl in *;
      try (rewrite Hs1; eauto).
    destruct (subscribe_resume_shape k σ1) as (_ & _ & _ & _ & Hf2 & _).
    exists buf. apply Hf2. by rewrite Hs1.
  - unfold bind.
    destruct (subscribe_begin_shape l c0 σ) as (_ & Hs1 & _).
    destruct (subscribe_begin l c0 σ) as [[[k|]|e] σ1]; simpl in *;
      rewrite Hs1; eauto.
  - unfold bind, gets, modify. simpl.
    destruct (awaiting σ !! i) as [k|]; simpl; [|eauto].
    destruct (subscribe_resume_shape k (set_awaiting (delete i (awaiting σ)) σ))
      as (_ & _ & _ & _ & Hf2 & _).
    exists buf. by apply Hf2.
  - unfold_M. destruct (subscriptions σ !! c0); simpl; eauto.
  - unfold modify. simpl.
    destruct (broadcast_step_source a σ) as [-> | (h0 & m & Hnext)]; [eauto|].
    apply next_feeds in Hnext as (_ & Hnext). eauto.
  - unfold modify. simpl. rewrite lookup_fmap, Hf. simpl.
    unfold Source.feed_publish. simpl. case_decide; eauto.
  - eauto.
Qed.

(** X7. No call ever releases an upstream subscription.  A feed that is
    open stays open, on the same channel, through every schedule of
    [subscribe], [unsubscribe], relay turns and backend events: neither
    [unsubscribe] nor the end of a relay loop closes it. *)
Theorem feeds_never_closed (evs : list event) (σ : State) (h : handle)
    (c : string) :
  h ∈ Source.active c (source σ) → h ∈ Source.active c (source (run evs σ)).
Proof.
  revert σ. induction evs as [|ev evs IH]; intros σ Hin; simpl; [done|].
  apply IH. apply elem_of_active in Hin as [buf Hf].
  apply elem_of_active. by eapply step_feed.
Qed.

Lemma feeds_never_closed_witness :
  0 ∈ Source.active "x" (source one_waiting)
  ∧ 0 ∈ Source.active "x"
        (source (run [Unsubscribe "x"; SourceSet false; Relay 0;
                      SourceSet true; Subscribe 1 "x"] one_waiting)).
Proof.
  assert (H : 0 ∈ Source.active "x" (source one_waiting)).
  { apply elem_of_active. exists []. vm_compute. reflexivity. }
  split; [exact H|].
  by apply (feeds_never_closed _ one_waiting 0 "x").
Defined.

(** ** subscribe: when it raises, and what it leaves alone *)

(** X8. On a key-consistent registry [subscribe] returns normally
    exactly when it has nothing to open or can open it: the channel
    already has a relay, or the manager is connected and the backend is
    up.  In every other case it raises. *)
Theorem subscribe_succeeds_iff (l : listener) (c : string) (σ : State) :
  key_consistent σ →
  (subscribe l c σ).1 = Ok tt
  ↔ is_Some (subscriptions σ !! c)
    ∨ (redis σ = true ∧ Source.up (source σ) = true).
Proof.
  intros Hkc. destruct (subscriptions σ !! c) as [a|] eqn:Hc.
  - destruct (Hkc c a Hc) as (s & Ha & _).
    rewrite (subscribe_existing l c a s σ Hc Ha). simpl.
    split; [intros _; left; by eexists|done].
  - destruct (redis σ) eqn:Hr, (Source.up (source σ)) eqn:Hup;
      try (destruct (subscribe_cannot_open l c σ Hc) as [e He];
           [auto; fail|];
           rewrite He; split; [done|];
           intros [[? ?]|[? ?]]; discriminate).
    rewrite (subscribe_fresh l c σ Hc Hr Hup). simpl.
    split; [intros _; by right|done].
Qed.

Lemma subscribe_succeeds_iff_witness :
  (subscribe 2 "x" source_lost).1 ≠ Ok tt
  ∧ ((subscribe 2 "x" source_lost).1 = Ok tt
     ↔ is_Some (subscriptions source_lost !! "x")
       ∨ (redis source_lost = true ∧ Source.up (source source_lost) = true)).
Proof.
  split; [vm_compute; discriminate|].
  apply (subscribe_succeeds_iff 2 "x" source_lost).
  intros c a H. vm_compute in H. discriminate.
Defined.

(** X9. Channels do not interfere at [subscribe].  On a key-consistent
    registry a [subscribe] for channel [c], whether it returns or raises,
    leaves every other channel's registry entry, relay object and task
    exactly as they were, and touches no queue. *)
Theorem subscribe_other_channels (l : listener) (c c' : string) (a' : addr)
    (σ : State) :
  key_consistent σ →
  c' ≠ c →
  subscriptions σ !! c' = Some a' →
  let σ' := (subscribe l c σ).2 in
  subscriptions σ' !! c' = Some a'
  ∧ objects σ' !! a' = objects σ !! a'
  ∧ tasks σ' !! a' = tasks σ !! a'
  ∧ relay_listeners c' σ' = relay_listeners c' σ
  ∧ queues σ' = queues σ.
Proof.
  intros Hkc Hne Hc' σ'.
  destruct (Hkc c' a' Hc') as (s' & Ha' & Hn').
  assert (Hfresh : fresh (dom (objects σ)) ≠ a') by (by eapply fresh_object_ne).
  assert (Hgoal : subscriptions σ' !! c' = Some a'
                  ∧ objects σ' !! a' = objects σ !! a'
                  ∧ tasks σ' !! a' = tasks σ !! a'
                  ∧ queues σ' = queues σ).
  { subst σ'. destruct (subscriptions σ !! c) as [a|] eqn:Hc.
    - destruct (objects σ !! a) as [s|] eqn:Ha.
      + rewrite (subscribe_existing l c a s σ Hc Ha). simpl.
        split; [done|]. split; [|done].
        rewrite lookup_insert_ne; [done|]. intros ->.
        destruct (Hkc c a' Hc) as (s0 & Ha0 & Hn0). congruence.
      + replace (subscribe l c σ).2 with σ; [done|].
        unfold_M. rewrite Hc. simpl. by rewrite Ha.
    - destruct (redis σ) eqn:Hr, (Source.up (source σ)) eqn:Hup;
        try (rewrite subscribe_failed_state by auto; simpl;
             by rewrite lookup_insert_ne).
      rewrite (subscribe_fresh l c σ Hc Hr Hup). simpl.
      by rewrite !lookup_insert_ne. }
  destruct Hgoal as (H1 & H2 & H3 & H4).
  split; [done|]. split; [done|]. split; [done|]. split; [|done].
  unfold relay_listeners. rewrite H1, Hc'. simpl. by rewrite H2.
Qed.

Lemma subscribe_other_channels_witness :
  let σ := run two_channels (init source_up) in
  let σ' := (subscribe 5 "y" σ).2 in
  subscriptions σ !! "x" = Some 0
  ∧ subscriptions σ' !! "x" = Some 0
  ∧ objects σ' !! 0 = objects σ !! 0
  ∧ tasks σ' !! 0 = tasks σ !! 0
  ∧ relay_listeners "x" σ' = relay_listeners "x" σ
  ∧ queues σ' = queues σ.
Proof.
  split; [vm_compute; reflexivity|].
  apply (subscribe_other_channels 5 "y" "x" 0 (run two_channels (init source_up)));
    [|done|vm_compute; reflexivity].
  intros c a H.
  replace (subscriptions (run two_channels (init source_up)))
    with ({["x" := 0; "y" := 1]} : gmap string nat) in H
    by (vm_compute; reflexivity).
  apply lookup_insert_Some in H as [[<- <-]|[_ H]].
  - eexists. split; [vm_compute; reflexivity|reflexivity].
  - apply lookup_singleton_Some in H as [<- <-].
    eexists. split; [vm_compute; reflexivity|reflexivity].
Defined.

(** ** Two calls racing for a new channel *)

Lemma subscribe_begin_suspends l c σ :
  subscriptions σ !! c = None → redis σ = true →
  subscribe_begin l c σ
  = (Ok (Some (Suspended l c (fresh (dom (objects σ))))),
     set_objects (<[fresh (dom (objects σ)) :=
                      {| name := c; listeners := ∅; channel := None |}]>
                    (objects σ)) σ).
Proof.
  intros Hc Hr. unfold_M. rewrite Hc. simpl.
  rewrite lookup_insert_eq. simpl. by rewrite Hr.
Qed.

Lemma subscribe_resume_opens k s σ :
  objects σ !! s_sub k = Some s → Source.up (source σ) = true →
  let h := fresh (dom (Source.feeds (source σ))) in
  subscribe_resume k σ
  = (Ok tt,
     {| redis := redis σ;
        subscriptions := <[s_channel k := s_sub k]> (subscriptions σ);
        objects := <[s_sub k := {| name := name s;
                                   listeners := {[s_listener k]} ∪ listeners s;
                                   channel := Some h |}]> (objects σ);
        tasks := <[s_sub k := Scheduled]> (tasks σ);
        queues := queues σ;
        awaiting := awaiting σ;
        source := {| Source.up := true;
                     Source.feeds := <[h := (name s, [])]>
                                       (Source.feeds (source σ)) |};
        log := log σ |}).
Proof.
  intros Ha Hup h. unfold_M. rewrite Ha. simpl.
  unfold Source.open. rewrite Hup. simpl. rewrite lookup_insert_eq. simpl.
  unfold set_task, set_tasks. simpl. by rewrite !insert_insert_eq.
Qed.

(** X10. The test [channel in self.subscriptions] and the store
    [self.subscriptions[channel] = subscription] are separated by an
    [await].  When two calls for a channel without a relay both reach
    the [await] before either resumes, each creates its own relay: two
    objects, two scheduled loops and two upstream subscriptions on the
    channel, each relay holding only its own caller.  The registry keeps
    the relay stored last; the other one runs on without an entry. *)
Theorem subscribe_race (l1 l2 : listener) (c : string) (σ : State) :
  subscriptions σ !! c = None →
  redis σ = true →
  Source.up (source σ) = true →
  let n := length (awaiting σ) in
  let σ' := run [SubscribeBegin l1 c; SubscribeBegin l2 c;
                 SubscribeResume n; SubscribeResume n] σ in
  ∃ a1 a2 h1 h2,
    a1 ≠ a2 ∧ h1 ≠ h2
    ∧ objects σ !! a1 = None ∧ objects σ !! a2 = None
    ∧ (h1 ∉ Source.active c (source σ)) ∧ (h2 ∉ Source.active c (source σ))
    ∧ subscriptions σ' !! c = Some a2
    ∧ objects σ' !! a1
      = Some {| name := c; listeners := {[l1]}; channel := Some h1 |}
    ∧ objects σ' !! a2
      = Some {| name := c; listeners := {[l2]}; channel := Some h2 |}
    ∧ tasks σ' !! a1 = Some Scheduled
    ∧ tasks σ' !! a2 = Some Scheduled
    ∧ h1 ∈ Source.active c (source σ')
    ∧ h2 ∈ Source.active c (source σ')
    ∧ awaiting σ' = awaiting σ.
Proof.
  intros Hc Hr Hup n σ'.
  set (s0 := {| name := c; listeners := ∅; channel := None |}).
  set (a1 := fresh (dom (objects σ))).
  set (o1 := <[a1 := s0]> (objects σ)).
  set (a2 := fresh (dom o1)).
  set (h1 := fresh (dom (Source.feeds (source σ)))).
  set (f1 := <[h1 := (c, [])]> (Source.feeds (source σ))).
  set (h2 := fresh (dom f1)).
  assert (Ha1 : objects σ !! a1 = None) by apply fresh_object_None.
  assert (Ha2 : o1 !! a2 = None) by apply not_elem_of_dom, is_fresh.
  assert (Hne : a1 ≠ a2).
  { intros E. rewrite <- E in Ha2. subst o1. by rewrite lookup_insert_eq in Ha2. }
  assert (Ha2' : objects σ !! a2 = None).
  { subst o1. by rewrite lookup_insert_ne in Ha2. }
  assert (Hh1 : Source.feeds (source σ) !! h1 = None)
    by apply not_elem_of_dom, is_fresh.
  assert (Hh2 : f1 !! h2 = None) by apply not_elem_of_dom, is_fresh.
  assert (Hhne : h1 ≠ h2).
  { intros E. rewrite <- E in Hh2. subst f1. by rewrite lookup_insert_eq in Hh2. }
  assert (Hh2' : Source.feeds (source σ) !! h2 = None).
  { subst f1. by rewrite lookup_insert_ne in Hh2. }
  exists a1, a2, h1, h2.
  split; [done|]. split; [done|]. split; [done|]. split; [done|].
  split; [rewrite elem_of_active; intros [buf ?]; congruence|].
  split; [rewrite elem_of_active; intros [buf ?]; congruence|].
  subst σ'. simpl. unfold bind.
  rewrite (subscribe_begin_suspends l1 c σ Hc Hr). simpl. unfold modify. simpl.
  rewrite subscribe_begin_suspends by done. simpl. unfold gets. simpl.
  fold a1 s0 o1 a2.
  replace ((awaiting σ ++ [Suspended l1 c a1]) ++ [Suspended l2 c a2])
    with (awaiting σ ++ Suspended l1 c a1 :: [Suspended l2 c a2])
    by (by rewrite <- app_assoc).
  fold n. subst n. rewrite list_lookup_middle by done. simpl.
  rewrite delete_middle.
  rewrite (subscribe_resume_opens (Suspended l1 c a1) s0); simpl;
    [|subst o1; rewrite lookup_insert_ne by done; by rewrite lookup_insert_eq
     |done].
  rewrite list_lookup_middle by done. simpl.
  rewrite delete_middle, app_nil_r.
  rewrite (subscribe_resume_opens (Suspended l2 c a2) s0); simpl;
    [|rewrite lookup_insert_ne by done; by rewrite lookup_insert_eq|done].
  fold h1 f1 h2.
  rewrite !lookup_insert_eq.
  rewrite (lookup_insert_ne _ a2 a1) by done.
  rewrite (lookup_insert_ne _ a2 a1) by done.
  rewrite !lookup_insert_eq. rewrite !(right_id_L ∅ (∪)).
  split; [done|]. split; [done|]. split; [done|]. split; [done|].
  split; [done|]. split; [|split; [|done]].
  - apply elem_of_active. exists []. simpl.
    rewrite lookup_insert_ne by done. subst f1. by rewrite lookup_insert_eq.
  - apply elem_of_active. exists []. simpl. by rewrite lookup_insert_eq.
Qed.

Lemma subscribe_race_witness :
  let σ' := run [SubscribeBegin 2 "y"; SubscribeBegin 3 "y";
                 SubscribeResume 0; SubscribeResume 0] one_waiting in
  subscriptions one_waiting !! "y" = None
  ∧ ∃ a1 a2 h1 h2,
    a1 ≠ a2 ∧ h1 ≠ h2
    ∧ objects one_waiting !! a1 = None ∧ objects one_waiting !! a2 = None
    ∧ (h1 ∉ Source.active "y" (source one_waiting))
    ∧ (h2 ∉ Source.active "y" (source one_waiting))
    ∧ subscriptions σ' !! "y" = Some a2
    ∧ objects σ' !! a1
      = Some {| name := "y"; listeners := {[2]}; channel := Some h1 |}
    ∧ objects σ' !! a2
      = Some {| name := "y"; listeners := {[3]}; channel := Some h2 |}
    ∧ tasks σ' !! a1 = Some Scheduled
    ∧ tasks σ' !! a2 = Some Scheduled
    ∧ h1 ∈ Source.active "y" (source σ')
    ∧ h2 ∈ Source.active "y" (source σ')
    ∧ awaiting σ' = awaiting one_waiting.
Proof.
  split; [vm_compute; reflexivity|].
  apply (subscribe_race 2 3 "y" one_waiting); vm_compute; reflexivity.
Defined.

(** X11. [unsubscribe] undoes [subscribe] in the registry only.  After a
    [subscribe] that created the relay of a channel, [unsubscribe] puts
    the registry back exactly as it was before, but everything else the
    [subscribe] made stays: the relay object with the listener in its
    set, its scheduled loop and its open upstream subscription. *)
Theorem subscribe_unsubscribe_registry (l : listener) (c : string) (σ : State) :
  subscriptions σ !! c = None →
  redis σ = true →
  Source.up (source σ) = true →
  let σ1 := (subscribe l c σ).2 in
  let σ2 := (unsubscribe c σ1).2 in
  let a := fresh (dom (objects σ)) in
  let h := fresh (dom (Source.feeds (source σ))) in
  subscriptions σ2 = subscriptions σ
  ∧ objects σ !! a = None
  ∧ objects σ2 !! a
    = Some {| name := c; listeners := {[l]}; channel := Some h |}
  ∧ tasks σ2 !! a = Some Scheduled
  ∧ (h ∉ Source.active c (source σ))
  ∧ h ∈ Source.active c (source σ2).
Proof.
  intros Hc Hr Hup σ1 σ2 a h. subst σ2 σ1.
  rewrite (subscribe_fresh l c σ Hc Hr Hup). simpl.
  unfold_M. simpl. rewrite lookup_insert_eq. simpl.
  rewrite delete_insert_eq, delete_id by done. rewrite !lookup_insert_eq.
  split; [done|]. split; [apply fresh_object_None|]. split; [done|].
  split; [done|]. split.
  - rewrite elem_of_active. intros [buf Hf].
    pose proof (is_fresh (dom (Source.feeds (source σ)))) as Hfr.
    apply Hfr. by apply elem_of_dom_2 in Hf.
  - apply elem_of_active. exists []. simpl. by rewrite lookup_insert_eq.
Qed.

Lemma subscribe_unsubscribe_registry_witness :
  let σ1 := (subscribe 4 "z" one_waiting).2 in
  let σ2 := (unsubscribe "z" σ1).2 in
  let a := fresh (dom (objects one_waiting)) in
  let h := fresh (dom (Source.feeds (source one_waiting))) in
  subscriptions one_waiting !! "z" = None
  ∧ subscriptions σ2 = subscriptions one_waiting
  ∧ objects one_waiting !! a = None
  ∧ objects σ2 !! a
    = Some {| name := "z"; listeners := {[4]}; channel := Some h |}
  ∧ tasks σ2 !! a = Some Scheduled
  ∧ (h ∉ Source.active "z" (source one_waiting))
  ∧ h ∈ Source.active "z" (source σ2).
Proof.
  split; [vm_compute; reflexivity|].
  apply (subscribe_unsubscribe_registry 4 "z" one_waiting);
    vm_compute; reflexivity.
Defined.

Lemma serve_app xs ys sv : serve (xs ++ ys) sv = serve ys (serve xs sv).
Proof. revert sv. induction xs as [|x xs IH]; intros sv; simpl; auto. Qed.

Lemma serve_cons x xs sv : serve (x :: xs) sv = serve xs (act x sv).
Proof. done. Qed.

Lemma aired_cons c x xs : aired c (x :: xs) = aired c [x] ++ aired c xs.
Proof. unfold aired. simpl. by destruct x; try case_decide. Qed.

(** ** subscribe on either side of its await *)

Lemma subscribe_begin_cases l c σ :
  (∃ a s, subscriptions σ !! c = Some a ∧ objects σ !! a = Some s
     ∧ subscribe_begin l c σ
       = (Ok None,
          set_objects
            (<[a := {| name := name s; listeners := {[l]} ∪ listeners s;
                       channel := channel s |}]> (objects σ)) σ))
  ∨ (∃ a, subscriptions σ !! c = Some a ∧ objects σ !! a = None
       ∧ subscribe_begin l c σ = (Raise AttributeError, σ))
  ∨ (subscriptions σ !! c = None ∧ redis σ = true
     ∧ subscribe_begin l c σ
       = (Ok (Some (Suspended l c (fresh (dom (objects σ))))),
          set_objects (<[fresh (dom (objects σ)) :=
                           {| name := c; listeners := ∅; channel := None |}]>
                         (objects σ)) σ))
  ∨ (subscriptions σ !! c = None ∧ redis σ = false
     ∧ subscribe_begin l c σ
       = (Raise AttributeError,
          set_objects (<[fresh (dom (objects σ)) :=
                           {| name := c; listeners := ∅; channel := None |}]>
                         (objects σ)) σ)).
Proof.
  destruct (subscriptions σ !! c) as [a|] eqn:Hc.
  - destruct (objects σ !! a) as [s|] eqn:Ha.
    + left. exists a, s. split; [done|]. split; [done|].
      unfold_M. rewrite Hc. simpl. by rewrite Ha.
    + right. left. exists a. split; [done|]. split; [done|].
      unfold_M. rewrite Hc. simpl. by rewrite Ha.
  - destruct (redis σ) eqn:Hr.
    + right. right. left. split; [done|]. split; [done|].
      unfold_M. rewrite Hc. simpl. rewrite lookup_insert_eq. simpl.
      by rewrite Hr.
    + right. right. right. split; [done|]. split; [done|].
      unfold_M. rewrite Hc. simpl. rewrite lookup_insert_eq. simpl.
      by rewrite Hr.
Qed.

Lemma subscribe_resume_cases k σ :
  (∃ s, objects σ !! s_sub k = Some s ∧ Source.up (source σ) = true
     ∧ subscribe_resume k σ
       = (Ok tt,
          {| redis := redis σ;
             subscriptions := <[s_channel k := s_sub k]> (subscriptions σ);
             objects := <[s_sub k :=
                            {| name := name s;
                               listeners := {[s_listener k]} ∪ listeners s;
                               channel :=
                                 Some (fresh (dom (Source.feeds (source σ)))) |}]>
                          (objects σ);
             tasks := <[s_sub k := Scheduled]> (tasks σ);
             queues := queues σ;
             awaiting := awaiting σ;
             source := {| Source.up := true;
                          Source.feeds :=
                            <[fresh (dom (Source.feeds (source σ))) := (name s, [])]>
                              (Source.feeds (source σ)) |};
             log := log σ |}))
  ∨ (is_Some (objects σ !! s_sub k) ∧ Source.up (source σ) = false
     ∧ subscribe_resume k σ = (Raise SourceUnavailable, σ))
  ∨ (objects σ !! s_sub k = None
     ∧ subscribe_resume k σ = (Raise AttributeError, σ)).
Proof.
  destruct (objects σ !! s_sub k) as [s|] eqn:Ha.
  - destruct (Source.up (source σ)) eqn:Hup.
    + left. exists s. split; [done|]. split; [done|].
      by apply subscribe_resume_opens.
    + right. left. split; [by eexists|]. split; [done|].
      unfold_M. rewrite Ha. simpl. unfold Source.open. by rewrite Hup.
  - right. right. split; [done|]. unfold_M. by rewrite Ha.
Qed.

(** ** The handlers: from the queue to the client *)

(** A new client: the core does what [arrivals] does, and the handler is
    in its loop, with nothing sent, exactly when [subscribe] returned. *)
Lemma connection_core l c sv :
  handlers sv !! l = None →
  let sv' := serve [Request l; Get l c; Resume l] sv in
  core sv' = run [Accept l; Subscribe l c] (core sv)
  ∧ (∀ l', l' ≠ l → handlers sv' !! l' = handlers sv !! l')
  ∧ ∃ hd, handlers sv' !! l = Some hd
      ∧ stream_closed hd = false
      ∧ match (subscribe l c (run [Accept l] (core sv))).1 with
        | Ok _ => stage hd = Streaming ∧ sent hd = []
        | Raise e => stage hd = Raised e
        end.
Proof.
  intros Hl. simpl. unfold SSEHandler_new. rewrite Hl.
  unfold SSEHandler_get. simpl. rewrite lookup_insert_eq. simpl.
  unfold SSEHandler_initialize, modify. simpl.
  unfold subscribe, bind.
  destruct (subscribe_begin l c _) as [[[k|]|e] σ1]; simpl.
  - unfold SSEHandler_get_resume. simpl. rewrite lookup_insert_eq. simpl.
    destruct (subscribe_resume k σ1) as [[u|e] σ2]; simpl.
    + split; [done|]. split; [intros l' Hne; by rewrite !lookup_insert_ne|].
      eexists. rewrite lookup_insert_eq. done.
    + split; [done|]. split; [intros l' Hne; by rewrite !lookup_insert_ne|].
      eexists. rewrite lookup_insert_eq. done.
  - unfold SSEHandler_get_resume. simpl. rewrite lookup_insert_eq. simpl.
    split; [done|]. split; [intros l' Hne; by rewrite !lookup_insert_ne|].
    eexists. rewrite lookup_insert_eq. done.
  - unfold SSEHandler_get_resume. simpl. rewrite lookup_insert_eq. simpl.
    split; [done|]. split; [intros l' Hne; by rewrite !lookup_insert_ne|].
    eexists. rewrite lookup_insert_eq. done.
Qed.

Lemma streaming_join c a h L l sv :
  subscriptions (core sv) !! c = Some a →
  flowing c a h L Scheduled [] [] (core sv) →
  handlers sv !! l = None →
  let sv' := serve [Request l; Get l c; Resume l] sv in
  subscriptions (core sv') !! c = Some a
  ∧ flowing c a h ({[l]} ∪ L) Scheduled [] [] (core sv')
  ∧ (∀ l', l' ≠ l → handlers sv' !! l' = handlers sv !! l')
  ∧ ∃ hd, handlers sv' !! l = Some hd ∧ sent hd = []
      ∧ stream_closed hd = false ∧ stage hd = Streaming.
Proof.
  intros Hc Hfl Hl sv'.
  destruct (connection_core l c sv Hl) as (Hcore & Hoth & hd & Hhd & Ho & Hst).
  fold sv' in Hcore, Hoth, Hhd.
  destruct (flowing_join c a h L l (core sv) Hc Hfl) as (Hc' & Hfl').
  rewrite <- Hcore in Hc', Hfl'.
  split; [done|]. split; [done|]. split; [done|].
  exists hd. split; [done|]. destruct Hfl as (Hobj & _).
  rewrite (subscribe_existing l c a
             {| name := c; listeners := L; channel := Some h |}) in Hst
    by done.
  simpl in Hst. by destruct Hst.
Qed.

Lemma streaming_first c l sv :
  subscriptions (core sv) !! c = None → redis (core sv) = true →
  Source.up (source (core sv)) = true →
  handlers sv !! l = None →
  let a := fresh (dom (objects (core sv))) in
  let h := fresh (dom (Source.feeds (source (core sv)))) in
  let sv' := serve [Request l; Get l c; Resume l] sv in
  subscriptions (core sv') !! c = Some a
  ∧ flowing c a h {[l]} Scheduled [] [] (core sv')
  ∧ (∀ l', l' ≠ l → handlers sv' !! l' = handlers sv !! l')
  ∧ ∃ hd, handlers sv' !! l = Some hd ∧ sent hd = []
      ∧ stream_closed hd = false ∧ stage hd = Streaming.
Proof.
  intros Hc Hr Hup Hl a h sv'.
  destruct (connection_core l c sv Hl) as (Hcore & Hoth & hd & Hhd & Ho & Hst).
  fold sv' in Hcore, Hoth, Hhd.
  destruct (flowing_first c l (core sv) Hc Hr Hup) as (Hc' & Hfl').
  rewrite <- Hcore in Hc', Hfl'.
  split; [done|]. split; [done|]. split; [done|].
  exists hd. split; [done|].
  rewrite subscribe_fresh in Hst by done. simpl in Hst. by destruct Hst.
Qed.

Lemma streaming_connections c a h ls :
  NoDup ls → ∀ L sv,
  subscriptions (core sv) !! c = Some a →
  flowing c a h L Scheduled [] [] (core sv) →
  (∀ l, l ∈ L → ∃ hd, handlers sv !! l = Some hd ∧ sent hd = []
                      ∧ stream_closed hd = false ∧ stage hd = Streaming) →
  (∀ l, l ∈ ls → handlers sv !! l = None) →
  let sv' := serve (connections c ls) sv in
  flowing c a h (list_to_set ls ∪ L) Scheduled [] [] (core sv')
  ∧ (∀ l, l ∈ list_to_set (C := gset nat) ls ∪ L →
       ∃ hd, handlers sv' !! l = Some hd ∧ sent hd = []
             ∧ stream_closed hd = false ∧ stage hd = Streaming).
Proof.
  intros Hnd. induction Hnd as [|l ls Hl Hnd IH]; intros L sv Hc Hfl HL Hnew.
  { simpl. rewrite (left_id_L ∅ (∪)). done. }
  unfold connections. rewrite bind_cons. fold (connections c ls).
  cbv zeta. rewrite serve_app.
  destruct (streaming_join c a h L l sv Hc Hfl) as (Hc' & Hfl' & Hoth & Hhd).
  { apply Hnew. by left. }
  replace (list_to_set (l :: ls) ∪ L)
    with (list_to_set ls ∪ ({[l]} ∪ L) : gset nat)
    by (rewrite list_to_set_cons; set_solver).
  apply IH; [done|done| |].
  - intros l' Hl'. destruct (decide (l' = l)) as [->|Hne]; [done|].
    rewrite Hoth by done. apply HL. set_solver.
  - intros l' Hl'. rewrite Hoth by (by intros ->). apply Hnew. by right.
Qed.

Lemma streaming_intro c a h L sv :
  flowing c a h L Scheduled [] [] (core sv) →
  (∀ l, l ∈ L → ∃ hd, handlers sv !! l = Some hd ∧ sent hd = []
                      ∧ stream_closed hd = false ∧ stage hd = Streaming) →
  streaming c a h L Scheduled [] [] sv.
Proof.
  intros (Ho & Ht & Hup & Hf & Hq) HL.
  split; [done|]. split; [done|]. split; [done|]. split; [done|].
  intros l Hl. destruct (Hq l Hl) as (q & Hql & Hm & Hi).
  destruct (HL l Hl) as (hd & Hhd & Hs & Hcl & Hst).
  exists q, hd. rewrite Hs, Hi. done.
Qed.

Lemma streaming_message c a h L t buf pub c' m sv :
  streaming c a h L t buf pub sv →
  streaming c a h L t (buf ++ aired c [Message c' m])
    (pub ++ aired c [Message c' m]) (act (Message c' m) sv).
Proof.
  intros (Ho & Ht & Hup & Hf & Hq). unfold streaming, act, step, modify. simpl.
  split; [done|]. split; [done|]. split; [done|]. split.
  - rewrite lookup_fmap, Hf. simpl. unfold Source.feed_publish. simpl.
    unfold aired. simpl.
    destruct (decide (c = c')) as [->|Hne].
    + by rewrite !decide_True.
    + rewrite !decide_False by done. by rewrite app_nil_r.
  - intros l Hl. destruct (Hq l Hl) as (q & hd & ? & ? & ? & ? & ? & Hi).
    exists q, hd. repeat (split; [done|]).
    by rewrite app_assoc, !fmap_app, app_assoc, <- fmap_app, Hi.
Qed.

Lemma streaming_start c a h L l0 buf pub sv :
  l0 ∈ L → streaming c a h L Scheduled buf pub sv →
  streaming c a h L Waiting buf pub (act (Turn a) sv).
Proof.
  intros Hl0 (Ho & Ht & Hup & Hf & Hq).
  unfold streaming, act, step, modify. simpl. unfold broadcast_step.
  rewrite Ht, Ho. simpl. rewrite (loop_test_inhabited _ l0) by done.
  simpl. by rewrite lookup_insert_eq.
Qed.

Lemma streaming_idle c a h L pub sv :
  streaming c a h L Waiting [] pub sv → act (Turn a) sv = sv.
Proof.
  intros (Ho & Ht & Hup & Hf & Hq). unfold act, step, modify. simpl.
  unfold broadcast_step. rewrite Ht, Ho. simpl. unfold Source.next.
  rewrite Hf, Hup. by destruct sv.
Qed.

Lemma streaming_pull c a h L l0 m buf pub sv :
  l0 ∈ L → streaming c a h L Waiting (m :: buf) pub sv →
  streaming c a h L Waiting buf pub (act (Turn a) sv).
Proof.
  intros Hl0 (Ho & Ht & Hup & Hf & Hq).
  unfold streaming, act, step, modify. simpl. unfold broadcast_step.
  rewrite Ht, Ho. simpl. unfold Source.next. rewrite Hf.
  set (src' := {| Source.up := Source.up (source (core sv));
                  Source.feeds := <[h := (c, buf)]>
                                    (Source.feeds (source (core sv))) |}).
  pose proof (broadcast_body_spec a
    {| name := c; listeners := L; channel := Some h |} m
    (set_source src' (core sv)))
    as (Hobj & Htask & Hqs & _ & _ & Hsrc).
  simpl in *.
  assert (Hoffer : ∀ l, l ∈ L → ∃ q, queues (core sv) !! l = Some q
      ∧ offer m (set_source src' (core sv)) l
        = Some {| Queue.maxsize := 0; Queue.items := Queue.items q ++ [m] |}).
  { intros l Hl. destruct (Hq l Hl) as (q & hd & Hql & Hm & _). exists q.
    split; [done|]. unfold offer. simpl. rewrite Hql. simpl.
    unfold Queue.put_nowait, Queue.full. by rewrite Hm. }
  assert (Hkept : kept m (set_source src' (core sv)) L = L).
  { apply set_eq. intros l. rewrite elem_of_kept. split; [by intros [? _]|].
    intros Hl. split; [done|].
    destruct (Hoffer l Hl) as (q & _ & ->). by eexists. }
  rewrite Hkept in Hobj, Htask.
  split; [done|]. split; [by rewrite Htask, (loop_test_inhabited _ l0)|].
  rewrite Hsrc. subst src'. simpl. rewrite lookup_insert_eq.
  split; [done|]. split; [done|].
  intros l Hl. rewrite Hqs, decide_True by done.
  destruct (Hoffer l Hl) as (q & Hql & Hoff).
  destruct (Hq l Hl) as (q0 & hd & Hql0 & Hm & Hhd & Hst & Hcl & Hi).
  assert (q0 = q) as -> by congruence.
  unfold offered. rewrite Hoff. eexists _, hd. split; [done|].
  split; [done|]. split; [done|]. split; [done|]. split; [done|].
  simpl. by rewrite <- app_assoc.
Qed.

Lemma streaming_pump c a h L t buf pub l0 sv :
  streaming c a h L t buf pub sv →
  streaming c a h L t buf pub (act (Pump l0) sv)
  ∧ (l0 ∈ L →
     received l0 (core (act (Pump l0) sv)) = tail (received l0 (core sv))).
Proof.
  intros (Ho & Ht & Hup & Hf & Hq). simpl. unfold SSEHandler_turn.
  assert (Hsame : streaming c a h L t buf pub sv) by done.
  destruct (handlers sv !! l0) as [hd0|] eqn:Hhd0.
  2:{ split; [done|]. intros Hl0. destruct (Hq l0 Hl0) as (? & ? & ? & ? & ? & _).
      congruence. }
  destruct (queues (core sv) !! l0) as [q0|] eqn:Hq0.
  2:{ split; [done|]. intros _. unfold received. by rewrite Hq0. }
  destruct (stage hd0) eqn:Hst0.
  1,2,4,5: split; [done|]; intros Hl0;
    destruct (Hq l0 Hl0) as (? & ? & ? & ? & ? & ? & _); congruence.
  unfold Queue_get. destruct (Queue.items q0) as [|m0 rest] eqn:Hitems.
  { split; [done|]. intros _. unfold received. rewrite Hq0. simpl.
    by rewrite Hitems. }
  assert (Hrec : ∀ hd', received l0
      (core (set_handler l0 hd'
         (set_core (set_queues
            (<[l0 := {| Queue.maxsize := Queue.maxsize q0;
                        Queue.items := rest |}]> (queues (core sv)))
            (core sv)) sv)))
      = tail (received l0 (core sv))).
  { intros hd'. unfold received. simpl.
    rewrite lookup_insert_eq, Hq0. simpl. by rewrite Hitems. }
  destruct (stream_closed hd0) eqn:Hcl0.
  - split; [|by intros _].
    unfold streaming. simpl.
    split; [done|]. split; [done|]. split; [done|]. split; [done|].
    intros l Hl. destruct (Hq l Hl) as (q & hd & Hql & Hm & Hhd & Hst & Hcl & Hi).
    destruct (decide (l = l0)) as [->|Hne]; [congruence|].
    exists q, hd. by rewrite !lookup_insert_ne.
  - split; [|by intros _].
    unfold streaming. simpl.
    split; [done|]. split; [done|]. split; [done|]. split; [done|].
    intros l Hl. destruct (Hq l Hl) as (q & hd & Hql & Hm & Hhd & Hst & Hcl & Hi).
    destruct (decide (l = l0)) as [->|Hne].
    + assert (q = q0) as -> by congruence.
      assert (hd = hd0) as -> by congruence.
      eexists _, _. rewrite !lookup_insert_eq.
      split; [done|]. split; [done|]. split; [done|]. split; [done|].
      split; [done|]. simpl. rewrite <- Hi, Hitems. simpl.
      by rewrite <- app_assoc.
    + exists q, hd. by rewrite !lookup_insert_ne.
Qed.

Lemma streaming_schedule c a h L l0 xs :
  l0 ∈ L → Forall (steady a) xs → ∀ t buf pub sv,
  t = Scheduled ∨ t = Waiting →
  streaming c a h L t buf pub sv →
  ∃ t' buf', (t' = Scheduled ∨ t' = Waiting)
    ∧ streaming c a h L t' buf' (pub ++ aired c xs) (serve xs sv)
    ∧ length buf' ≤ length buf + length (aired c xs).
Proof.
  intros Hl0 Hxs.
  induction Hxs as [|x xs Hx _ IH]; intros t buf pub sv Ht Hst.
  { exists t, buf. simpl. rewrite app_nil_r. split; [done|]. split; [done|lia]. }
  rewrite aired_cons, serve_cons.
  destruct x as [|l|l c'|l|l|l|b|c' m|b]; simpl in Hx; try done.
  - apply (IH t buf pub (act (Pump l) sv)); [done|].
    by apply streaming_pump.
  - subst b. destruct Ht as [-> | ->].
    + apply (IH Waiting buf pub (act (Turn a) sv)); [by right|].
      by eapply streaming_start.
    + destruct buf as [|m buf].
      * rewrite (streaming_idle c a h L pub sv Hst).
        apply (IH Waiting [] pub sv); [by right|done].
      * destruct (IH Waiting buf pub (act (Turn a) sv))
          as (t' & buf' & ? & ? & ?); [by right|by eapply streaming_pull|].
        exists t', buf'. split; [done|]. split; [done|]. simpl in *. lia.
  - destruct (IH t (buf ++ aired c [Message c' m])
                (pub ++ aired c [Message c' m]) (act (Message c' m) sv))
      as (t' & buf' & ? & Hst' & Hlen); [done|by apply streaming_message|].
    exists t', buf'. split; [done|]. rewrite <- app_assoc in Hst'.
    split; [done|]. rewrite length_app in Hlen |- *. lia.
Qed.

Lemma streaming_drain_waiting c a h L l0 pub :
  l0 ∈ L → ∀ n buf sv, length buf ≤ n →
  streaming c a h L Waiting buf pub sv →
  streaming c a h L Waiting [] pub (serve (replicate n (Turn a)) sv).
Proof.
  intros Hl0. induction n as [|n IH]; intros buf sv Hlen Hst.
  { destruct buf; [done|simpl in Hlen; lia]. }
  rewrite replicate_S, serve_cons. destruct buf as [|m buf].
  - rewrite (streaming_idle c a h L pub sv Hst). apply (IH []); [simpl; lia|done].
  - apply (IH buf); [simpl in Hlen; lia|]. by eapply streaming_pull.
Qed.

Lemma streaming_drain c a h L l0 pub t buf n sv :
  l0 ∈ L → t = Scheduled ∨ t = Waiting → S (length buf) ≤ n →
  streaming c a h L t buf pub sv →
  streaming c a h L Waiting [] pub (serve (replicate n (Turn a)) sv).
Proof.
  intros Hl0 [-> | ->] Hlen Hst.
  - destruct n as [|n]; [lia|]. rewrite replicate_S, serve_cons.
    eapply streaming_drain_waiting; [done|by apply Nat.succ_le_mono|].
    by eapply streaming_start.
  - eapply streaming_drain_waiting; [done| |done]. lia.
Qed.

Lemma streaming_pumped c a h L t buf pub l :
  l ∈ L → ∀ n sv, length (received l (core sv)) ≤ n →
  streaming c a h L t buf pub sv →
  streaming c a h L t buf pub (serve (replicate n (Pump l)) sv)
  ∧ received l (core (serve (replicate n (Pump l)) sv)) = [].
Proof.
  intros Hl. induction n as [|n IH]; intros sv Hlen Hst.
  { simpl. split; [done|]. destruct (received l (core sv)); [done|].
    simpl in Hlen. lia. }
  rewrite replicate_S, serve_cons.
  destruct (streaming_pump c a h L t buf pub l sv Hst) as (Hst' & Hrec).
  apply IH; [|done]. rewrite (Hrec Hl).
  destruct (received l (core sv)); simpl in *; lia.
Qed.

Lemma streaming_sent c a h L t buf pub l sv :
  l ∈ L → streaming c a h L t buf pub sv →
  sent_to l sv ++ (sse_frame <$> (received l (core sv) ++ buf))
  = sse_frame <$> pub.
Proof.
  intros Hl (_ & _ & _ & _ & Hq).
  destruct (Hq l Hl) as (q & hd & Hql & _ & Hhd & _ & _ & Hi).
  unfold sent_to, received. by rewrite Hql, Hhd.
Qed.

(** X12. From the backend to the client.  New clients, constructed and
    given their [get] on a channel without a relay before anything is
    published, each [get] reaching its loop before the next client
    arrives, are all sent the same event stream: whatever the
    interleaving of publications, relay turns and handler turns, what has
    been flushed to a client is at any time a prefix of the frames
    ["data: m\n\n"] of the messages published on the channel, in order of
    publication; and once the relay and the client's handler have had
    their turns, it is exactly those frames. *)
Theorem sse_stream_in_order (c : string) (ls : list listener)
    (xs : list action) (sv : Server) :
  subscriptions (core sv) !! c = None →
  redis (core sv) = true →
  Source.up (source (core sv)) = true →
  NoDup ls →
  (∀ l, l ∈ ls → handlers sv !! l = None) →
  Forall (steady (fresh (dom (objects (core sv))))) xs →
  let a := fresh (dom (objects (core sv))) in
  let sv1 := serve (connections c ls) sv in
  let sv2 := serve xs sv1 in
  let n := length (aired c xs) in
  ∀ l, l ∈ ls →
    sent_to l sv1 = []
    ∧ sent_to l sv2 `prefix_of` (sse_frame <$> aired c xs)
    ∧ sent_to l (serve (replicate (S n) (Turn a) ++ replicate n (Pump l)) sv2)
      = sse_frame <$> aired c xs.
Proof.
  intros Hc Hr Hup Hnd Hnew Hxs a sv1 sv2 n l Hl.
  destruct ls as [|l0 ls]; [by apply elem_of_nil in Hl|].
  apply NoDup_cons in Hnd as [Hl0 Hnd].
  set (h := fresh (dom (Source.feeds (source (core sv))))).
  set (L := list_to_set ls ∪ {[l0]} : gset nat).
  assert (Hl0L : l0 ∈ L) by set_solver.
  assert (HlL : l ∈ L).
  { apply elem_of_cons in Hl as [->|Hl]; [done|].
    apply elem_of_union_l. by apply elem_of_list_to_set. }
  assert (H1 : streaming c a h L Scheduled [] [] sv1).
  { subst sv1. unfold connections. rewrite bind_cons. fold (connections c ls).
    rewrite serve_app.
    destruct (streaming_first c l0 sv Hc Hr Hup) as (Hc' & Hfl & Hoth & Hhd).
    { apply Hnew. by left. }
    destruct (streaming_connections c a h ls Hnd {[l0]}
                (serve [Request l0; Get l0 c; Resume l0] sv) Hc' Hfl)
      as (Hfl' & HL').
    - intros l' ->%elem_of_singleton. done.
    - intros l' Hl'. rewrite Hoth by (by intros ->). apply Hnew. by right.
    - by apply streaming_intro. }
  destruct (streaming_schedule c a h L l0 xs Hl0L Hxs Scheduled [] [] sv1)
    as (t' & buf' & Ht' & H2 & Hlen); [by left|done|].
  fold sv2 in H2. simpl in H2, Hlen. fold n in Hlen.
  rewrite serve_app.
  assert (H3 : streaming c a h L Waiting [] (aired c xs)
                 (serve (replicate (S n) (Turn a)) sv2)).
  { eapply streaming_drain; [done|done| |done]. lia. }
  pose proof (streaming_sent _ _ _ _ _ _ _ l _ HlL H1) as E1.
  pose proof (streaming_sent _ _ _ _ _ _ _ l _ HlL H2) as E2.
  pose proof (streaming_sent _ _ _ _ _ _ _ l _ HlL H3) as E3.
  split; [|split].
  - simpl in E1. by apply app_eq_nil in E1 as [? _].
  - eexists. symmetry. exact E2.
  - destruct (streaming_pumped c a h L Waiting [] (aired c xs) l HlL n
                (serve (replicate (S n) (Turn a)) sv2)) as (H4 & Hrec); [|done|].
    + apply (f_equal length) in E3.
      rewrite length_app, !length_fmap, length_app in E3. fold n in E3. lia.
    + pose proof (streaming_sent _ _ _ _ _ _ _ l _ HlL H4) as E4.
      rewrite Hrec in E4. simpl in E4. by rewrite app_nil_r in E4.
Qed.

Lemma sse_stream_in_order_witness :
  let sv1 := serve (connections "x" [1; 2]) booted in
  let sv2 := serve traffic sv1 in
  let n := length (aired "x" traffic) in
  sse_frame <$> aired "x" traffic = [sse_frame "a"; sse_frame "b"]
  ∧ ∀ l, l ∈ [1; 2] →
      sent_to l sv1 = []
      ∧ sent_to l sv2 `prefix_of` (sse_frame <$> aired "x" traffic)
      ∧ sent_to l (serve (replicate (S n) (Turn 0) ++ replicate n (Pump l)) sv2)
        = sse_frame <$> aired "x" traffic.
Proof.
  split; [reflexivity|].
  apply (sse_stream_in_order "x" [1; 2] traffic booted);
    [reflexivity|reflexivity|reflexivity| | |].
  - repeat constructor; set_solver.
  - intros l _. reflexivity.
  - repeat constructor.
Defined.

(** ** Handlers that are out of their loop *)

Lemma act_finished x l hd sv :
  handlers sv !! l = Some hd → finished hd →
  ∃ hd', handlers (act x sv) !! l = Some hd' ∧ finished hd'
         ∧ stage hd' = stage hd ∧ sent hd' = sent hd
         ∧ headers hd' = headers hd.
Proof.
  intros Hhd Hfin.
  assert (Hsame : ∃ hd', handlers sv !! l = Some hd' ∧ finished hd'
                         ∧ stage hd' = stage hd ∧ sent hd' = sent hd
                         ∧ headers hd' = headers hd)
    by (by exists hd).
  assert (Hother : ∀ l' hd0 k, handlers sv !! l' = Some hd0 →
            stage hd0 = Constructed ∨ stage hd0 = Subscribing k
            ∨ stage hd0 = Streaming → l' ≠ l).
  { intros l' hd0 k Hl' Hst ->. assert (hd0 = hd) as -> by congruence.
    destruct Hfin as [?|[e ?]], Hst as [?|[?|?]]; congruence. }
  destruct x as [|l'|l' c|l'|l'|l'|a|c m|b]; simpl; try done.
  - unfold SSEHandler_new. destruct (handlers sv !! l') eqn:Hl'; [done|].
    simpl. rewrite lookup_insert_ne; [done|]. congruence.
  - unfold SSEHandler_get. destruct (handlers sv !! l') as [hd0|] eqn:Hl'; [|done].
    destruct (stage hd0) eqn:Hst0; try done.
    assert (l' ≠ l) by (eapply (Hother l' hd0 (Suspended 0 EmptyString 0)); eauto).
    destruct (subscribe_begin l' c (core sv)) as [[[k|]|e] σ']; simpl;
      by rewrite lookup_insert_ne.
  - unfold SSEHandler_get_resume.
    destruct (handlers sv !! l') as [hd0|] eqn:Hl'; [|done].
    destruct (stage hd0) as [|k| | |] eqn:Hst0; try done.
    assert (l' ≠ l) by (eapply (Hother l' hd0 k); eauto).
    destruct (subscribe_resume k (core sv)) as [[u|e] σ']; simpl;
      by rewrite lookup_insert_ne.
  - unfold SSEHandler_turn. destruct (handlers sv !! l') as [hd0|] eqn:Hl'; [|done].
    destruct (queues (core sv) !! l') as [q0|]; [|done].
    destruct (stage hd0) eqn:Hst0; try done.
    destruct (Queue_get q0) as [[m q']|]; [|done].
    assert (l' ≠ l) by (eapply (Hother l' hd0 (Suspended 0 EmptyString 0)); eauto).
    destruct (stream_closed hd0); simpl; by rewrite lookup_insert_ne.
  - unfold hang_up. destruct (handlers sv !! l') as [hd0|] eqn:Hl'; [|done].
    simpl. destruct (decide (l' = l)) as [->|Hne].
    + rewrite lookup_insert_eq. assert (hd0 = hd) as -> by congruence.
      eexists. split; [done|]. done.
    + by rewrite lookup_insert_ne.
Qed.

Lemma serve_finished xs : ∀ l hd sv,
  handlers sv !! l = Some hd → finished hd →
  ∃ hd', handlers (serve xs sv) !! l = Some hd'
         ∧ stage hd' = stage hd ∧ sent hd' = sent hd
         ∧ headers hd' = headers hd.
Proof.
  induction xs as [|x xs IH]; intros l hd sv Hhd Hfin; simpl; [by exists hd|].
  destruct (act_finished x l hd sv Hhd Hfin)
    as (hd1 & Hhd1 & Hfin1 & Hst1 & Hs1 & Hh1).
  destruct (IH l hd1 (act x sv) Hhd1 Hfin1) as (hd' & ? & ? & ? & ?).
  exists hd'. split; [done|]. split; [congruence|]. split; congruence.
Qed.

(** X13. A client that hangs up is noticed only when the next message
    comes.  While the handler's queue is empty its loop stays where it
    is.  At the next message the handler takes it from the queue, fails
    to flush it and leaves the loop: the message is lost, nothing more is
    ever sent to that client, and the handler is not taken out of any
    relay. *)
Theorem hang_up_ends_stream (l : listener) (hd : Handler) (sv : Server) :
  handlers sv !! l = Some hd →
  stage hd = Streaming →
  let sv1 := act (HangUp l) sv in
  let sv2 := act (Pump l) sv1 in
  (received l (core sv) = [] → sv2 = sv1)
  ∧ (∀ m rest, received l (core sv) = m :: rest →
       received l (core sv2) = rest
       ∧ objects (core sv2) = objects (core sv)
       ∧ subscriptions (core sv2) = subscriptions (core sv)
       ∧ ∀ xs, sent_to l (serve xs sv2) = sent hd
               ∧ (stage <$> handlers (serve xs sv2) !! l) = Some Returned).
Proof.
  intros Hhd Hst sv1 sv2. subst sv2 sv1. simpl.
  unfold hang_up. rewrite Hhd. unfold SSEHandler_turn. simpl.
  rewrite lookup_insert_eq. simpl. rewrite Hst. unfold received.
  destruct (queues (core sv) !! l) as [q|] eqn:Hq; simpl; [|done].
  unfold Queue_get. destruct (Queue.items q) as [|m0 rest0] eqn:Hi; [done|].
  split; [done|]. intros m rest [= <- <-]. simpl.
  rewrite lookup_insert_eq. split; [done|]. split; [done|]. split; [done|].
  intros xs.
  set (sv2 := set_handler l _ _).
  destruct (serve_finished xs l
              {| headers := headers hd; stage := Returned; sent := sent hd;
                 stream_closed := true |} sv2) as (hd' & Hhd' & Hst' & Hs' & _).
  { subst sv2. simpl. by rewrite lookup_insert_eq. }
  { by left. }
  unfold sent_to. rewrite Hhd'. simpl. by rewrite Hst', Hs'.
Qed.

Lemma hang_up_ends_stream_witness :
  let hd := {| headers := [("content-type", "text/event-stream");
                           ("cache-control", "no-cache")];
               stage := Streaming; sent := []; stream_closed := false |} in
  let sv := serve [Message "x" "a"; Turn 0] one_client in
  let sv1 := act (HangUp 1) sv in
  let sv2 := act (Pump 1) sv1 in
  received 1 (core sv) = ["a"]
  ∧ (received 1 (core sv) = [] → sv2 = sv1)
  ∧ (∀ m rest, received 1 (core sv) = m :: rest →
       received 1 (core sv2) = rest
       ∧ objects (core sv2) = objects (core sv)
       ∧ subscriptions (core sv2) = subscriptions (core sv)
       ∧ ∀ xs, sent_to 1 (serve xs sv2) = sent hd
               ∧ (stage <$> handlers (serve xs sv2) !! 1) = Some Returned).
Proof.
  split; [vm_compute; reflexivity|].
  apply (hang_up_ends_stream 1
           {| headers := [("content-type", "text/event-stream");
                          ("cache-control", "no-cache")];
              stage := Streaming; sent := []; stream_closed := false |}
           (serve [Message "x" "a"; Turn 0] one_client));
    vm_compute; reflexivity.
Defined.

(** X14. A client that asks for a channel without a relay while the
    backend is down gets the framework's error response, not an event
    stream.  On a connected manager [get] is suspended at the [await]
    inside [subscribe] and the exception arrives when the [await]
    returns; on a manager that never connected it is raised before the
    [await].  Either way [get] ends with the exception: the registry is
    as before, the handler is in no relay that it was not in, its headers
    are the framework's error headers, and the error body, if the client
    is still there, is the last thing that client is ever sent. *)
Theorem get_fails_without_backend (l : listener) (c : string) (hd : Handler)
    (sv : Server) :
  handlers sv !! l = Some hd →
  stage hd = Constructed →
  subscriptions (core sv) !! c = None →
  Source.up (source (core sv)) = false →
  let e := if redis (core sv) then SourceUnavailable else AttributeError in
  let page := if stream_closed hd then [] else [error_body (framework sv) e] in
  let sv0 := act (Get l c) sv in
  let sv1 := act (Resume l) sv0 in
  (stage <$> handlers sv0 !! l)
  = Some (if redis (core sv)
          then Subscribing (Suspended l c (fresh (dom (objects (core sv)))))
          else Raised AttributeError)
  ∧ subscriptions (core sv1) = subscriptions (core sv)
  ∧ handlers sv1 !! l
    = Some {| headers := error_headers (framework sv) e; stage := Raised e;
              sent := sent hd ++ page; stream_closed := stream_closed hd |}
  ∧ (∀ a s, objects (core sv1) !! a = Some s → l ∈ listeners s →
       objects (core sv) !! a = Some s)
  ∧ ∀ xs, sent_to l (serve xs sv1) = sent hd ++ page.
Proof.
  intros Hhd Hst Hc Hup e page sv0 sv1.
  assert (H1 : handlers sv1 !! l
    = Some {| headers := error_headers (framework sv) e; stage := Raised e;
              sent := sent hd ++ page; stream_closed := stream_closed hd |}
    ∧ (stage <$> handlers sv0 !! l)
      = Some (if redis (core sv)
              then Subscribing (Suspended l c (fresh (dom (objects (core sv)))))
              else Raised AttributeError)
    ∧ core sv1
      = set_objects (<[fresh (dom (objects (core sv))) :=
                         {| name := c; listeners := ∅; channel := None |}]>
                       (objects (core sv))) (core sv)).
  { subst sv1 sv0 e page. simpl. unfold SSEHandler_get. rewrite Hhd, Hst.
    destruct (subscribe_begin_cases l c (core sv))
      as [(a & s & ? & _)|[(a & ? & _)|[(_ & Hr & ->)|(_ & Hr & ->)]]];
      [congruence|congruence| |]; rewrite Hr.
    - unfold SSEHandler_get_resume. simpl. rewrite !lookup_insert_eq. simpl.
      destruct (subscribe_resume_cases
                  (Suspended l c (fresh (dom (objects (core sv)))))
                  (set_objects (<[fresh (dom (objects (core sv))) :=
                                    {| name := c; listeners := ∅;
                                       channel := None |}]>
                                  (objects (core sv))) (core sv)))
        as [(s & _ & Hup' & _)|[(_ & _ & ->)|(Hno & _)]]; simpl in *.
      + congruence.
      + rewrite lookup_insert_eq. unfold get_raises. simpl.
        split; [|done]. f_equal. f_equal.
        destruct (stream_closed hd); [by rewrite app_nil_r|done].
      + by rewrite lookup_insert_eq in Hno.
    - unfold SSEHandler_get_resume. simpl. rewrite !lookup_insert_eq. simpl.
      rewrite lookup_insert_eq. unfold get_raises. simpl.
      split; [|done]. f_equal. f_equal.
      destruct (stream_closed hd); [by rewrite app_nil_r|done]. }
  destruct H1 as (Hhd1 & Hst0 & Hcore).
  split; [done|]. split; [by rewrite Hcore|]. split; [done|]. split.
  - intros a s Ha Hl. rewrite Hcore in Ha. simpl in Ha.
    rewrite lookup_insert in Ha. case_decide; [|done].
    simplify_eq. set_solver.
  - intros xs.
    destruct (serve_finished xs l _ sv1 Hhd1) as (hd' & Hhd' & _ & Hs' & _).
    { right. by exists e. }
    unfold sent_to. rewrite Hhd'. simpl. by rewrite Hs'.
Qed.

Lemma get_fails_without_backend_witness :
  let hd := {| headers := [("content-type", "text/event-stream");
                           ("cache-control", "no-cache")];
               stage := Constructed; sent := []; stream_closed := false |} in
  let sv0 := act (Get 1 "x") refused in
  let sv1 := act (Resume 1) sv0 in
  handlers refused !! 1 = Some hd
  ∧ (stage <$> handlers sv0 !! 1) = Some (Subscribing (Suspended 1 "x" 0))
  ∧ subscriptions (core sv1) = subscriptions (core refused)
  ∧ handlers sv1 !! 1
    = Some {| headers := [("content-type", "text/html; charset=UTF-8")];
              stage := Raised SourceUnavailable;
              sent := [internal_server_error];
              stream_closed := false |}
  ∧ (∀ a s, objects (core sv1) !! a = Some s → 1 ∈ listeners s →
       objects (core refused) !! a = Some s)
  ∧ ∀ xs, sent_to 1 (serve xs sv1) = [internal_server_error].
Proof.
  split; [vm_compute; reflexivity|].
  apply (get_fails_without_backend 1 "x"
           {| headers := [("content-type", "text/event-stream");
                          ("cache-control", "no-cache")];
              stage := Constructed; sent := []; stream_closed := false |}
           refused); vm_compute; reflexivity.
Defined.

(** ** What the running server never does *)

Lemma broadcast_step_cases a σ :
  broadcast_step a σ = σ
  ∨ (∃ t, broadcast_step a σ = set_task a t σ)
  ∨ (∃ s h m src', tasks σ !! a = Some Waiting ∧ objects σ !! a = Some s
       ∧ channel s = Some h
       ∧ Source.next h (source σ) = Source.Got m src'
       ∧ broadcast_step a σ = broadcast_body a s m (set_source src' σ)).
Proof.
  unfold broadcast_step.
  destruct (tasks σ !! a) as [[| | |e]|] eqn:Ht; auto;
    destruct (objects σ !! a) as [s|] eqn:Ha; auto.
  - right. left. by eexists.
  - destruct (channel s) as [h|] eqn:Hch; [|right; left; by eexists].
    destruct (Source.next h (source σ)) as [|e|m src'] eqn:Hnext; auto.
    + right. left. by eexists.
    + right. right. by exists s, h, m, src'.
Qed.

Lemma offered_shape m σ l q' :
  offered m σ l = Some q' →
  ∃ q, queues σ !! l = Some q ∧ Queue.maxsize q' = Queue.maxsize q.
Proof.
  unfold offered, offer. destruct (queues σ !! l) as [q|]; simpl; [|done].
  unfold Queue.put_nowait. destruct (Queue.full q); simpl;
    intros [= <-]; by exists q.
Qed.

Lemma offered_is_Some m σ l :
  is_Some (queues σ !! l) → is_Some (offered m σ l).
Proof.
  intros [q Hq]. unfold offered, offer. rewrite Hq. simpl.
  unfold Queue.put_nowait. by destruct (Queue.full q).
Qed.

(** A relay turn creates no queue, loses none, and changes no queue's
    bound. *)
Lemma broadcast_step_queues a σ l :
  (∀ q', queues (broadcast_step a σ) !! l = Some q' →
     ∃ q, queues σ !! l = Some q ∧ Queue.maxsize q' = Queue.maxsize q)
  ∧ (is_Some (queues σ !! l) → is_Some (queues (broadcast_step a σ) !! l)).
Proof.
  destruct (broadcast_step_cases a σ)
    as [-> | [[t ->] | (s & h & m & src' & _ & _ & _ & _ & ->)]];
    [by eauto..|].
  pose proof (broadcast_body_spec a s m (set_source src' σ))
    as (_ & _ & Hq & _).
  rewrite Hq. destruct (decide (l ∈ listeners s)); [|by eauto].
  split.
  - intros q' Hq'. by apply offered_shape in Hq'.
  - intros Hl. by apply (offered_is_Some m (set_source src' σ)).
Qed.

(** A relay turn only ever takes listeners out, and takes none out
    whose queue accepts the message. *)
Lemma broadcast_step_listeners a σ :
  (∀ b s', objects (broadcast_step a σ) !! b = Some s' →
     ∃ s, objects σ !! b = Some s ∧ listeners s' ⊆ listeners s
          ∧ name s' = name s)
  ∧ ((∀ s l, objects σ !! a = Some s → l ∈ listeners s →
        ∃ q, queues σ !! l = Some q ∧ Queue.maxsize q = 0) →
     ∀ b s, objects σ !! b = Some s →
       ∃ s', objects (broadcast_step a σ) !! b = Some s'
             ∧ listeners s' = listeners s ∧ name s' = name s).
Proof.
  destruct (broadcast_step_cases a σ)
    as [-> | [[t ->] | (s & h & m & src' & _ & Ha & _ & _ & ->)]].
  1,2: split; [intros b s' Hb; by exists s'|intros _ b s Hb; by exists s].
  pose proof (broadcast_body_spec a s m (set_source src' σ))
    as (Hobj & _ & _ & Hoth & _).
  split.
  - intros b s' Hb. destruct (decide (b = a)) as [->|Hne].
    + rewrite Hobj in Hb. simplify_eq. exists s. split; [done|]. simpl.
      split; [|done]. intros l [? _]%elem_of_kept. done.
    + destruct (Hoth b Hne) as [Hb' _]. simpl in Hb'. rewrite Hb' in Hb. eauto.
  - intros Hunb b s0 Hb. destruct (decide (b = a)) as [->|Hne].
    + rewrite Hobj. simplify_eq. eexists. split; [done|]. simpl.
      split; [|done]. apply set_eq. intros l. rewrite elem_of_kept.
      split; [by intros [? _]|]. intros Hl. split; [done|].
      destruct (Hunb s l Ha Hl) as (q & Hq & Hm).
      unfold offer. simpl. rewrite Hq. simpl.
      unfold Queue.put_nowait, Queue.full. rewrite Hm. by eexists.
    + destruct (Hoth b Hne) as [Hb' _]. simpl in Hb'. rewrite Hb'. eauto.
Qed.


Lemma suspended_in_insert sv sv' l hd l' k :
  handlers sv' = <[l := hd]> (handlers sv) →
  suspended_in sv' l' k
  ↔ (l' = l ∧ stage hd = Subscribing k) ∨ (l' ≠ l ∧ suspended_in sv l' k).
Proof.
  intros E. unfold suspended_in. rewrite E.
  destruct (decide (l' = l)) as [->|Hne].
  - rewrite lookup_insert_eq. split.
    + intros (hd' & [= <-] & ?). by left.
    + intros [[_ ?]|[? _]]; [by exists hd|done].
  - rewrite lookup_insert_ne by done. split.
    + intros H. by right.
    + intros [[? _]|[_ ?]]; done.
Qed.

Lemma suspended_in_same sv sv' l k :
  handlers sv' = handlers sv → suspended_in sv' l k ↔ suspended_in sv l k.
Proof. intros E. unfold suspended_in. by rewrite E. Qed.

(** How a handler's [get] moves: the handler was constructed and is now
    in its loop, suspended or out with an exception. *)
Lemma SSEHandler_get_cases l c sv :
  SSEHandler_get l c sv = sv
  ∨ ∃ hd r σ', handlers sv !! l = Some hd ∧ stage hd = Constructed
      ∧ subscribe_begin l c (core sv) = (r, σ')
      ∧ SSEHandler_get l c sv
        = set_handler l
            match r with
            | Ok None => set_stage Streaming hd
            | Ok (Some k) => set_stage (Subscribing k) hd
            | Raise e => get_raises (framework sv) e hd
            end (set_core σ' sv).
Proof.
  unfold SSEHandler_get. destruct (handlers sv !! l) as [hd|]; [|by left].
  destruct (stage hd) eqn:Hst; try by left.
  right. destruct (subscribe_begin l c (core sv)) as [r σ'] eqn:Hb.
  exists hd, r, σ'. split; [done|]. split; [done|]. split; [done|].
  by destruct r as [[k|]|e].
Qed.

Lemma SSEHandler_get_resume_cases l sv :
  SSEHandler_get_resume l sv = sv
  ∨ ∃ hd k r σ', handlers sv !! l = Some hd ∧ stage hd = Subscribing k
      ∧ subscribe_resume k (core sv) = (r, σ')
      ∧ SSEHandler_get_resume l sv
        = set_handler l
            match r with
            | Ok _ => set_stage Streaming hd
            | Raise e => get_raises (framework sv) e hd
            end (set_core σ' sv).
Proof.
  unfold SSEHandler_get_resume. destruct (handlers sv !! l) as [hd|]; [|by left].
  destruct (stage hd) as [|k| | |] eqn:Hst; try by left.
  right. destruct (subscribe_resume k (core sv)) as [r σ'] eqn:Hb.
  exists hd, k, r, σ'. split; [done|]. split; [done|]. split; [done|].
  by destruct r as [u|e].
Qed.

(** A handler's turn either changes nothing or takes the head of its
    queue. *)
Lemma SSEHandler_turn_cases l sv :
  SSEHandler_turn l sv = sv
  ∨ ∃ hd q m hd', handlers sv !! l = Some hd ∧ stage hd = Streaming
      ∧ queues (core sv) !! l = Some q
      ∧ Queue.items q = m :: tail (Queue.items q)
      ∧ (stage hd' = Streaming ∨ stage hd' = Returned)
      ∧ headers hd' = headers hd
      ∧ SSEHandler_turn l sv
        = set_handler l hd'
            (set_core (set_queues
               (<[l := {| Queue.maxsize := Queue.maxsize q;
                          Queue.items := tail (Queue.items q) |}]>
                  (queues (core sv))) (core sv)) sv).
Proof.
  unfold SSEHandler_turn. destruct (handlers sv !! l) as [hd|]; [|by left].
  destruct (queues (core sv) !! l) as [q|]; [|by left].
  destruct (stage hd) eqn:Hst; try by left.
  unfold Queue_get. destruct (Queue.items q) as [|m rest] eqn:Hi; [by left|].
  right. destruct (stream_closed hd); eexists hd, q, m, _;
    (split; [done|]); (split; [done|]); (split; [done|]); rewrite Hi;
    (split; [done|]); (split; [|split; [|done]]); simpl; auto.
Qed.

Lemma act_reachable_shape x sv :
  reachable_shape sv → reachable_shape (act x sv).
Proof.
  intros (Hunb & Hhas & Henr & Hown).
  destruct x as [|l|l c|l|l|l|a|c m|b]; simpl.
  - unfold connect, bind, gets, modify, raise.
    by destruct (Source.up (source (core sv))).
  - unfold SSEHandler_new. destruct (handlers sv !! l) eqn:Hl; [done|].
    unfold SSEHandler_initialize, modify. split; [|split; [|split]]; simpl.
    + intros l' q Hq. rewrite lookup_insert in Hq.
      case_decide; simplify_eq; [done|eauto].
    + intros l' Hl'. destruct (decide (l = l')) as [->|Hne].
      * rewrite lookup_insert_eq. by eexists.
      * rewrite lookup_insert_ne by done.
        rewrite lookup_insert_ne in Hl' by done. auto.
    + intros a s l' Ha Hl'. rewrite lookup_insert. case_decide; [by eexists|].
      eauto.
    + intros l' k Hk. eapply suspended_in_insert in Hk; [|done].
      destruct Hk as [[_ ?]|[_ Hk]]; [done|]. apply Hown.
      by eapply suspended_in_same.
  - destruct (SSEHandler_get_cases l c sv)
      as [-> | (hd & r & σ' & Hhd & Hst & Hb & ->)]; [done|].
    assert (Hq : queues σ' = queues (core sv)).
    { pose proof (subscribe_begin_shape l c (core sv)) as (_ & _ & Hq & _).
      by rewrite Hb in Hq. }
    split; [|split; [|split]]; simpl.
    + intros l' q. rewrite Hq. eauto.
    + intros l' Hl'. rewrite Hq. apply Hhas.
      rewrite lookup_insert in Hl'. case_decide; [subst; by eexists|done].
    + intros a s l' Ha Hl'. rewrite lookup_insert. case_decide; [by eexists|].
      destruct (subscribe_begin_cases l c (core sv))
        as [(a0 & s0 & _ & Ha0 & Hb')|[(a0 & _ & _ & Hb')
           |[(_ & _ & Hb')|(_ & _ & Hb')]]];
        rewrite Hb in Hb'; injection Hb' as -> ->; simpl in Ha.
      * rewrite lookup_insert in Ha. case_decide; [|eauto].
        simplify_eq. simpl in Hl'. set_solver.
      * eauto.
      * rewrite lookup_insert in Ha. case_decide; [|eauto].
        simplify_eq; set_solver.
      * rewrite lookup_insert in Ha. case_decide; [|eauto].
        simplify_eq; set_solver.
    + intros l' k Hk. eapply suspended_in_insert in Hk; [|done].
      destruct Hk as [[-> Hk]|[_ Hk]].
      * destruct r as [[k'|]|e]; simpl in Hk; try done.
        injection Hk as ->.
        pose proof (subscribe_begin_shape l c (core sv))
          as (_ & _ & _ & _ & _ & Hk').
        rewrite Hb in Hk'. simpl in Hk'. by rewrite (Hk' k eq_refl).
      * apply Hown. by eapply suspended_in_same.
  - destruct (SSEHandler_get_resume_cases l sv)
      as [-> | (hd & k & r & σ' & Hhd & Hst & Hb & ->)]; [done|].
    assert (Hq : queues σ' = queues (core sv)).
    { pose proof (subscribe_resume_shape k (core sv)) as (_ & Hq & _).
      by rewrite Hb in Hq. }
    assert (Hkl : s_listener k = l) by (apply Hown; by exists hd).
    split; [|split; [|split]]; simpl.
    + intros l' q. rewrite Hq. eauto.
    + intros l' Hl'. rewrite Hq. apply Hhas.
      rewrite lookup_insert in Hl'. case_decide; [subst; by eexists|done].
    + intros a s l' Ha Hl'. rewrite lookup_insert. case_decide; [by eexists|].
      destruct (subscribe_resume_cases k (core sv))
        as [(s0 & Ha0 & _ & Hb')|[(_ & _ & Hb')|(_ & Hb')]];
        rewrite Hb in Hb'; injection Hb' as -> ->; simpl in Ha; [|eauto..].
      rewrite lookup_insert in Ha. case_decide; [|eauto].
      simplify_eq. simpl in Hl'. set_solver.
    + intros l' k' Hk. eapply suspended_in_insert in Hk; [|done].
      destruct Hk as [[-> Hk]|[_ Hk]].
      * by destruct r as [u|e].
      * apply Hown. by eapply suspended_in_same.
  - destruct (SSEHandler_turn_cases l sv)
      as [-> | (hd & q & m & hd' & Hhd & Hst & Hq & Hi & Hst' & _ & ->)]; [done|].
    split; [|split; [|split]]; simpl.
    + intros l' q' Hq'. rewrite lookup_insert in Hq'.
      case_decide; simplify_eq; simpl; eauto.
    + intros l' Hl'. rewrite lookup_insert. case_decide; [by eexists|].
      apply Hhas. by rewrite lookup_insert_ne in Hl'.
    + intros a s l' Ha Hl'. rewrite lookup_insert.
      case_decide; [by eexists|]. eauto.
    + intros l' k Hk. eapply suspended_in_insert in Hk; [|done].
      destruct Hk as [[-> Hk]|[_ Hk]]; [destruct Hst'; congruence|].
      apply Hown. by eapply suspended_in_same.
  - unfold hang_up. destruct (handlers sv !! l) as [hd|] eqn:Hl; [|done].
    split; [|split; [|split]]; simpl; [done| | |].
    + intros l' Hl'. apply Hhas. rewrite lookup_insert in Hl'.
      case_decide; [subst; by eexists|done].
    + intros a s l' Ha Hl'. rewrite lookup_insert. case_decide; [by eexists|].
      eauto.
    + intros l' k Hk. eapply suspended_in_insert in Hk; [|done].
      destruct Hk as [[-> Hk]|[_ Hk]]; [|by apply Hown].
      apply Hown. by exists hd.
  - unfold modify. simpl. split; [|split; [|split]]; simpl.
    + intros l q' Hq'.
      destruct (broadcast_step_queues a (core sv) l) as (Hshape & _).
      destruct (Hshape q' Hq') as (q & Hq & ->). eauto.
    + intros l Hl. apply broadcast_step_queues. auto.
    + intros b s' l Hb Hl.
      destruct (broadcast_step_listeners a (core sv)) as (Hsub & _).
      destruct (Hsub b s' Hb) as (s & Hs & Hincl & _). eauto.
    + done.
  - done.
  - done.
Qed.

Lemma act_keeps_listener x sv a s l :
  reachable_shape sv →
  objects (core sv) !! a = Some s → l ∈ listeners s →
  ∃ s', objects (core (act x sv)) !! a = Some s' ∧ l ∈ listeners s'
        ∧ name s' = name s.
Proof.
  intros (Hunb & Hhas & Henr & Hown) Ha Hl.
  assert (Hsame : ∃ s', objects (core sv) !! a = Some s' ∧ l ∈ listeners s'
                        ∧ name s' = name s) by eauto.
  destruct x as [|l0|l0 c|l0|l0|l0|b|c m|b]; simpl; try done.
  - unfold connect, bind, gets, modify, raise.
    by destruct (Source.up (source (core sv))).
  - unfold SSEHandler_new. by destruct (handlers sv !! l0).
  - destruct (SSEHandler_get_cases l0 c sv)
      as [-> | (hd & r & σ' & Hhd & Hst & Hb & ->)]; [done|]. simpl.
    destruct (subscribe_begin_cases l0 c (core sv))
      as [(a0 & s0 & _ & Ha0 & Hb')|[(a0 & _ & _ & Hb')
         |[(_ & _ & Hb')|(_ & _ & Hb')]]];
      rewrite Hb in Hb'; injection Hb' as -> ->; simpl; [|done|..].
    + destruct (decide (a0 = a)) as [->|Hne].
      * rewrite lookup_insert_eq. eexists. split; [done|]. simpl.
        simplify_eq. split; [set_solver|done].
      * rewrite lookup_insert_ne by done. eauto.
    + rewrite lookup_insert_ne; [done|]. by eapply fresh_object_ne.
    + rewrite lookup_insert_ne; [done|]. by eapply fresh_object_ne.
  - destruct (SSEHandler_get_resume_cases l0 sv)
      as [-> | (hd & k & r & σ' & Hhd & Hst & Hb & ->)]; [done|]. simpl.
    destruct (subscribe_resume_cases k (core sv))
      as [(s0 & Ha0 & _ & Hb')|[(_ & _ & Hb')|(_ & Hb')]];
      rewrite Hb in Hb'; injection Hb' as -> ->; simpl; [|done..].
    destruct (decide (s_sub k = a)) as [E|Hne].
    + rewrite E, lookup_insert_eq. eexists. split; [done|]. simpl.
      rewrite E in Ha0. simplify_eq. split; [set_solver|done].
    + rewrite lookup_insert_ne by done. eauto.
  - destruct (SSEHandler_turn_cases l0 sv)
      as [-> | (hd & q & m & hd' & _ & _ & _ & _ & _ & _ & ->)]; done.
  - unfold hang_up. by destruct (handlers sv !! l0).
  - unfold modify. simpl.
    destruct (broadcast_step_listeners b (core sv)) as (_ & Hkeep).
    destruct (Hkeep) with (b := a) (s := s) as (s' & Hs' & Hls & Hn); [|done|].
    + intros s0 l' Hb Hl'.
      destruct (Henr b s0 l' Hb Hl') as [hd Hhd].
      destruct (Hhas l') as [q Hq]; [by eexists|]. eauto.
    + exists s'. rewrite Hls. done.
Qed.

Lemma boot_reachable_shape fw src : reachable_shape (boot fw src).
Proof.
  split; [|split; [|split]]; simpl.
  - intros l' q Hq. by rewrite lookup_empty in Hq.
  - intros l' [hd Hhd]. by rewrite lookup_empty in Hhd.
  - intros a' s' l' Ha'. by rewrite lookup_empty in Ha'.
  - intros l' k (hd & Hhd & _). simpl in Hhd. by rewrite lookup_empty in Hhd.
Qed.

Lemma serve_reachable_shape xs sv :
  reachable_shape sv → reachable_shape (serve xs sv).
Proof.
  revert sv. induction xs as [|x xs IH]; intros sv Hsh; simpl; [done|].
  by apply IH, act_reachable_shape.
Qed.

(** X15. The running server never takes a listener out of a relay.
    Whatever the server has done since [main] started it, a listener that
    is in a relay's set stays in it through everything the server does
    afterwards, also after its client has hung up and its handler has
    left its loop: every queue is the unbounded one [initialize] made,
    so no enqueue ever fails, and nothing calls [unsubscribe]. *)
Theorem listeners_never_removed (xs ys : list action) (fw : Framework)
    (src : Source.t) (a : addr) (s : Subscription) (l : listener) :
  let sv := serve xs (boot fw src) in
  objects (core sv) !! a = Some s →
  l ∈ listeners s →
  ∃ s', objects (core (serve ys sv)) !! a = Some s' ∧ l ∈ listeners s'
        ∧ name s' = name s.
Proof.
  intros sv Ha Hl.
  assert (Hsh : reachable_shape sv)
    by apply serve_reachable_shape, boot_reachable_shape.
  clearbody sv. revert sv s Ha Hl Hsh.
  induction ys as [|y ys IH]; intros sv s Ha Hl Hsh; simpl; [by exists s|].
  destruct (act_keeps_listener y sv a s l Hsh Ha Hl) as (s1 & Ha1 & Hl1 & Hn1).
  destruct (IH (act y sv) s1 Ha1 Hl1) as (s' & ? & ? & ?);
    [by apply act_reachable_shape|].
  exists s'. split; [done|]. split; [done|]. congruence.
Qed.

Lemma listeners_never_removed_witness :
  let sv := serve [Startup; Request 1; Get 1 "x"; Resume 1; Turn 0]
              (boot plain_errors source_up) in
  let s := {| name := "x"; listeners := {[1]}; channel := Some 0 |} in
  let ys := [Message "x" "a"; Turn 0; HangUp 1; Pump 1; Message "x" "b";
             Turn 0; Request 2; Get 2 "y"; Backend false; Turn 0; Resume 2] in
  objects (core sv) !! 0 = Some s
  ∧ ∃ s', objects (core (serve ys sv)) !! 0 = Some s' ∧ 1 ∈ listeners s'
          ∧ name s' = name s.
Proof.
  split; [vm_compute; reflexivity|].
  apply (listeners_never_removed
           [Startup; Request 1; Get 1 "x"; Resume 1; Turn 0] _ plain_errors
           source_up 0
           {| name := "x"; listeners := {[1]}; channel := Some 0 |} 1).
  - vm_compute. reflexivity.
  - simpl. set_solver.
Defined.

(** ** The registry of the running server *)

Lemma act_registry x sv :
  subscriptions (core (act x sv)) = subscriptions (core sv)
  ∨ ∃ l k, suspended_in sv l k
      ∧ subscriptions (core (act x sv))
        = <[s_channel k := s_sub k]> (subscriptions (core sv)).
Proof.
  destruct x as [|l0|l0 c0|l0|l0|l0|b|c0 m|b]; simpl; auto.
  - left. unfold connect, bind, gets, modify, raise.
    by destruct (Source.up (source (core sv))).
  - left. unfold SSEHandler_new. by destruct (handlers sv !! l0).
  - left. destruct (SSEHandler_get_cases l0 c0 sv)
      as [-> | (hd & r & σ' & Hhd & Hst & Hb & ->)]; [done|]. simpl.
    pose proof (subscribe_begin_effect l0 c0 (core sv)) as (_ & Hs & _).
    by rewrite Hb in Hs.
  - destruct (SSEHandler_get_resume_cases l0 sv)
      as [-> | (hd & k & r & σ' & Hhd & Hst & Hb & ->)]; [by left|]. simpl.
    destruct (subscribe_resume_cases k (core sv))
      as [(s0 & Ha0 & _ & Hb')|[(_ & _ & Hb')|(_ & Hb')]];
      rewrite Hb in Hb'; injection Hb' as -> ->; simpl; [|by left..].
    right. exists l0, k. split; [by exists hd|done].
  - left. destruct (SSEHandler_turn_cases l0 sv)
      as [-> | (hd & q & m & hd' & _ & _ & _ & _ & _ & _ & ->)]; done.
  - left. unfold hang_up. by destruct (handlers sv !! l0).
  - left. unfold modify. simpl.
    by destruct (broadcast_step_registry b (core sv)) as [-> _].
Qed.

(** A handler is suspended inside [subscribe] only by its own [get], on
    a channel without a registry entry. *)
Lemma act_suspends x sv l k :
  suspended_in (act x sv) l k →
  suspended_in sv l k
  ∨ ∃ c, x = Get l c ∧ subscriptions (core sv) !! c = None
      ∧ k = Suspended l c (fresh (dom (objects (core sv)))).
Proof.
  destruct x as [|l0|l0 c0|l0|l0|l0|b|c0 m|b]; simpl; auto.
  - unfold SSEHandler_new. destruct (handlers sv !! l0) eqn:Hl0; [auto|].
    intros Hk. eapply suspended_in_insert in Hk; [|done].
    destruct Hk as [[_ ?]|[_ Hk]]; [done|]. left.
    by eapply suspended_in_same.
  - destruct (SSEHandler_get_cases l0 c0 sv)
      as [-> | (hd & r & σ' & Hhd & Hst & Hb & ->)]; [auto|].
    intros Hk. eapply suspended_in_insert in Hk; [|done].
    destruct Hk as [[-> Hk]|[_ Hk]]; [|left; by eapply suspended_in_same].
    right. exists c0. split; [done|].
    destruct (subscribe_begin_cases l0 c0 (core sv))
      as [(a0 & s0 & _ & Ha0 & Hb')|[(a0 & _ & _ & Hb')
         |[(Hc & _ & Hb')|(_ & _ & Hb')]]];
      rewrite Hb in Hb'; injection Hb' as -> ->; simpl in Hk; try done.
    split; [done|]. by injection Hk as <-.
  - destruct (SSEHandler_get_resume_cases l0 sv)
      as [-> | (hd & k0 & r & σ' & Hhd & Hst & Hb & ->)]; [auto|].
    intros Hk. eapply suspended_in_insert in Hk; [|done].
    destruct Hk as [[-> Hk]|[_ Hk]]; [by destruct r|].
    left. by eapply suspended_in_same.
  - destruct (SSEHandler_turn_cases l0 sv)
      as [-> | (hd & q & m & hd' & _ & _ & _ & _ & Hst' & _ & ->)]; [auto|].
    intros Hk. eapply suspended_in_insert in Hk; [|done].
    destruct Hk as [[-> Hk]|[_ Hk]]; [destruct Hst'; congruence|].
    left. by eapply suspended_in_same.
  - unfold hang_up. destruct (handlers sv !! l0) as [hd|] eqn:Hl0; [|auto].
    intros Hk. eapply suspended_in_insert in Hk; [|done].
    destruct Hk as [[-> Hk]|[_ Hk]]; [|by left].
    left. by exists hd.
Qed.

Lemma act_registry_dom x sv c :
  is_Some (subscriptions (core sv) !! c) →
  is_Some (subscriptions (core (act x sv)) !! c).
Proof.
  intros Hc. destruct (act_registry x sv) as [-> | (l & k & _ & ->)]; [done|].
  rewrite lookup_insert. by case_decide.
Qed.

Lemma act_registry_kept x sv c a :
  subscriptions (core sv) !! c = Some a → no_call_on c sv →
  subscriptions (core (act x sv)) !! c = Some a ∧ no_call_on c (act x sv).
Proof.
  intros Hc Hno. split.
  - destruct (act_registry x sv) as [-> | (l & k & Hk & ->)]; [done|].
    rewrite lookup_insert_ne; [done|]. by eapply Hno.
  - intros l k Hk. destruct (act_suspends x sv l k Hk)
      as [Hk' | (c0 & _ & Hc0 & ->)]; [by eapply Hno|].
    simpl. congruence.
Qed.

(** X16. Nothing in the running server removes a registry entry:
    [unsubscribe] is never called.  A channel that has a relay keeps
    having one; and it keeps the very relay it has unless a [get] is
    suspended inside a [subscribe] for that channel, which stores its own
    relay when it is resumed.  With no such call pending, the relay a
    channel has is the relay it keeps for the life of the process:
    [subscribe] creates one only for a channel that has none. *)
Theorem registry_never_shrinks (xs : list action) (sv : Server)
    (c : string) (a : addr) :
  subscriptions (core sv) !! c = Some a →
  is_Some (subscriptions (core (serve xs sv)) !! c)
  ∧ ((∀ l hd k, handlers sv !! l = Some hd → stage hd = Subscribing k →
        s_channel k ≠ c) →
     subscriptions (core (serve xs sv)) !! c = Some a).
Proof.
  intros Hc. split.
  - assert (Hs : is_Some (subscriptions (core sv) !! c)) by (by eexists).
    clear Hc. revert sv Hs.
    induction xs as [|x xs IH]; intros sv Hs; simpl; [done|].
    by apply IH, act_registry_dom.
  - intros Hno. assert (Hno' : no_call_on c sv).
    { intros l k (hd & Hhd & Hst). by eapply Hno. }
    clear Hno. revert sv Hc Hno'.
    induction xs as [|x xs IH]; intros sv Hc Hno; simpl; [done|].
    destruct (act_registry_kept x sv c a Hc Hno). by apply IH.
Qed.

Lemma registry_never_shrinks_witness :
  let xs := [Backend false; Turn 0; Backend true; Request 2; Get 2 "x";
             Resume 3; Turn 1; Request 4; Get 4 "y"; HangUp 1; Turn 0] in
  subscriptions (core one_pending) !! "x" = Some 0
  ∧ (stage <$> handlers one_pending !! 3)
    = Some (Subscribing (Suspended 3 "y" 1))
  ∧ is_Some (subscriptions (core (serve xs one_pending)) !! "x")
  ∧ subscriptions (core (serve xs one_pending)) !! "x" = Some 0.
Proof.
  split; [vm_compute; reflexivity|]. split; [vm_compute; reflexivity|].
  destruct (registry_never_shrinks
              [Backend false; Turn 0; Backend true; Request 2; Get 2 "x";
               Resume 3; Turn 1; Request 4; Get 4 "y"; HangUp 1; Turn 0]
              one_pending "x" 0) as [Hdom Hkeep]; [vm_compute; reflexivity|].
  split; [exact Hdom|]. apply Hkeep.
  intros l hd k Hhd Hst.
  replace (handlers one_pending)
    with (<[3 := {| headers := [("content-type", "text/event-stream");
                                ("cache-control", "no-cache")];
                    stage := Subscribing (Suspended 3 "y" 1); sent := [];
                    stream_closed := false |}]>
            ({[1 := {| headers := [("content-type", "text/event-stream");
                                   ("cache-control", "no-cache")];
                       stage := Streaming; sent := [];
                       stream_closed := false |}]} : gmap nat Handler))
    in Hhd by (vm_compute; reflexivity).
  apply lookup_insert_Some in Hhd as [[_ <-]|[_ Hhd]].
  - simpl in Hst. injection Hst as <-. simpl. discriminate.
  - apply lookup_singleton_Some in Hhd as [_ <-]. discriminate.
Defined.

(** ** Suspended calls of the running server *)

Lemma broadcast_step_object a b σ :
  is_Some (objects σ !! a) → is_Some (objects (broadcast_step b σ) !! a).
Proof.
  intros [s Hs].
  destruct (broadcast_step_names b σ (name s) a) as (s' & ? & _);
    [by exists s|by exists s'].
Qed.

Lemma boot_calls_apart fw src : calls_apart (boot fw src).
Proof.
  split; [|split; [|split]]; simpl.
  - intros c a Hc. by rewrite lookup_empty in Hc.
  - intros l [q Hq]. by rewrite lookup_empty in Hq.
  - intros l k (hd & Hhd & _). simpl in Hhd. by rewrite lookup_empty in Hhd.
  - intros l1 l2 k1 k2 (hd & Hhd & _). simpl in Hhd.
    by rewrite lookup_empty in Hhd.
Qed.

Lemma act_calls_apart x sv : calls_apart sv → calls_apart (act x sv).
Proof.
  intros (Hobj & Hqh & Hsus & Hdis).
  destruct x as [|l|l c|l|l|l|b|c m|b]; simpl.
  - unfold connect, bind, gets, modify, raise.
    by destruct (Source.up (source (core sv))).
  - unfold SSEHandler_new. destruct (handlers sv !! l) eqn:Hl; [done|].
    unfold SSEHandler_initialize, modify.
    assert (Hold : ∀ l' k,
      suspended_in
        (set_handler l
           {| headers := [("content-type", "text/event-stream");
                          ("cache-control", "no-cache")];
              stage := Constructed; sent := []; stream_closed := false |}
           (set_core (set_queues (<[l := Queue.new]> (queues (core sv)))
                        (core sv)) sv)) l' k →
      suspended_in sv l' k).
    { intros l' k Hk. eapply suspended_in_insert in Hk; [|done].
      destruct Hk as [[_ ?]|[_ Hk]]; [done|]. by eapply suspended_in_same. }
    split; [|split; [|split]]; simpl.
    + done.
    + intros l' Hl'. rewrite lookup_insert. case_decide; [by eexists|].
      apply Hqh. by rewrite lookup_insert_ne in Hl'.
    + intros l' k Hk. by apply (Hsus l'), Hold.
    + intros l1 l2 k1 k2 H1 H2. by apply Hdis; apply Hold.
  - destruct (SSEHandler_get_cases l c sv)
      as [-> | (hd & r & σ' & Hhd & Hst & Hb & ->)]; [done|].
    assert (Hold : ∀ l' k, l' ≠ l →
      suspended_in (set_handler l
        match r with
        | Ok None => set_stage Streaming hd
        | Ok (Some k) => set_stage (Subscribing k) hd
        | Raise e => get_raises (framework sv) e hd
        end (set_core σ' sv)) l' k → suspended_in sv l' k).
    { intros l' k Hne Hk. eapply suspended_in_insert in Hk; [|done].
      destruct Hk as [[? _]|[_ Hk]]; [done|]. by eapply suspended_in_same. }
    assert (Hq : queues σ' = queues (core sv)).
    { pose proof (subscribe_begin_shape l c (core sv)) as (_ & _ & Hq & _).
      by rewrite Hb in Hq. }
    assert (Hreg : subscriptions σ' = subscriptions (core sv)).
    { pose proof (subscribe_begin_effect l c (core sv)) as (_ & Hs & _).
      by rewrite Hb in Hs. }
    assert (Hkeep : ∀ a, is_Some (objects (core sv) !! a) →
                         is_Some (objects σ' !! a)).
    { intros a [s Hs].
      pose proof (subscribe_begin_effect l c (core sv)) as (Hn & _).
      rewrite Hb in Hn. simpl in Hn.
      destruct (Hn (name s) a) as (s' & ? & _); [by exists s|by exists s']. }
    assert (Hnew : ∀ k, r = Ok (Some k) →
              s_sub k = fresh (dom (objects (core sv)))
              ∧ is_Some (objects σ' !! s_sub k)).
    { intros k ->.
      destruct (subscribe_begin_cases l c (core sv))
        as [(a0 & s0 & _ & Ha0 & Hb')|[(a0 & _ & _ & Hb')
           |[(Hc & _ & Hb')|(_ & _ & Hb')]]];
        rewrite Hb in Hb'; try discriminate.
      injection Hb' as -> ->. simpl. by rewrite lookup_insert_eq. }
    assert (Hself : ∀ k,
      suspended_in (set_handler l
        match r with
        | Ok None => set_stage Streaming hd
        | Ok (Some k) => set_stage (Subscribing k) hd
        | Raise e => get_raises (framework sv) e hd
        end (set_core σ' sv)) l k → r = Ok (Some k)).
    { intros k Hk. eapply suspended_in_insert in Hk; [|done].
      destruct Hk as [[_ Hk]|[? _]]; [|done].
      destruct r as [[k'|]|e]; simpl in Hk; try done. by injection Hk as ->. }
    assert (Hfresh : ∀ l' k, suspended_in sv l' k →
              s_sub k ≠ fresh (dom (objects (core sv)))).
    { intros l' k Hk E. destruct (Hsus l' k Hk) as [[s Hs] _].
      rewrite E, fresh_object_None in Hs. done. }
    split; [|split; [|split]]; simpl.
    + intros c' a. rewrite Hreg. intros Hc'. apply Hkeep. eauto.
    + intros l' Hl'. rewrite Hq in Hl'. rewrite lookup_insert.
      case_decide; [by eexists|]. auto.
    + intros l' k Hk. rewrite Hreg.
      destruct (decide (l' = l)) as [->|Hne].
      * apply Hself in Hk. destruct (Hnew k Hk) as [E Hex].
        split; [done|]. intros c' Hc'. rewrite E in Hc'.
        apply Hobj in Hc' as [s Hs]. by rewrite fresh_object_None in Hs.
      * apply Hold in Hk; [|done]. destruct (Hsus l' k Hk) as [Hex Hun].
        split; [by apply Hkeep|done].
    + intros l1 l2 k1 k2 H1 H2 E.
      destruct (decide (l1 = l)) as [->|Hne1], (decide (l2 = l)) as [->|Hne2];
        [done| | |].
      * apply Hself in H1. apply Hnew in H1 as [E1 _].
        apply Hold in H2; [|done]. exfalso.
        apply (Hfresh l2 k2 H2). congruence.
      * apply Hself in H2. apply Hnew in H2 as [E2 _].
        apply Hold in H1; [|done]. exfalso.
        apply (Hfresh l1 k1 H1). congruence.
      * eapply Hdis; [by apply Hold|by apply Hold|done].
  - destruct (SSEHandler_get_resume_cases l sv)
      as [-> | (hd & k & r & σ' & Hhd & Hst & Hb & ->)]; [done|].
    assert (Hk : suspended_in sv l k) by (by exists hd).
    assert (Hold : ∀ l' k', 
      suspended_in (set_handler l
        match r with
        | Ok _ => set_stage Streaming hd
        | Raise e => get_raises (framework sv) e hd
        end (set_core σ' sv)) l' k' → l' ≠ l ∧ suspended_in sv l' k').
    { intros l' k' Hk'. eapply suspended_in_insert in Hk'; [|done].
      destruct Hk' as [[_ Hk']|[? Hk']]; [by destruct r|].
      split; [done|]. by eapply suspended_in_same. }
    assert (Hq : queues σ' = queues (core sv)).
    { pose proof (subscribe_resume_shape k (core sv)) as (_ & Hq & _).
      by rewrite Hb in Hq. }
    assert (Hkeep : ∀ a, is_Some (objects (core sv) !! a) →
                         is_Some (objects σ' !! a)).
    { intros a [s Hs].
      pose proof (subscribe_resume_shape k (core sv)) as (Hn & _).
      rewrite Hb in Hn. simpl in Hn.
      destruct (Hn (name s) a) as (s' & ? & _); [by exists s|by exists s']. }
    assert (Hreg : subscriptions σ' = subscriptions (core sv)
                   ∨ subscriptions σ'
                     = <[s_channel k := s_sub k]> (subscriptions (core sv))).
    { destruct (subscribe_resume_cases k (core sv))
        as [(s0 & Ha0 & _ & Hb')|[(_ & _ & Hb')|(_ & Hb')]];
        rewrite Hb in Hb'; injection Hb' as -> ->; simpl; auto. }
    split; [|split; [|split]]; simpl.
    + intros c' a Hc'. apply Hkeep. destruct Hreg as [E|E]; rewrite E in Hc'.
      * eauto.
      * rewrite lookup_insert in Hc'. case_decide; [|eauto].
        simplify_eq. by apply (Hsus l).
    + intros l' Hl'. rewrite Hq in Hl'. rewrite lookup_insert.
      case_decide; [by eexists|]. auto.
    + intros l' k' Hk'. apply Hold in Hk' as [Hne Hk'].
      destruct (Hsus l' k' Hk') as [Hex Hun]. split; [by apply Hkeep|].
      intros c' Hc'. destruct Hreg as [E|E]; rewrite E in Hc'.
      * by eapply Hun.
      * rewrite lookup_insert in Hc'. case_decide.
        -- injection Hc' as Hc'. apply Hne. by eapply Hdis.
        -- by eapply Hun.
    + intros l1 l2 k1 k2 H1 H2. apply Hold in H1 as [_ H1].
      apply Hold in H2 as [_ H2]. by apply Hdis.
  - destruct (SSEHandler_turn_cases l sv)
      as [-> | (hd & q & m & hd' & Hhd & Hst & Hq & Hi & Hst' & _ & ->)]; [done|].
    assert (Hold : ∀ l' k, suspended_in
      (set_handler l hd'
         (set_core (set_queues
            (<[l := {| Queue.maxsize := Queue.maxsize q;
                       Queue.items := tail (Queue.items q) |}]>
               (queues (core sv))) (core sv)) sv)) l' k →
      suspended_in sv l' k).
    { intros l' k Hk. eapply suspended_in_insert in Hk; [|done].
      destruct Hk as [[_ Hk]|[_ Hk]]; [destruct Hst'; congruence|].
      by eapply suspended_in_same. }
    split; [|split; [|split]]; simpl.
    + done.
    + intros l' Hl'. rewrite lookup_insert. case_decide; [by eexists|].
      apply Hqh. by rewrite lookup_insert_ne in Hl'.
    + intros l' k Hk. by apply (Hsus l'), Hold.
    + intros l1 l2 k1 k2 H1 H2. by apply Hdis; apply Hold.
  - unfold hang_up. destruct (handlers sv !! l) as [hd|] eqn:Hl; [|done].
    assert (Hold : ∀ l' k, suspended_in
      (set_handler l
         {| headers := headers hd; stage := stage hd; sent := sent hd;
            stream_closed := true |} sv) l' k →
      suspended_in sv l' k).
    { intros l' k Hk. eapply suspended_in_insert in Hk; [|done].
      destruct Hk as [[-> Hk]|[_ Hk]]; [by exists hd|done]. }
    split; [|split; [|split]]; simpl.
    + done.
    + intros l' Hl'. rewrite lookup_insert. case_decide; [by eexists|]. auto.
    + intros l' k Hk. by apply (Hsus l'), Hold.
    + intros l1 l2 k1 k2 H1 H2. by apply Hdis; apply Hold.
  - unfold modify. simpl.
    destruct (broadcast_step_registry b (core sv)) as (Hreg & _).
    split; [|split; [|split]]; simpl.
    + intros c' a. rewrite Hreg. intros Hc'. apply broadcast_step_object. eauto.
    + intros l [q' Hq'].
      destruct (broadcast_step_queues b (core sv) l) as (Hshape & _).
      destruct (Hshape q' Hq') as (q & Hq & _). apply Hqh. by exists q.
    + intros l k Hk. destruct (Hsus l k Hk) as [Hex Hun].
      split; [by apply broadcast_step_object|]. by rewrite Hreg.
    + done.
  - done.
  - done.
Qed.

Lemma serve_calls_apart xs sv : calls_apart sv → calls_apart (serve xs sv).
Proof.
  revert sv. induction xs as [|x xs IH]; intros sv H; simpl; [done|].
  by apply IH, act_calls_apart.
Qed.

(** ** A channel whose relay has ended *)

Lemma act_dead_for x a c l sv :
  (∀ c', x = Get l c' → c' = c) →
  reachable_shape sv → calls_apart sv → no_call_on c sv →
  (∀ k, ¬ suspended_in sv l k) →
  dead_for a c l sv → dead_for a c l (act x sv).
Proof.
  intros Hget (_ & _ & _ & Hown) (_ & _ & Hsus & _) Hno Hnot
    (Hc & Hobj & Hend & Hreg & Hrec & Hsent).
  assert (Hsame : dead_for a c l sv) by done.
  destruct x as [|l0|l0 c0|l0|l0|l0|b|c0 m|b]; simpl; try done.
  - unfold connect, bind, gets, modify, raise.
    by destruct (Source.up (source (core sv))).
  - unfold SSEHandler_new. destruct (handlers sv !! l0) eqn:Hl0; [done|].
    unfold SSEHandler_initialize, modify.
    split; [done|]. split; [done|]. split; [done|]. split; [done|].
    unfold received, sent_to in *. simpl.
    destruct (decide (l0 = l)) as [->|Hne].
    + by rewrite !lookup_insert_eq.
    + by rewrite !lookup_insert_ne.
  - destruct (SSEHandler_get_cases l0 c0 sv)
      as [-> | (hd & r & σ' & Hhd & Hst & Hb & ->)]; [done|].
    unfold dead_for, ended, silent, received, sent_to in *. simpl.
    destruct (subscribe_begin_cases l0 c0 (core sv))
      as [(a0 & s0 & Hc0 & Ha0 & Hb')|[(a0 & Hc0 & Ha0 & Hb')
         |[(Hc0 & _ & Hb')|(Hc0 & _ & Hb')]]];
      rewrite Hb in Hb'; injection Hb' as -> ->; simpl.
    + split; [done|]. split; [by apply lookup_insert_is_Some'; right|].
      split; [done|]. split; [|split; [done|]].
      * intros a' s' Ha' Hl'. rewrite lookup_insert in Ha'.
        case_decide; [|by eapply Hreg]. simplify_eq. simpl in Hl'.
        apply elem_of_union in Hl' as [Hl'|Hl']; [|by eapply Hreg].
        apply elem_of_singleton in Hl' as ->.
        assert (c0 = c) as -> by (by apply Hget). congruence.
      * destruct (decide (l0 = l)) as [->|Hne].
        -- rewrite lookup_insert_eq. simpl. by rewrite Hhd in Hsent.
        -- by rewrite lookup_insert_ne.
    + split; [done|]. split; [done|]. split; [done|]. split; [done|].
      split; [done|]. rewrite lookup_insert_ne; [done|]. intros ->.
      assert (c0 = c) as -> by (by apply Hget).
      assert (a0 = a) as -> by congruence.
      destruct Hobj as [? ?]. congruence.
    + assert (Hne : l0 ≠ l).
      { intros ->. assert (c0 = c) as -> by (by apply Hget). congruence. }
      split; [done|]. split; [by apply lookup_insert_is_Some'; right|].
      split; [done|]. split; [|split; [done|by rewrite lookup_insert_ne]].
      intros a' s' Ha' Hl'. rewrite lookup_insert in Ha'.
      case_decide; [|by eapply Hreg]. simplify_eq; set_solver.
    + assert (Hne : l0 ≠ l).
      { intros ->. assert (c0 = c) as -> by (by apply Hget). congruence. }
      split; [done|]. split; [by apply lookup_insert_is_Some'; right|].
      split; [done|]. split; [|split; [done|by rewrite lookup_insert_ne]].
      intros a' s' Ha' Hl'. rewrite lookup_insert in Ha'.
      case_decide; [|by eapply Hreg]. simplify_eq; set_solver.
  - destruct (SSEHandler_get_resume_cases l0 sv)
      as [-> | (hd & k & r & σ' & Hhd & Hst & Hb & ->)]; [done|].
    assert (Hk : suspended_in sv l0 k) by (by exists hd).
    assert (Hne : l0 ≠ l) by (intros ->; by eapply Hnot).
    assert (Hkl : s_listener k = l0) by (by apply Hown).
    assert (Hkc : s_channel k ≠ c) by (by eapply Hno).
    assert (Hka : s_sub k ≠ a).
    { intros E. destruct (Hsus l0 k Hk) as [_ Hun]. apply (Hun c). by rewrite E. }
    unfold dead_for, ended, silent, received, sent_to in *. simpl.
    destruct (subscribe_resume_cases k (core sv))
      as [(s0 & Ha0 & _ & Hb')|[(_ & _ & Hb')|(_ & Hb')]];
      rewrite Hb in Hb'; injection Hb' as -> ->; simpl.
    + split; [by rewrite lookup_insert_ne|].
      split; [by apply lookup_insert_is_Some'; right|].
      split; [by rewrite lookup_insert_ne|].
      split; [|split; [done|by rewrite lookup_insert_ne]].
      intros a' s' Ha' Hl'. rewrite lookup_insert in Ha'.
      case_decide; [|by eapply Hreg]. simplify_eq. simpl in Hl'.
      apply elem_of_union in Hl' as [Hl'|Hl']; [|by eapply Hreg].
      apply elem_of_singleton in Hl'. congruence.
    + split; [done|]. split; [done|]. split; [done|]. split; [done|].
      split; [done|]. by rewrite lookup_insert_ne.
    + split; [done|]. split; [done|]. split; [done|]. split; [done|].
      split; [done|]. by rewrite lookup_insert_ne.
  - destruct (SSEHandler_turn_cases l0 sv)
      as [-> | (hd & q & m & hd' & Hhd & Hst & Hq & Hi & Hst' & _ & ->)]; [done|].
    assert (Hne : l0 ≠ l).
    { intros ->. unfold received in Hrec. rewrite Hq in Hrec. simpl in Hrec.
      congruence. }
    split; [done|]. split; [done|]. split; [done|]. split; [done|].
    unfold received, sent_to in *; simpl; by rewrite !lookup_insert_ne.
  - unfold hang_up. destruct (handlers sv !! l0) as [hd|] eqn:Hl0; [|done].
    split; [done|]. split; [done|]. split; [done|]. split; [done|].
    split; [done|]. unfold sent_to in *. simpl.
    destruct (decide (l0 = l)) as [->|Hne].
    + rewrite lookup_insert_eq. simpl. by rewrite Hl0 in Hsent.
    + by rewrite lookup_insert_ne.
  - unfold modify. simpl.
    destruct (decide (b = a)) as [->|Hne].
    { replace (broadcast_step a (core sv)) with (core sv); [by destruct sv|].
      unfold broadcast_step. by destruct Hend as [-> | [e ->]]. }
    destruct (broadcast_step_registry b (core sv)) as (Hr & _).
    destruct (broadcast_step_listeners b (core sv)) as (Hsub & _).
    unfold dead_for, silent, sent_to. simpl.
    split; [by rewrite Hr|].
    destruct (broadcast_step_cases b (core sv))
      as [-> | [[t ->] | (s & h & m & src' & _ & Hb & _ & _ & Hbody)]].
    + done.
    + split; [done|]. split; [|done]. unfold ended. simpl.
      by rewrite lookup_insert_ne.
    + pose proof (broadcast_body_spec b s m (set_source src' (core sv)))
        as (_ & _ & Hq & Hoth & _).
      rewrite <- Hbody in Hq, Hoth. destruct (Hoth a) as [Ho Ht]; [done|].
      simpl in Ho, Ht.
      split; [by rewrite Ho|]. split; [unfold ended; by rewrite Ht|].
      split; [|split; [|done]].
      * intros a' s' Ha' Hl'. destruct (Hsub a' s' Ha') as (s0 & Hs0 & Hincl & _).
        eapply Hreg; [done|]. by apply Hincl.
      * unfold received in *. simpl. rewrite Hq. rewrite decide_False; [done|].
        intros Hl. apply Hne. by eapply Hreg.
Qed.

(** X17. A channel whose relay has ended is dead for good, unless a
    [get] is still suspended inside a [subscribe] for it.  Whatever the
    server has done since [main] started it: once the relay that the
    registry holds for a channel has returned or died, and no handler is
    suspended inside a [subscribe] for that channel, a client that
    connects afterwards and asks for that channel is never sent anything,
    not even an error, whatever is published and however long the server
    runs.  The registry keeps the ended relay, the client is put into it,
    and no loop is ever started for that channel again. *)
Theorem dead_channel_stays_dead (xs ys : list action) (fw : Framework)
    (src : Source.t) (c : string) (a : addr) (l : listener) :
  let sv := serve xs (boot fw src) in
  subscriptions (core sv) !! c = Some a →
  ended a (core sv) →
  handlers sv !! l = None →
  (∀ l0 hd k, handlers sv !! l0 = Some hd → stage hd = Subscribing k →
     s_channel k ≠ c) →
  (∀ c', Get l c' ∈ ys → c' = c) →
  let sv' := serve ys sv in
  subscriptions (core sv') !! c = Some a
  ∧ ended a (core sv')
  ∧ sent_to l sv' = []
  ∧ received l (core sv') = [].
Proof.
  intros sv Hc Hend Hhd Hno Hget sv'.
  assert (Hsh : reachable_shape sv)
    by apply serve_reachable_shape, boot_reachable_shape.
  assert (Hap : calls_apart sv) by apply serve_calls_apart, boot_calls_apart.
  assert (Hno' : no_call_on c sv).
  { intros l0 k (hd & Hl0 & Hst). by eapply Hno. }
  assert (Hnot : ∀ k, ¬ suspended_in sv l k).
  { intros k (hd & Hl & _). congruence. }
  assert (Hdead : dead_for a c l sv).
  { destruct Hsh as (_ & _ & Henr & _). destruct Hap as (Hobj & Hqh & _).
    split; [done|]. split; [by eapply Hobj|]. split; [done|]. split; [|split].
    - intros a' s' Ha' Hl'. destruct (Henr a' s' l Ha' Hl') as [hd ?].
      congruence.
    - unfold received. destruct (queues (core sv) !! l) as [q|] eqn:Hq; [|done].
      destruct (Hqh l) as [hd ?]; [by exists q|congruence].
    - unfold sent_to. by rewrite Hhd. }
  assert (Hfinal : dead_for a c l sv').
  { subst sv'. clear Hc Hend Hhd Hno. clearbody sv.
    revert sv Hsh Hap Hno' Hnot Hdead Hget.
    induction ys as [|y ys IH]; intros sv Hsh Hap Hno Hnot Hdead Hget;
      simpl; [done|].
    assert (Hy : ∀ c', y = Get l c' → c' = c).
    { intros c' ->. apply Hget. by left. }
    apply IH.
    - by apply act_reachable_shape.
    - by apply act_calls_apart.
    - destruct Hdead as (Hc & _). by apply (act_registry_kept y sv c a).
    - intros k Hk. destruct (act_suspends y sv l k Hk)
        as [Hk' | (c0 & Hy0 & Hc0 & _)]; [by eapply Hnot|].
      apply Hy in Hy0 as ->. destruct Hdead as (Hc & _). congruence.
    - by apply act_dead_for.
    - intros c' Hin. apply Hget. by right. }
  destruct Hfinal as (? & _ & ? & _ & ? & ?). done.
Qed.

Lemma dead_channel_stays_dead_witness :
  let sv := serve orphaned_pending (boot plain_errors source_up) in
  let ys := [Request 2; Get 2 "x"; Resume 3; Turn 1; Message "x" "m";
             Message "y" "n"; Turn 0; Turn 1; Pump 2; Pump 3;
             Message "x" "o"; Turn 0; Pump 2] in
  let sv' := serve ys sv in
  ended 0 (core sv)
  ∧ (stage <$> handlers sv !! 3) = Some (Subscribing (Suspended 3 "y" 1))
  ∧ sent_to 3 sv' = [sse_frame "n"]
  ∧ subscriptions (core sv') !! "x" = Some 0
  ∧ ended 0 (core sv')
  ∧ sent_to 2 sv' = []
  ∧ received 2 (core sv') = [].
Proof.
  assert (Hend : ended 0 (core (serve orphaned_pending
                                  (boot plain_errors source_up)))).
  { right. exists SourceClosed. vm_compute. reflexivity. }
  split; [exact Hend|]. split; [vm_compute; reflexivity|].
  split; [vm_compute; reflexivity|].
  apply (dead_channel_stays_dead orphaned_pending _ plain_errors source_up
           "x" 0 2).
  - vm_compute. reflexivity.
  - exact Hend.
  - vm_compute. reflexivity.
  - intros l0 hd k Hhd Hst.
    replace (handlers (serve orphaned_pending (boot plain_errors source_up)))
      with (<[3 := {| headers := [("content-type", "text/event-stream");
                                  ("cache-control", "no-cache")];
                      stage := Subscribing (Suspended 3 "y" 1); sent := [];
                      stream_closed := false |}]>
              ({[1 := {| headers := [("content-type", "text/event-stream");
                                     ("cache-control", "no-cache")];
                         stage := Streaming; sent := [];
                         stream_closed := false |}]} : gmap nat Handler))
      in Hhd by (vm_compute; reflexivity).
    apply lookup_insert_Some in Hhd as [[_ <-]|[_ Hhd]].
    + simpl in Hst. injection Hst as <-. simpl. discriminate.
    + apply lookup_singleton_Some in Hhd as [_ <-]. discriminate.
  - intros c' Hin.
    repeat (apply elem_of_cons in Hin as [Hin|Hin]; [by simplify_eq|]).
    by apply elem_of_nil in Hin.
Defined.

(** ** The response a handler has prepared *)




(** * Fan-out, whatever else the program does *)

(** ** Every step, one case at a time *)








(** ** The states the program can reach are well formed *)











(** ** Listeners gathering on a channel *)







(** ** A listener carried by its relay *)











